(** * The launcher icon organiser: extraction, tag cache and orchestration

    A shallow embedding of [main.py] and [extract_launcher_data.py].

    Python text is a sequence of code points, the cache file a sequence of
    bytes; the remote services, the disk and the clustering library are
    oracles of an environment record; every effect the program has on the
    outside (a line printed, a remote call, a write of the cache file, a
    clustering call) is an event appended to a trace that is threaded
    through the code together with the state of the cache file. *)

From Stdlib Require Import List NArith ZArith Bool Lia String Ascii Permutation.
Import ListNotations.
Local Open Scope N_scope.

Set Implicit Arguments.
Set Warnings "-register-all".

(* ================================================================== *)
(** ** Python text *)

(** A character is its Unicode code point, a [str] the list of them. *)
Definition char := N.
Definition str := list char.

(** An ASCII literal as a [str]. *)
Definition lit (s : string) : str :=
  List.map N_of_ascii (list_ascii_of_string s).

Fixpoint str_eqb (a b : str) : bool :=
  match a, b with
  | [], [] => true
  | x :: a', y :: b' => (x =? y) && str_eqb a' b'
  | _, _ => false
  end.

(** [s.startswith(p)], returning what follows the prefix. *)
Fixpoint strip_prefix (p s : str) : option str :=
  match p with
  | [] => Some s
  | x :: p' =>
      match s with
      | y :: s' => if x =? y then strip_prefix p' s' else None
      | [] => None
      end
  end.

Definition startswith (p s : str) : bool :=
  match strip_prefix p s with Some _ => true | None => false end.

(** [sub in s] for two strings. *)
Fixpoint contains (sub s : str) : bool :=
  startswith sub s ||
  match s with
  | [] => false
  | _ :: s' => contains sub s'
  end.

(** [str.isspace] of one character: the code points Python's [strip()]
    removes (U+0009..U+000D, U+001C..U+0020, U+0085, U+00A0, U+1680,
    U+2000..U+200A, U+2028, U+2029, U+202F, U+205F, U+3000). *)
Definition py_isspace (c : char) : bool :=
  ((9 <=? c) && (c <=? 13)) || ((28 <=? c) && (c <=? 32)) ||
  (c =? 133) || (c =? 160) || (c =? 5760) ||
  ((8192 <=? c) && (c <=? 8202)) || (c =? 8232) || (c =? 8233) ||
  (c =? 8239) || (c =? 8287) || (c =? 12288).

Fixpoint lstrip (s : str) : str :=
  match s with
  | c :: s' => if py_isspace c then lstrip s' else s
  | [] => []
  end.

(** [s.strip()] *)
Definition strip (s : str) : str := rev (lstrip (rev (lstrip s))).

(** The sentinel tag "信息不足" (U+4FE1 U+606F U+4E0D U+8DB3). *)
Definition SENTINEL : str := [20449; 24687; 19981; 36275].

(* ================================================================== *)
(** ** Exceptions *)

(** The exception classes that occur, and their base classes.
    [IOError] is an alias of [OSError] in Python 3. *)
Inductive pyclass :=
| Exception
| OSError
| FileNotFoundError
| PermissionError
| ValueError
| UnicodeError
| UnicodeDecodeError
| UnicodeEncodeError
| JSONDecodeError
| Sqlite3Error
| Sqlite3DatabaseError
| Sqlite3OperationalError
| AttributeError
| TypeError
| LookupError
| IndexError
| RemoteAPIError.

Definition pyclass_eqb (a b : pyclass) : bool :=
  match a, b with
  | Exception, Exception | OSError, OSError
  | FileNotFoundError, FileNotFoundError | PermissionError, PermissionError
  | ValueError, ValueError | UnicodeError, UnicodeError
  | UnicodeDecodeError, UnicodeDecodeError
  | UnicodeEncodeError, UnicodeEncodeError
  | JSONDecodeError, JSONDecodeError | Sqlite3Error, Sqlite3Error
  | Sqlite3DatabaseError, Sqlite3DatabaseError
  | Sqlite3OperationalError, Sqlite3OperationalError
  | AttributeError, AttributeError | TypeError, TypeError
  | LookupError, LookupError | IndexError, IndexError
  | RemoteAPIError, RemoteAPIError => true
  | _, _ => false
  end.

(** The direct base class ([None] for [Exception] itself). *)
Definition base (c : pyclass) : option pyclass :=
  match c with
  | Exception => None
  | OSError => Some Exception
  | FileNotFoundError => Some OSError
  | PermissionError => Some OSError
  | ValueError => Some Exception
  | UnicodeError => Some ValueError
  | UnicodeDecodeError => Some UnicodeError
  | UnicodeEncodeError => Some UnicodeError
  | JSONDecodeError => Some ValueError
  | Sqlite3Error => Some Exception
  | Sqlite3DatabaseError => Some Sqlite3Error
  | Sqlite3OperationalError => Some Sqlite3DatabaseError
  | AttributeError => Some Exception
  | TypeError => Some Exception
  | LookupError => Some Exception
  | IndexError => Some LookupError
  | RemoteAPIError => Some Exception
  end.

Fixpoint issubclass_upto (depth : nat) (c k : pyclass) : bool :=
  pyclass_eqb c k ||
  match depth with
  | O => false
  | S d => match base c with
           | Some b => issubclass_upto d b k
           | None => false
           end
  end.

(** [issubclass(c, k)]; no class of the table is more than four steps
    below [Exception]. *)
Definition issubclass (c k : pyclass) : bool := issubclass_upto 4 c k.

(** [except (k1, k2, ...)] catches an exception of class [c]. *)
Definition caught_by (ks : list pyclass) (c : pyclass) : bool :=
  existsb (issubclass c) ks.

(* ================================================================== *)
(** ** UTF-8, as [open(..., encoding='utf-8')] applies it *)

Definition bytes := list N.

Definition is_surrogate (c : char) : bool := (55296 <=? c) && (c <=? 57343).

(** Encoding one code point; [None] is [UnicodeEncodeError] (a
    surrogate cannot be encoded). *)
Definition utf8_encode_char (c : char) : option bytes :=
  if c <? 128 then Some [c]
  else if c <? 2048 then Some [192 + c / 64; 128 + c mod 64]
  else if is_surrogate c then None
  else if c <? 65536 then
    Some [224 + c / 4096; 128 + (c / 64) mod 64; 128 + c mod 64]
  else if c <? 1114112 then
    Some [240 + c / 262144; 128 + (c / 4096) mod 64;
          128 + (c / 64) mod 64; 128 + c mod 64]
  else None.

Fixpoint utf8_encode (s : str) : option bytes :=
  match s with
  | [] => Some []
  | c :: s' =>
      match utf8_encode_char c, utf8_encode s' with
      | Some a, Some b => Some (a ++ b)
      | _, _ => None
      end
  end.

Definition is_cont (b : N) : bool := (128 <=? b) && (b <=? 191).

(** Strict decoding; [None] is [UnicodeDecodeError] (a stray or missing
    continuation byte, an overlong form, a surrogate, a value above
    U+10FFFF). *)
Fixpoint utf8_decode (bs : bytes) : option str :=
  match bs with
  | [] => Some []
  | b0 :: r0 =>
      if b0 <? 128 then option_map (cons b0) (utf8_decode r0)
      else if (194 <=? b0) && (b0 <=? 223) then
        match r0 with
        | b1 :: r1 =>
            if is_cont b1
            then option_map (cons ((b0 - 192) * 64 + (b1 - 128)))
                            (utf8_decode r1)
            else None
        | _ => None
        end
      else if (224 <=? b0) && (b0 <=? 239) then
        match r0 with
        | b1 :: b2 :: r2 =>
            let c := (b0 - 224) * 4096 + (b1 - 128) * 64 + (b2 - 128) in
            if is_cont b1 && is_cont b2 && (2048 <=? c) && negb (is_surrogate c)
            then option_map (cons c) (utf8_decode r2)
            else None
        | _ => None
        end
      else if (240 <=? b0) && (b0 <=? 244) then
        match r0 with
        | b1 :: b2 :: b3 :: r3 =>
            let c := (b0 - 240) * 262144 + (b1 - 128) * 4096
                     + (b2 - 128) * 64 + (b3 - 128) in
            if is_cont b1 && is_cont b2 && is_cont b3
               && (65536 <=? c) && (c <? 1114112)
            then option_map (cons c) (utf8_decode r3)
            else None
        | _ => None
        end
      else None
  end.

(* ================================================================== *)
(** ** Insertion-ordered dictionaries

    A Python [dict] keeps its keys in insertion order, which is the
    order [json.dump] writes them in: a list of (key, value) pairs
    without repeated keys. *)

Section OrderedDict.
Variables (K V : Type) (keq : K -> K -> bool).

(** [d.get(k)]; [k in d] is [dict_get d k <> None]. *)
Fixpoint dict_get (d : list (K * V)) (k : K) : option V :=
  match d with
  | [] => None
  | (k', v) :: d' => if keq k' k then Some v else dict_get d' k
  end.

(** [d[k] = v]: a present key keeps its place, a new one goes last. *)
Fixpoint dict_set (d : list (K * V)) (k : K) (v : V) : list (K * V) :=
  match d with
  | [] => [(k, v)]
  | (k', v') :: d' =>
      if keq k' k then (k', v) :: d' else (k', v') :: dict_set d' k v
  end.

Definition dict_keys (d : list (K * V)) : list K := List.map fst d.
End OrderedDict.

(** The tag cache: package identifier -> tag string. *)
Definition tag_cache := list (str * str).
Definition cache_get (c : tag_cache) (k : str) : option str := dict_get str_eqb c k.
Definition cache_set (c : tag_cache) (k v : str) : tag_cache := dict_set str_eqb c k v.

(* ================================================================== *)
(** ** JSON, as the [json] module reads and writes it *)

(** A decoded document.  A number keeps its lexeme: nothing here does
    arithmetic on it. *)
Inductive json :=
| JNull
| JBool (b : bool)
| JNum (lexeme : str)
| JStr (s : str)
| JArr (items : list json)
| JObj (members : list (str * json)).

(** *** Writing: [json.dump(d, f, indent=4, ensure_ascii=False)] *)

Definition hexdigit (n : N) : char := if n <? 10 then 48 + n else 87 + n.

(** [ESCAPE_DCT]: the replacement of one character of a string. *)
Definition escape_char (c : char) : str :=
  if c =? 34 then [92; 34]              (* "  ->  \"  *)
  else if c =? 92 then [92; 92]         (* \  ->  \\  *)
  else if c =? 10 then [92; 110]        (* \n *)
  else if c =? 13 then [92; 114]        (* \r *)
  else if c =? 9 then [92; 116]         (* \t *)
  else if c =? 8 then [92; 98]          (* \b *)
  else if c =? 12 then [92; 102]        (* \f *)
  else if c <? 32 then [92; 117; 48; 48; hexdigit (c / 16); hexdigit (c mod 16)]
  else [c].

(** [py_encode_basestring]: the string between double quotes, escaped. *)
Definition encode_basestring (s : str) : str :=
  [34] ++ flat_map escape_char s ++ [34].

Definition newline_indent : str := [10; 32; 32; 32; 32].
Definition item_separator : str := [44] ++ newline_indent.
Definition key_separator : str := [58; 32].

(** The chunks [_iterencode_dict] yields for the items, in order. *)
Fixpoint item_chunks (first : bool) (items : tag_cache) : list str :=
  match items with
  | [] => []
  | (k, v) :: rest =>
      (if first then [] else [item_separator])
      ++ [encode_basestring k; key_separator; encode_basestring v]
      ++ item_chunks false rest
  end.

(** The chunks [json.dump] hands to [f.write], one call each, for a
    dictionary of strings. *)
Definition dump_chunks (d : tag_cache) : list str :=
  match d with
  | [] => [[123; 125]]
  | _ => [[123]; newline_indent] ++ item_chunks true d ++ [[10]; [125]]
  end.

(** The text [json.dump] writes. *)
Definition json_dumps (d : tag_cache) : str := List.concat (dump_chunks d).

(** *** Reading: [json.loads(content)] *)

Definition is_ws (c : char) : bool :=
  (c =? 32) || (c =? 9) || (c =? 10) || (c =? 13).

Fixpoint skip_ws (s : str) : str :=
  match s with
  | c :: s' => if is_ws c then skip_ws s' else s
  | [] => []
  end.

Definition hexval (c : char) : option N :=
  if (48 <=? c) && (c <=? 57) then Some (c - 48)
  else if (97 <=? c) && (c <=? 102) then Some (c - 87)
  else if (65 <=? c) && (c <=? 70) then Some (c - 55)
  else None.

(** [_decode_uXXXX]: four hexadecimal digits. *)
Definition hex4 (a b c d : char) : option N :=
  match hexval a, hexval b, hexval c, hexval d with
  | Some x, Some y, Some z, Some w => Some (((x * 16 + y) * 16 + z) * 16 + w)
  | _, _, _, _ => None
  end.

(** The [BACKSLASH] table. *)
Definition unescape (e : char) : option char :=
  if e =? 34 then Some 34
  else if e =? 92 then Some 92
  else if e =? 47 then Some 47
  else if e =? 98 then Some 8
  else if e =? 102 then Some 12
  else if e =? 110 then Some 10
  else if e =? 114 then Some 13
  else if e =? 116 then Some 9
  else None.

Definition is_high (u : N) : bool := (55296 <=? u) && (u <=? 56319).
Definition is_low (u : N) : bool := (56320 <=? u) && (u <=? 57343).

(** The low half of a surrogate pair written [\uXXXX] at the head of [s]. *)
Definition low_escape (s : str) : option (N * str) :=
  match s with
  | b :: u :: h1 :: h2 :: h3 :: h4 :: r =>
      if (b =? 92) && (u =? 117) then
        match hex4 h1 h2 h3 h4 with
        | Some v => if is_low v then Some (v, r) else None
        | None => None
        end
      else None
  | _ => None
  end.

Definition cons_fst {A B : Type} (a : A) (r : option (list A * B)) : option (list A * B) :=
  match r with
  | Some (l, b) => Some (a :: l, b)
  | None => None
  end.

(** [scanstring] in strict mode, from just after the opening quote: the
    decoded string and what follows the closing quote. *)
Fixpoint scanstring (s : str) : option (str * str) :=
  match s with
  | [] => None
  | c :: r =>
      if c =? 34 then Some ([], r)
      else if c =? 92 then
        match r with
        | [] => None
        | e :: r1 =>
            if e =? 117 then
              match r1 with
              | h1 :: h2 :: h3 :: h4 :: r2 =>
                  match hex4 h1 h2 h3 h4 with
                  | None => None
                  | Some u =>
                      match r2 with
                      | b :: u' :: k1 :: k2 :: k3 :: k4 :: r3 =>
                          match (if is_high u then low_escape r2 else None) with
                          | Some (v, _) =>
                              cons_fst (65536 + ((u - 55296) * 1024 + (v - 56320)))
                                       (scanstring r3)
                          | None => cons_fst u (scanstring r2)
                          end
                      | _ => cons_fst u (scanstring r2)
                      end
                  end
              | _ => None
              end
            else
              match unescape e with
              | Some ch => cons_fst ch (scanstring r1)
              | None => None
              end
        end
      else if c <? 32 then None
      else cons_fst c (scanstring r)
  end.

Definition is_digit (c : char) : bool := (48 <=? c) && (c <=? 57).

(** The longest run of digits at the head of [s], and what follows it. *)
Fixpoint digits (s : str) : str * str :=
  match s with
  | c :: s' =>
      if is_digit c then let (ds, r) := digits s' in (c :: ds, r) else ([], s)
  | [] => ([], [])
  end.

(** The integer part of a number: an optional minus sign, then either
    a lone 0 or a digit 1..9 followed by any digits. *)
Definition match_int (s : str) : option (str * str) :=
  let (sign, s1) := match s with
                    | c :: r => if c =? 45 then ([45], r) else ([], s)
                    | [] => ([], s)
                    end in
  match s1 with
  | c :: r =>
      if c =? 48 then Some (sign ++ [48], r)
      else if is_digit c then let (ds, r') := digits r in Some (sign ++ c :: ds, r')
      else None
  | [] => None
  end.

(** An optional fraction: a dot followed by one digit or more. *)
Definition match_frac (s : str) : str * str :=
  match s with
  | c :: r =>
      if c =? 46 then
        match digits r with
        | ([], _) => ([], s)
        | (ds, r') => (46 :: ds, r')
        end
      else ([], s)
  | [] => ([], s)
  end.

(** An optional exponent: e or E, an optional sign, one digit or more. *)
Definition match_exp (s : str) : str * str :=
  match s with
  | e :: r =>
      if (e =? 101) || (e =? 69) then
        let (sign, r1) := match r with
                          | c :: r' => if (c =? 45) || (c =? 43) then ([c], r') else ([], r)
                          | [] => ([], r)
                          end in
        match digits r1 with
        | ([], _) => ([], s)
        | (ds, r') => (e :: sign ++ ds, r')
        end
      else ([], s)
  | [] => ([], s)
  end.

(** [NUMBER_RE.match]: the lexeme of the number at the head of [s]. *)
Definition match_number (s : str) : option (str * str) :=
  match match_int s with
  | None => None
  | Some (i, r) =>
      let (f, r1) := match_frac r in
      let (e, r2) := match_exp r1 in
      Some (i ++ f ++ e, r2)
  end.

Definition lit_null : str := Eval cbv in lit "null".
Definition lit_true : str := Eval cbv in lit "true".
Definition lit_false : str := Eval cbv in lit "false".
Definition lit_NaN : str := Eval cbv in lit "NaN".
Definition lit_Infinity : str := Eval cbv in lit "Infinity".
Definition lit_minus_Infinity : str := Eval cbv in lit "-Infinity".

(** The literals [scan_once] knows besides strings, containers and
    numbers, and the way it tries them: [null], [true], [false], then a
    number, then [NaN], [Infinity] and [-Infinity]. *)
Definition scan_atom (s : str) : option (json * str) :=
  match strip_prefix lit_null s with
  | Some r => Some (JNull, r)
  | None =>
  match strip_prefix lit_true s with
  | Some r => Some (JBool true, r)
  | None =>
  match strip_prefix lit_false s with
  | Some r => Some (JBool false, r)
  | None =>
  match match_number s with
  | Some (n, r) => Some (JNum n, r)
  | None =>
  match strip_prefix lit_NaN s with
  | Some r => Some (JNum lit_NaN, r)
  | None =>
  match strip_prefix lit_Infinity s with
  | Some r => Some (JNum lit_Infinity, r)
  | None =>
  match strip_prefix lit_minus_Infinity s with
  | Some r => Some (JNum lit_minus_Infinity, r)
  | None => None
  end end end end end end end.

(** [scan_once], [JSONObject] and [JSONArray].  The recursion of the
    decoder follows the nesting of the text; [fuel] bounds it (twice
    the length of the text is enough, see [json_loads]).  [None] is
    [JSONDecodeError].

    [JSONObject] starts just after the opening quote of a key and
    [JSONArray] at an element; both carry what was read so far.
    [dict(pairs)] is built as the pairs arrive: a repeated key keeps its
    first place and its last value. *)
Fixpoint scan_once (fuel : nat) (s : str) : option (json * str) :=
  match fuel with
  | O => None
  | S f =>
      match s with
      | [] => None
      | c :: r =>
          if c =? 34 then
            match scanstring r with
            | Some (v, r') => Some (JStr v, r')
            | None => None
            end
          else if c =? 123 then
            match skip_ws r with
            | c1 :: r1 =>
                if c1 =? 125 then Some (JObj [], r1)
                else if c1 =? 34 then JSONObject f r1 []
                else None
            | [] => None
            end
          else if c =? 91 then
            match skip_ws r with
            | c1 :: r1 =>
                if c1 =? 93 then Some (JArr [], r1)
                else JSONArray f (c1 :: r1) []
            | [] => None
            end
          else scan_atom s
      end
  end
with JSONObject (fuel : nat) (s : str) (pairs : list (str * json))
  : option (json * str) :=
  match fuel with
  | O => None
  | S f =>
      match scanstring s with
      | None => None
      | Some (key, s1) =>
          match skip_ws s1 with
          | c :: s2 =>
              if c =? 58 then
                match scan_once f (skip_ws s2) with
                | None => None
                | Some (value, s3) =>
                    let pairs' := dict_set str_eqb pairs key value in
                    match skip_ws s3 with
                    | c' :: s4 =>
                        if c' =? 125 then Some (JObj pairs', s4)
                        else if c' =? 44 then
                          match skip_ws s4 with
                          | q :: s5 =>
                              if q =? 34 then JSONObject f s5 pairs' else None
                          | [] => None
                          end
                        else None
                    | [] => None
                    end
                end
              else None
          | [] => None
          end
      end
  end
with JSONArray (fuel : nat) (s : str) (values : list json)
  : option (json * str) :=
  match fuel with
  | O => None
  | S f =>
      match scan_once f s with
      | None => None
      | Some (value, s1) =>
          let values' := values ++ [value] in
          match skip_ws s1 with
          | c :: s2 =>
              if c =? 93 then Some (JArr values', s2)
              else if c =? 44 then JSONArray f (skip_ws s2) values'
              else None
          | [] => None
          end
      end
  end.

(** [json.loads]: one document between optional whitespace; anything
    else is [JSONDecodeError].  Every call of the decoder spends one
    unit of fuel and at most two calls follow each other without a
    character being consumed, so twice the length of the text is fuel
    enough: more fuel never changes the result.

    Two failures of [json.loads] that are not [JSONDecodeError] are
    outside the model: [RecursionError], on a text that nests arrays
    and objects deeper than the recursion limit of the interpreter
    allows, and [ValueError], on an integer of more than 4300 digits
    (the limit of [int()]).  What is stated of texts that do not parse
    is stated within both limits. *)
Definition json_loads (content : str) : option json :=
  match scan_once (2 * List.length content + 2) (skip_ws content) with
  | Some (v, rest) =>
      match skip_ws rest with
      | [] => Some v
      | _ :: _ => None
      end
  | None => None
  end.

(** The tag cache a decoded document stands for: an object whose values
    are all strings. *)
Fixpoint as_tag_cache_members (ms : list (str * json)) : option tag_cache :=
  match ms with
  | [] => Some []
  | (k, JStr v) :: ms' =>
      match as_tag_cache_members ms' with
      | Some c => Some ((k, v) :: c)
      | None => None
      end
  | _ => None
  end.

Definition as_tag_cache (j : json) : option tag_cache :=
  match j with
  | JObj ms => as_tag_cache_members ms
  | _ => None
  end.

Definition json_of_cache (c : tag_cache) : json :=
  JObj (List.map (fun kv => (fst kv, JStr (snd kv))) c).

(* ================================================================== *)
(** ** The regular expression of the extractors

    [re.compile(r'component=([^/]+)/')]: the marker, a greedy run of one
    or more characters other than a slash (captured), and a slash. *)

Definition MARKER : str := Eval cbv in lit "component=".
Definition SLASH : char := 47.

(** Every way a run of non-slash characters (possibly empty) can match
    a prefix of [s], with what is left, the longest run first: the order
    in which a backtracking matcher tries a greedy repetition. *)
Fixpoint not_slash_runs (s : str) : list (str * str) :=
  match s with
  | c :: r =>
      if c =? SLASH then [([], s)]
      else List.map (fun mr => (c :: fst mr, snd mr)) (not_slash_runs r) ++ [([], s)]
  | [] => [([], [])]
  end.

(** The first alternative that is not empty and is followed by a slash. *)
Fixpoint first_before_slash (alts : list (str * str)) : option str :=
  match alts with
  | [] => None
  | (m, rest) :: alts' =>
      match m, rest with
      | _ :: _, c :: _ => if c =? SLASH then Some m else first_before_slash alts'
      | _, _ => first_before_slash alts'
      end
  end.

(** [pattern.match(s)]: group 1 of a match at the head of [s]. *)
Definition pattern_match (s : str) : option str :=
  match strip_prefix MARKER s with
  | Some r => first_before_slash (not_slash_runs r)
  | None => None
  end.

(** [pattern.search(s)]: group 1 of the leftmost match. *)
Fixpoint pattern_search (s : str) : option str :=
  match pattern_match s with
  | Some g => Some g
  | None =>
      match s with
      | [] => None
      | _ :: s' => pattern_search s'
      end
  end.

(* ================================================================== *)
(** ** Data *)

(** An application record: the dictionary with keys ['name'] and
    ['package'], to which [main] later adds ['tags']. *)
Record app := mk_app { name : str; package : str; tags : option str }.

(** A row of [SELECT title, intent FROM favorites]; the intent may be
    NULL. *)
Definition row := (str * option str)%type.

(** The launcher database as the extractors find it: no such file, a
    file on which connecting or querying raises, or the rows of the
    table. *)
Inductive database :=
| DbAbsent
| DbFails (e : pyclass)
| DbRows (rows : list row).

(** The cache file: absent, present with these bytes, or present but
    raising on [open]/[read]. *)
Inductive file_state :=
| Absent
| Holds (b : bytes)
| Unreadable (e : pyclass).

(** A component of an embedding: the bits of a double.  Nothing here
    computes with it. *)
Definition float64 := N.
Definition vector := list float64.

(** The key of a final group: the outlier bucket "独立应用/离群点", or
    "分组 N" for cluster label N. *)
Inductive group_name :=
| Outliers
| Group (cluster_id : Z).

Definition group_name_eqb (a b : group_name) : bool :=
  match a, b with
  | Outliers, Outliers => true
  | Group x, Group y => Z.eqb x y
  | _, _ => false
  end.

Definition grouped_result := list (group_name * list str).

(** The lines the programs print, one constructor per [print]. *)
Inductive message :=
| MsgExtracted (n : nat)               (* 成功从 ... 中提取了 n 个应用信息。 *)
| MsgCacheReadFailed (e : pyclass)     (* 警告：读取缓存文件 ... 失败 *)
| MsgCacheSaved                        (* 缓存已成功保存到 ... *)
| MsgCacheWriteFailed (e : pyclass)    (* 错误：无法将缓存写入文件 ... *)
| MsgGeminiConfigured                  (* Gemini 环境配置成功。 *)
| MsgApiCall (app_name : str)          (* [API 调用] 正在为 ... 生成功能标签 *)
| MsgLlmError (e : pyclass)            (* ! 调用LLM生成标签时出错 *)
| MsgEmbedding (head : str)            (* 正在为标签 text[:20] 生成向量 *)
| MsgEmbedError (e : pyclass)          (* ! 调用Embedding模型时出错 *)
| MsgError (e : pyclass)               (* print(e) in main *)
| MsgNoApps                            (* 数据库中没有找到有效的应用信息，程序终止。 *)
| MsgStart                             (* --- 开始处理应用列表 --- *)
| MsgProcessing (app_name package_name : str)  (* 处理应用: name (package) *)
| MsgCacheHit                          (* [缓存命中] 从缓存加载标签。 *)
| MsgTags (t : str)                    (* <-- 获得的标签: tags *)
| MsgSkipped                           (* ! 跳过此应用，因为它信息不足。 *)
| MsgVectorOk                          (* <-- 成功生成向量。 *)
| MsgNoVectors                         (* 错误：未能为任何应用生成向量，无法进行聚类。 *)
| MsgAllProcessed                      (* --- 所有应用处理完毕，开始进行向量聚类 --- *)
| MsgUsingDbscan                       (* 使用DBSCAN算法进行聚类 (eps=0.4, ...) *)
| MsgClustered                         (* --- 聚类完成！最终分类结果 --- *)
| MsgGroups (g : grouped_result)       (* json.dumps(final_groups, ...) *)
| MsgDbMissing                         (* 错误: 数据库文件 ... 不存在。 *)
| MsgResults                           (* 提取结果: and the rule under it *)
| MsgPackageLine (package_name app_name : str) (* package,name *)
| MsgDbFailed (e : pyclass).           (* 数据库操作失败 *)

(** What the program does to the outside, in the order it does it. *)
Inductive event :=
| Print (m : message)
| GenerateContent (app_name package_name : str)
| EmbedContent (text : str)
| WriteCache (chunks : list str)
| FitPredict (matrix : list vector).

Inductive llm_reply :=
| LlmText (text : option str)    (* response.text, None when the reply has no text *)
| LlmRaises (e : pyclass).

Inductive embed_reply :=
| Embedding (v : vector)         (* result['embedding'] *)
| EmbedRaises (e : pyclass).

Inductive write_reply :=
| WriteOk
| WriteFails (e : pyclass) (remains : file_state).

Inductive fit_reply :=
| Labels (clusters : list Z)
| FitRaises (e : pyclass).

(** The outside of one run.  The remote services and the disk may
    answer differently from call to call: they are given what has
    happened so far (newest event first). *)
Record env := {
  api_key : option str;                 (* GOOGLE_API_KEY after load_dotenv() *)
  db : database;                        (* launcher4x7.db *)
  generate_content : list event -> str -> str -> llm_reply;
  embed_content : list event -> str -> embed_reply;
  disk_write : list event -> write_reply;
  fit_predict : list vector -> fit_reply   (* np.array + DBSCAN(eps=0.4, min_samples=2, metric='cosine') *)
}.

(** What changes during a run: the trace (newest event first) and the
    cache file [CACHE_FILE = "app_tags_cache.json"]. *)
Record world := { trace : list event; cache_file : file_state }.

Definition start (f : file_state) : world := {| trace := []; cache_file := f |}.

(* ================================================================== *)
(** ** The monad of the program: state, exceptions *)

(** [Unmodelled]: the run left the typed fragment that is modelled (the
    cache file held JSON that is not an object of strings; the source
    uses whatever [json.loads] returned without a check). *)
Inductive result (A : Type) :=
| Ret (a : A)
| Raise (e : pyclass)
| Unmodelled.
Arguments Ret {A} a.
Arguments Raise {A} e.
Arguments Unmodelled {A}.

Definition M (A : Type) := world -> result A * world.

Definition ret {A} (a : A) : M A := fun w => (Ret a, w).
Definition raise {A} (e : pyclass) : M A := fun w => (Raise e, w).
Definition unmodelled {A} : M A := fun w => (Unmodelled, w).

Definition bind {A B} (m : M A) (k : A -> M B) : M B :=
  fun w =>
    match m w with
    | (Ret a, w') => k a w'
    | (Raise e, w') => (Raise e, w')
    | (Unmodelled, w') => (Unmodelled, w')
    end.

Declare Scope py_scope.
Delimit Scope py_scope with py.
Notation "x <- m ;; k" := (bind m (fun x => k))
  (at level 61, m at next level, right associativity) : py_scope.
Notation "m ;; k" := (bind m (fun _ => k))
  (at level 61, right associativity) : py_scope.
Local Open Scope py_scope.

Definition emit (e : event) : M unit :=
  fun w => (Ret tt, {| trace := e :: trace w; cache_file := cache_file w |}).

(** [print(...)] of one line.  The line is taken to reach the terminal:
    Python raises [UnicodeEncodeError] when the text of a line cannot be
    encoded for it, as a lone surrogate cannot for UTF-8, and that is
    outside the model.  Where a statement needs the text of its lines to
    be printable, it says so ([encodable], below). *)
Definition print (m : message) : M unit := emit (Print m).

(** [try: body  except classes as e: handler e] *)
Definition try_except {A} (body : M A) (classes : list pyclass)
    (handler : pyclass -> M A) : M A :=
  fun w =>
    match body w with
    | (Raise e, w') =>
        if caught_by classes e then handler e w' else (Raise e, w')
    | r => r
    end.

(* ================================================================== *)
(** ** [main.py] *)

(** The [for row in rows] loop of [extract_apps_from_db]. *)
Fixpoint collect_apps (rows : list row) (apps : list app) : list app :=
  match rows with
  | [] => apps
  | (app_name, intent_str) :: rest =>
      match intent_str with
      | None => collect_apps rest apps                       (* not intent_str *)
      | Some [] => collect_apps rest apps                    (* not intent_str *)
      | Some i =>
          if negb (contains MARKER i) then collect_apps rest apps
          else
            match pattern_search i with
            | Some package_name =>
                collect_apps rest (apps ++ [mk_app app_name package_name None])
            | None => collect_apps rest apps
            end
      end
  end.

(** [extract_apps_from_db(db_file)].  An [sqlite3.Error] of the
    connection or the query is raised again as a plain [sqlite3.Error];
    any other exception passes through. *)
Definition extract_apps_from_db (E : env) : M (list app) :=
  match db E with
  | DbAbsent => raise FileNotFoundError
  | DbFails e =>
      try_except (raise e) [Sqlite3Error] (fun _ => raise Sqlite3Error)
  | DbRows rows =>
      let apps := collect_apps rows [] in
      print (MsgExtracted (List.length apps)) ;;
      ret apps
  end.

(** [os.path.exists(CACHE_FILE)] *)
Definition cache_file_exists : M bool :=
  fun w => (Ret (match cache_file w with Absent => false | _ => true end), w).

(** [open(CACHE_FILE, 'r', encoding='utf-8')] and [f.read()].
    (Reading also turns CR and CRLF into LF; JSON treats the three
    alike, as blank space between tokens and as an error inside a
    string, so the translation is left out.) *)
Definition read_cache_file : M str :=
  fun w =>
    match cache_file w with
    | Absent => (Raise FileNotFoundError, w)
    | Unreadable e => (Raise e, w)
    | Holds b =>
        match utf8_decode b with
        | Some content => (Ret content, w)
        | None => (Raise UnicodeDecodeError, w)
        end
    end.

(** [load_cache()] *)
Definition load_cache : M json :=
  present <- cache_file_exists ;;
  if negb present then ret (JObj [])
  else
    try_except
      (content <- read_cache_file ;;
       match content with
       | [] => ret (JObj [])
       | _ :: _ =>
           match json_loads content with
           | Some v => ret v
           | None => raise JSONDecodeError
           end
       end)
      [OSError; JSONDecodeError]
      (fun e => print (MsgCacheReadFailed e) ;; ret (JObj [])).

(** [f.write(chunk)] for each chunk in turn, each encoded as it is
    written: the bytes that reached the file, and whether every chunk
    could be encoded. *)
Fixpoint write_chunks (chunks : list str) (written : bytes) : bytes * bool :=
  match chunks with
  | [] => (written, true)
  | c :: cs =>
      match utf8_encode c with
      | Some b => write_chunks cs (written ++ b)
      | None => (written, false)
      end
  end.

(** [with open(CACHE_FILE, 'w', encoding='utf-8') as f: json.dump(...)]:
    the disk refuses (and leaves the file as it says), or the file is
    emptied and the chunks are written until one cannot be encoded. *)
Definition write_cache_file (E : env) (chunks : list str) : M unit :=
  fun w =>
    let tr := WriteCache chunks :: trace w in
    match disk_write E (trace w) with
    | WriteFails e remains => (Raise e, {| trace := tr; cache_file := remains |})
    | WriteOk =>
        match write_chunks chunks [] with
        | (b, true) => (Ret tt, {| trace := tr; cache_file := Holds b |})
        | (b, false) =>
            (Raise UnicodeEncodeError, {| trace := tr; cache_file := Holds b |})
        end
    end.

(** [save_cache(cache_data)] *)
Definition save_cache (E : env) (cache_data : tag_cache) : M unit :=
  try_except
    (write_cache_file E (dump_chunks cache_data) ;;
     print MsgCacheSaved)
    [OSError]
    (fun e => print (MsgCacheWriteFailed e)).

(** [setup_gemini()] *)
Definition setup_gemini (E : env) : M unit :=
  match api_key E with
  | None => raise ValueError
  | Some [] => raise ValueError
  | Some (_ :: _) => print MsgGeminiConfigured
  end.

(** [client.models.generate_content(model=..., contents=prompt)]; the
    prompt is a fixed template around the two fields. *)
Definition call_generate_content (E : env) (app_name package_name : str)
  : M (option str) :=
  fun w =>
    let w' := {| trace := GenerateContent app_name package_name :: trace w;
                 cache_file := cache_file w |} in
    match generate_content E (trace w) app_name package_name with
    | LlmText t => (Ret t, w')
    | LlmRaises e => (Raise e, w')
    end.

(** [get_app_description(client, app_name, package_name)] *)
Definition get_app_description (E : env) (app_name package_name : str) : M str :=
  print (MsgApiCall app_name) ;;
  try_except
    (text <- call_generate_content E app_name package_name ;;
     match text with
     | None => raise AttributeError            (* None has no strip() *)
     | Some t =>
         match strip t with
         | [] => ret SENTINEL                  (* if not tags *)
         | _ :: _ => ret (strip t)
         end
     end)
    [Exception]
    (fun e => print (MsgLlmError e) ;; ret SENTINEL).

(** [client.models.embed_content(model=..., contents=text)] and
    [result['embedding']] *)
Definition call_embed_content (E : env) (text : str) : M vector :=
  fun w =>
    let w' := {| trace := EmbedContent text :: trace w;
                 cache_file := cache_file w |} in
    match embed_content E (trace w) text with
    | Embedding v => (Ret v, w')
    | EmbedRaises e => (Raise e, w')
    end.

(** [get_embedding(client, text)] *)
Definition get_embedding (E : env) (text : str) : M (option vector) :=
  print (MsgEmbedding (firstn 20 text)) ;;
  try_except
    (v <- call_embed_content E text ;; ret (Some v))
    [Exception]
    (fun e => print (MsgEmbedError e) ;; ret None).

(** The variables of the [for app in apps_to_process] loop. *)
Record loop_vars := mk_vars {
  app_tags_cache : tag_cache;
  processed_apps : list app;
  app_vectors : list vector
}.

(** Step 2 of the loop body: the tag from the cache, or from the
    classifier and then into the cache and onto the disk. *)
Definition lookup_or_classify (E : env) (a : app) (cache : tag_cache)
  : M (str * tag_cache) :=
  match cache_get cache (package a) with
  | Some t =>
      print MsgCacheHit ;;
      ret (t, cache)
  | None =>
      t <- get_app_description E (name a) (package a) ;;
      let cache' := cache_set cache (package a) t in
      save_cache E cache' ;;
      ret (t, cache')
  end.

(** One turn of the loop. *)
Definition loop_body (E : env) (a : app) (v : loop_vars) : M loop_vars :=
  print (MsgProcessing (name a) (package a)) ;;
  tc <- lookup_or_classify E a (app_tags_cache v) ;;
  print (MsgTags (fst tc)) ;;
  if str_eqb (fst tc) SENTINEL then
    print MsgSkipped ;;
    ret (mk_vars (snd tc) (processed_apps v) (app_vectors v))      (* continue *)
  else
    vec <- get_embedding E (fst tc) ;;
    match vec with
    | Some (x :: xs) =>                                             (* if vector *)
        print MsgVectorOk ;;
        ret (mk_vars (snd tc)
                     (processed_apps v ++ [mk_app (name a) (package a) (Some (fst tc))])
                     (app_vectors v ++ [x :: xs]))
    | _ => ret (mk_vars (snd tc) (processed_apps v) (app_vectors v))
    end.

Fixpoint main_loop (E : env) (apps_to_process : list app) (v : loop_vars)
  : M loop_vars :=
  match apps_to_process with
  | [] => ret v
  | a :: rest => v' <- loop_body E a v ;; main_loop E rest v'
  end.

(** [dbscan.fit_predict(np.array(app_vectors))] *)
Definition call_fit_predict (E : env) (matrix : list vector) : M (list Z) :=
  fun w =>
    let w' := {| trace := FitPredict matrix :: trace w;
                 cache_file := cache_file w |} in
    match fit_predict E matrix with
    | Labels l => (Ret l, w')
    | FitRaises e => (Raise e, w')
    end.

(** The [for i, app_info in enumerate(processed_apps)] loop. *)
Fixpoint group_apps (i : nat) (apps : list app) (clusters : list Z)
    (final_groups : grouped_result) : M grouped_result :=
  match apps with
  | [] => ret final_groups
  | app_info :: rest =>
      match nth_error clusters i with
      | None => raise IndexError
      | Some cluster_id =>
          let group := if Z.eqb cluster_id (-1) then Outliers else Group cluster_id in
          let members := match dict_get group_name_eqb final_groups group with
                         | Some l => l
                         | None => []
                         end in
          group_apps (S i) rest clusters
            (dict_set group_name_eqb final_groups group (members ++ [name app_info]))
      end
  end.

(** Lines 271-303: the clustering stage.  [np.array(app_vectors)]
    (line 279) and [dbscan.fit_predict] (line 285) are the one oracle
    [fit_predict], asked where [fit_predict] is called; in the source
    [np.array] runs before the line of line 283 is printed, so that,
    when it is [np.array] that raises, that line is not printed. *)
Definition cluster_stage (E : env) (v : loop_vars) : M unit :=
  match app_vectors v with
  | [] => print MsgNoVectors                                        (* return *)
  | _ :: _ =>
      print MsgAllProcessed ;;
      print MsgUsingDbscan ;;
      clusters <- call_fit_predict E (app_vectors v) ;;
      print MsgClustered ;;
      final_groups <- group_apps 0 (processed_apps v) clusters [] ;;
      print (MsgGroups final_groups)
  end.

(** [main()] *)
Definition main (E : env) : M unit :=
  configured <- try_except (setup_gemini E ;; ret true) [ValueError]
                  (fun e => print (MsgError e) ;; ret false) ;;
  if negb configured then ret tt                                    (* return *)
  else
    extracted <- try_except (apps <- extract_apps_from_db E ;; ret (Some apps))
                   [FileNotFoundError; Sqlite3Error]
                   (fun e => print (MsgError e) ;; ret None) ;;
    match extracted with
    | None => ret tt                                                (* return *)
    | Some [] => print MsgNoApps                                    (* return *)
    | Some (a :: rest) =>
        print MsgStart ;;
        loaded <- load_cache ;;
        match as_tag_cache loaded with
        | None => unmodelled
        | Some cache =>
            v <- main_loop E (a :: rest) (mk_vars cache [] []) ;;
            cluster_stage E v
        end
    end.

(** [if __name__ == "__main__": main()]: the exit status of the
    process, 0 when [main] returns and 1 when an exception leaves it. *)
Definition exit_status (E : env) (f : file_state) : option Z :=
  match fst (main E (start f)) with
  | Ret _ => Some 0%Z
  | Raise _ => Some 1%Z
  | Unmodelled => None
  end.

(** What a run printed, oldest line first. *)
Definition printed (w : world) : list message :=
  flat_map (fun e => match e with Print m => [m] | _ => [] end) (rev (trace w)).

(* ================================================================== *)
(** ** [extract_launcher_data.py] *)

(** The [for row in rows] loop of [extract_package_info]: a line
    "package,name" per row that matches. *)
Fixpoint print_packages (rows : list row) : M unit :=
  match rows with
  | [] => ret tt
  | (app_name, intent_str) :: rest =>
      match intent_str with
      | None => print_packages rest
      | Some [] => print_packages rest
      | Some i =>
          match pattern_search i with
          | Some package_name =>
              print (MsgPackageLine package_name app_name) ;;
              print_packages rest
          | None => print_packages rest
          end
      end
  end.

(** [extract_package_info(db_file)] *)
Definition extract_package_info (E : env) : M unit :=
  match db E with
  | DbAbsent => print MsgDbMissing
  | DbFails e =>
      try_except (raise e) [Sqlite3Error] (fun e' => print (MsgDbFailed e'))
  | DbRows rows =>
      print MsgResults ;;
      print_packages rows
  end.

Unset Implicit Arguments.

(* ================================================================== *)
(** ** Vocabulary of the statements *)

(** The world once a line has been printed. *)
Definition printing (m : message) (w : world) : world :=
  {| trace := Print m :: trace w; cache_file := cache_file w |}.

(** The world when [main] is about to load the cache: three lines
    printed (newest first), the cache file untouched. *)
Definition ready (f : file_state) (n_apps : nat) : world :=
  {| trace := [Print MsgStart; Print (MsgExtracted n_apps); Print MsgGeminiConfigured];
     cache_file := f |}.

(** Steps 2b and 3 of the loop body, once the tag is known: what
    [loop_body] does after [lookup_or_classify]. *)
Definition after_tags (E : env) (a : app) (v : loop_vars) (tc : str * tag_cache)
  : M loop_vars :=
  print (MsgTags (fst tc)) ;;
  if str_eqb (fst tc) SENTINEL then
    print MsgSkipped ;;
    ret (mk_vars (snd tc) (processed_apps v) (app_vectors v))
  else
    vec <- get_embedding E (fst tc) ;;
    match vec with
    | Some (x :: xs) =>
        print MsgVectorOk ;;
        ret (mk_vars (snd tc)
                     (processed_apps v ++ [mk_app (name a) (package a) (Some (fst tc))])
                     (app_vectors v ++ [x :: xs]))
    | _ => ret (mk_vars (snd tc) (processed_apps v) (app_vectors v))
    end.

Definition is_groups (m : message) : bool :=
  match m with MsgGroups _ => true | _ => false end.

Definition is_print (e : event) : Prop :=
  match e with Print _ => True | _ => False end.

Definition is_generate (e : event) : Prop :=
  match e with GenerateContent _ _ => True | _ => False end.

Definition is_classify (p : str) (e : event) : bool :=
  match e with
  | GenerateContent _ q => str_eqb q p
  | _ => false
  end.

(** How many times the classifier was called for package [p]. *)
Definition classified (p : str) (tr : list event) : nat :=
  List.length (filter (is_classify p) tr).

(** [m] only adds events that satisfy [P] to the trace. *)
Definition emits {A : Type} (P : event -> Prop) (m : M A) : Prop :=
  forall w, exists new, trace (snd (m w)) = new ++ trace w /\ Forall P new.

(** No clustering call and no final groups. *)
Definition quiet (e : event) : Prop :=
  match e with
  | FitPredict _ => False
  | Print (MsgGroups _) => False
  | _ => True
  end.

(** [n] is listed in some group of [g]. *)
Definition grouped (g : grouped_result) (n : str) : Prop :=
  exists gn names, In (gn, names) g /\ In n names.

(** The rows that pass the filter of the extractors: an intent that is
    neither NULL nor empty and holds the marker. *)
Definition row_kept (r : row) : bool :=
  match snd r with
  | Some (c :: i) => contains MARKER (c :: i)
  | _ => false
  end.

(** A dictionary has no key twice. *)
Definition well_formed (d : tag_cache) : Prop := NoDup (dict_keys d).

(** The text [json.dump] writes for the items, from just after the
    opening quote of the first key to the closing brace. *)
Definition items_text (k v : str) (items : tag_cache) (tail : str) : str :=
  flat_map escape_char k ++ 34 :: 58 :: 32 :: 34 ::
  flat_map escape_char v ++ 34 :: List.concat (item_chunks false items) ++ 10 :: 125 :: tail.

Definition add_pair (d : list (str * json)) (kv : str * str) : list (str * json) :=
  dict_set str_eqb d (fst kv) (JStr (snd kv)).

(** The conditions under which [main] gives up, each with the line it
    prints last: no credential; no database file; a failing connection
    or query; no application extracted; no vector at the end of the
    loop. *)
Inductive fatal_condition (E : env) (f : file_state) : message -> Prop :=
| missing_credential :
    api_key E = None \/ api_key E = Some [] ->
    fatal_condition E f (MsgError ValueError)
| missing_data_source c0 k :
    api_key E = Some (c0 :: k) -> db E = DbAbsent ->
    fatal_condition E f (MsgError FileNotFoundError)
| query_failure c0 k e :
    api_key E = Some (c0 :: k) -> db E = DbFails e ->
    issubclass e Sqlite3Error = true ->
    fatal_condition E f (MsgError Sqlite3Error)
| no_applications c0 k rows :
    api_key E = Some (c0 :: k) -> db E = DbRows rows ->
    collect_apps rows [] = [] ->
    fatal_condition E f MsgNoApps
| no_vectors c0 k rows a rest loaded cache v w1 w2 :
    api_key E = Some (c0 :: k) -> db E = DbRows rows ->
    collect_apps rows [] = a :: rest ->
    load_cache (ready f (List.length (a :: rest))) = (Ret loaded, w1) ->
    as_tag_cache loaded = Some cache ->
    main_loop E (a :: rest) (mk_vars cache [] []) w1 = (Ret v, w2) ->
    app_vectors v = [] ->
    fatal_condition E f MsgNoVectors.


(** How many characters of a text open an array or an object: no text
    nests deeper. *)
Definition openers (s : str) : nat :=
  List.length (filter (fun c => (c =? 91) || (c =? 123)) s).

(** The longest run of digits in a text. *)
Fixpoint longest_digit_run_from (run : nat) (s : str) : nat :=
  match s with
  | [] => run
  | c :: s' =>
      if is_digit c then longest_digit_run_from (S run) s'
      else Nat.max run (longest_digit_run_from 0 s')
  end.

Definition longest_digit_run (s : str) : nat := longest_digit_run_from 0 s.

(** A nesting depth far below the recursion limit of the interpreter
    (1000 frames by default), and the longest integer [int()] converts
    ([sys.int_info.default_max_str_digits]). *)
Definition MAX_NESTING : nat := 100.
Definition INT_MAX_STR_DIGITS : nat := 4300.

(* ================================================================== *)

(** ** Sample data

    The rows of [create_dummy_db] (title and intent), and a few
    environments. *)

Definition folder_title : str :=
  Eval cbv in lit "com.miui.home:string/new_default_folder_title_tools".
Definition shop_title : str := [23567; 31859; 21830; 22478].      (* 小米商城 *)
Definition video_title : str := [23567; 31859; 35270; 39057].     (* 小米视频 *)
Definition intent_head : str :=
  Eval cbv in lit "#Intent;action=android.intent.action.MAIN;category=android.intent.category.LAUNCHER;launchFlags=0x10200000;".
Definition shop_package : str := Eval cbv in lit "com.xiaomi.shop".
Definition shop_activity : str := Eval cbv in lit ".activity.MainTabActivity;end".
Definition video_package : str := Eval cbv in lit "com.miui.video".
Definition video_activity : str := Eval cbv in lit ".Launcher1;end".

Definition dummy_rows : list row :=
  [ (folder_title, None);
    (shop_title, Some (intent_head ++ MARKER ++ shop_package ++ SLASH :: shop_activity));
    (video_title, Some (intent_head ++ MARKER ++ video_package ++ SLASH :: video_activity)) ].

Definition shop_app : app := mk_app shop_title shop_package None.
Definition video_app : app := mk_app video_title video_package None.

Definition shop_tags : str := [36141; 29289; 44; 30005; 21830].   (* 购物,电商 *)

(** A classifier that knows the shop, fails on the video player and
    answers anything else with blank space. *)
Definition sample_llm (_ : list event) (_ package_name : str) : llm_reply :=
  if str_eqb package_name shop_package
  then LlmText (Some ([32] ++ shop_tags ++ [10]))
  else if str_eqb package_name video_package
  then LlmRaises RemoteAPIError
  else LlmText (Some [32; 10; 12288]).

Definition all_outliers (matrix : list vector) : fit_reply :=
  Labels (List.map (fun _ => (-1)%Z) matrix).

Definition sample_env : env :=
  {| api_key := Some [107];
     db := DbRows dummy_rows;
     generate_content := sample_llm;
     embed_content := fun _ _ => Embedding [1; 2];
     disk_write := fun _ => WriteOk;
     fit_predict := all_outliers |}.

(** The same, on a disk that refuses every write. *)
Definition full_disk_env : env :=
  {| api_key := Some [107];
     db := DbRows dummy_rows;
     generate_content := sample_llm;
     embed_content := fun _ _ => Embedding [1; 2];
     disk_write := fun _ => WriteFails OSError Absent;
     fit_predict := all_outliers |}.

(** The same, with a classifier that always fails. *)
Definition silent_env : env :=
  {| api_key := Some [107];
     db := DbRows dummy_rows;
     generate_content := fun _ _ _ => LlmRaises RemoteAPIError;
     embed_content := fun _ _ => Embedding [1; 2];
     disk_write := fun _ => WriteOk;
     fit_predict := all_outliers |}.

(** No credential. *)
Definition no_key_env : env :=
  {| api_key := None;
     db := DbRows dummy_rows;
     generate_content := sample_llm;
     embed_content := fun _ _ => Embedding [1; 2];
     disk_write := fun _ => WriteOk;
     fit_predict := all_outliers |}.

(** Two shortcuts with the same title and different packages; the
    classifier has nothing to say about the first. *)
Definition twin_title : str := Eval cbv in lit "Notes".
Definition twin_a : str := Eval cbv in lit "com.a.notes".
Definition twin_b : str := Eval cbv in lit "com.b.notes".
Definition twin_tags : str := Eval cbv in lit "notes,office".

Definition twin_env : env :=
  {| api_key := Some [107];
     db := DbRows [ (twin_title, Some (MARKER ++ twin_a ++ SLASH :: []));
                    (twin_title, Some (MARKER ++ twin_b ++ SLASH :: [])) ];
     generate_content := fun _ _ p =>
       if str_eqb p twin_a then LlmText (Some SENTINEL) else LlmText (Some twin_tags);
     embed_content := fun _ _ => Embedding [1; 2];
     disk_write := fun _ => WriteOk;
     fit_predict := all_outliers |}.


(** A cache file cut short in the middle of a character: an opening
    brace, the key a, a colon, a space, an opening quote, and the first
    two bytes (E4 BF) of the three of U+4FE1. *)
Definition truncated_cache : bytes := [123; 34; 97; 34; 58; 32; 34; 228; 191].

(** An intent with two components. *)
Definition two_components : str :=
  Eval cbv in lit "#Intent;component=com.one/.Main;S.alt=component=com.two/.Other;end".

(** What the loop leaves behind in the sample runs. *)
Definition vars_of (r : result loop_vars * world) : loop_vars :=
  match fst r with
  | Ret v => v
  | _ => mk_vars [] [] []
  end.

Definition sample_vars : loop_vars :=
  Eval vm_compute in
    vars_of (main_loop sample_env [shop_app; video_app] (mk_vars [] [] []) (ready Absent 2)).
Definition sample_world : world :=
  Eval vm_compute in
    snd (main_loop sample_env [shop_app; video_app] (mk_vars [] [] []) (ready Absent 2)).
Definition silent_vars : loop_vars :=
  Eval vm_compute in
    vars_of (main_loop silent_env [shop_app; video_app] (mk_vars [] [] []) (ready Absent 2)).
Definition silent_world : world :=
  Eval vm_compute in
    snd (main_loop silent_env [shop_app; video_app] (mk_vars [] [] []) (ready Absent 2)).
Definition saved_world : world :=
  Eval vm_compute in
    snd (save_cache sample_env [(shop_package, shop_tags); (video_package, SENTINEL)]
           (start Absent)).

(* ================================================================== *)
(** ** [extract_launcher_data.py]: the demonstration database

    [create_dummy_db] and the entry point of the script.  The sqlite3
    library is an oracle for what depends on the machine (whether the
    connection opens, whether a statement runs); what Python does before
    the library is asked is written out: the values of a tuple are bound
    to the placeholders of the statement one for one, and a tuple of
    another size raises [sqlite3.ProgrammingError]. *)

(** A value bound to a placeholder. *)
Inductive sql_value :=
| SqlNull
| SqlInteger (z : Z)
| SqlText (s : str).

Definition favorites_table := list (list sql_value).

Definition launch_count_folder : str :=
  Eval cbv in lit "14,13,8,1,6,6,9,17,30,24,26,23,33,20,22,28,15,27,21,35,32,26,25,28".
Definition launch_count_shop : str :=
  Eval cbv in lit "0,1,0,0,0,0,0,0,3,0,1,0,0,0,0,0,0,1,0,0,0,0,0,0".
Definition launch_count_video : str :=
  Eval cbv in lit "0,0,0,0,0,0,0,0,0,0,2,0,0,0,1,0,0,0,0,0,0,0,0,1".

(** [data], value for value. *)
Definition data : list (list sql_value) :=
  [ [ SqlInteger 1; SqlText folder_title; SqlNull; SqlInteger (-100); SqlInteger 2;
      SqlInteger 0; SqlInteger 0; SqlInteger 1; SqlInteger 1; SqlInteger 2;
      SqlInteger (-1); SqlNull; SqlNull; SqlNull; SqlNull; SqlNull; SqlNull; SqlNull;
      SqlText launch_count_folder; SqlInteger 0; SqlInteger 0; SqlText folder_title;
      SqlNull; SqlInteger (-1); SqlNull ];
    [ SqlInteger 6; SqlText shop_title;
      SqlText (intent_head ++ MARKER ++ shop_package ++ SLASH :: shop_activity);
      SqlInteger 327; SqlInteger (-1);
      SqlInteger 4; SqlInteger 3; SqlInteger 1; SqlInteger 1; SqlInteger 0;
      SqlInteger (-1); SqlNull; SqlNull; SqlText shop_package; SqlNull; SqlNull; SqlNull;
      SqlNull; SqlText launch_count_shop; SqlInteger 0; SqlInteger 0; SqlText shop_title;
      SqlNull; SqlInteger (-1); SqlNull ];
    [ SqlInteger 7; SqlText video_title;
      SqlText (intent_head ++ MARKER ++ video_package ++ SLASH :: video_activity);
      SqlInteger 325; SqlInteger (-1);
      SqlInteger 6; SqlInteger 0; SqlInteger 1; SqlInteger 1; SqlInteger 0;
      SqlInteger (-1); SqlNull; SqlNull; SqlText video_package; SqlNull; SqlNull; SqlNull;
      SqlNull; SqlText launch_count_video; SqlInteger 0; SqlInteger 0; SqlText video_title;
      SqlNull; SqlInteger (-1); SqlNull ] ].

(** The statement of [cursor.executemany]. *)
Definition INSERT_SQL : str :=
  Eval cbv in lit "INSERT INTO favorites VALUES (?,?,?,?,?,?,?,?,?,?,?,?,?,?,?,?,?,?,?,?,?,?,?,?,?,?)".

(** The placeholders of a statement: its question marks (the statement
    above has no string literal that could hold one). *)
Definition placeholders (sql : str) : nat :=
  List.length (filter (fun c => c =? 63) sql).

(** The exceptions of the script: one the sqlite3 library raised while
    at work on the file (a class of the table of exceptions),
    [sqlite3.ProgrammingError] (an [sqlite3.Error]) of a tuple that does
    not fit the statement, and [UnboundLocalError] (a [NameError]). *)
Inductive script_exception :=
| Raised (e : pyclass)
| ProgrammingError
| UnboundLocalError.

(** [except sqlite3.Error] catches it. *)
Definition is_sqlite3_error (e : script_exception) : bool :=
  match e with
  | Raised c => issubclass c Sqlite3Error
  | ProgrammingError => true
  | UnboundLocalError => false
  end.

(** The sqlite3 library on the new file: for each call, the exception
    it raises, if it raises one. *)
Record sqlite3 := {
  connect : option pyclass;          (* sqlite3.connect(db_file) *)
  execute_create : option pyclass;   (* cursor.execute('CREATE TABLE IF NOT EXISTS favorites ...') *)
  step_insert : favorites_table -> list sql_value -> option pyclass;
                                     (* one INSERT, its values bound, on the rows stored so far *)
  commit : option pyclass            (* conn.commit() *)
}.

(** [cursor.executemany(sql, seq_of_parameters)]: for each tuple in
    turn, the values are bound ([ProgrammingError] unless there are as
    many as placeholders) and the statement is run.  The rows are
    pending until a commit. *)
Fixpoint executemany (S : sqlite3) (sql : str) (seq_of_parameters : list (list sql_value))
    (pending : favorites_table) : script_exception + favorites_table :=
  match seq_of_parameters with
  | [] => inr pending
  | parameters :: rest =>
      if negb (Nat.eqb (List.length parameters) (placeholders sql))
      then inl ProgrammingError
      else
        match step_insert S pending parameters with
        | Some e => inl (Raised e)
        | None => executemany S sql rest (pending ++ [parameters])
        end
  end.

(** [SELECT title, intent] of one stored tuple, as a [row] (whose title
    is text, as the titles of [data] are). *)
Definition title_intent (t : list sql_value) : list row :=
  match t with
  | _ :: SqlText title :: SqlText intent :: _ => [(title, Some intent)]
  | _ :: SqlText title :: SqlNull :: _ => [(title, None)]
  | _ => []
  end.

(** The lines [create_dummy_db] prints. *)
Inductive creation_message :=
| MsgDbExists                              (* 数据库文件 ... 已存在，将直接使用现有文件。 *)
| MsgCreatingDb                            (* 正在创建虚拟数据库 ... 用于演示... *)
| MsgCreateFailed (e : script_exception).  (* 创建数据库时出错: e *)

(** How [create_dummy_db] ends: it returns, and the file is then what
    the extractors find, or an exception leaves it. *)
Inductive creation_result :=
| Returns (db_after : database)
| Escapes (e : script_exception).

(** The body of the [try] once the connection is open: the committed
    table, or the exception and what the file holds when the connection
    is closed without a commit (no table, if the table could not be
    created: the query of the extractors then raises
    [sqlite3.OperationalError]; the table without the pending rows
    otherwise). *)
Definition fill_dummy_db (S : sqlite3) : script_exception * database + favorites_table :=
  match execute_create S with
  | Some e => inl (Raised e, DbFails Sqlite3OperationalError)
  | None =>
      match executemany S INSERT_SQL data [] with
      | inl e => inl (e, DbRows [])
      | inr pending =>
          match commit S with
          | Some e => inl (Raised e, DbRows [])
          | None => inr pending
          end
      end
  end.

(** [create_dummy_db(db_file)]: the lines printed, oldest first, and how
    it ends.  When [sqlite3.connect] raises, [conn] is never bound and
    the test [if conn] of the [finally] clause raises
    [UnboundLocalError], whatever the [except] clause did before. *)
Definition create_dummy_db (S : sqlite3) (d : database)
  : list creation_message * creation_result :=
  match d with
  | DbAbsent =>
      match connect S with
      | Some e =>
          (MsgCreatingDb ::
             (if is_sqlite3_error (Raised e) then [MsgCreateFailed (Raised e)] else []),
           Escapes UnboundLocalError)
      | None =>
          match fill_dummy_db S with
          | inr committed =>
              ([MsgCreatingDb], Returns (DbRows (flat_map title_intent committed)))
          | inl (e, left_behind) =>
              if is_sqlite3_error e
              then ([MsgCreatingDb; MsgCreateFailed e], Returns left_behind)
              else ([MsgCreatingDb], Escapes e)
          end
      end
  | _ => ([MsgDbExists], Returns d)                  (* os.path.exists(db_file) *)
  end.

(** The environment with another database file. *)
Definition with_db (E : env) (d : database) : env :=
  {| api_key := api_key E;
     db := d;
     generate_content := generate_content E;
     embed_content := embed_content E;
     disk_write := disk_write E;
     fit_predict := fit_predict E |}.

(** How the script ends: [extract_package_info] ran, or the exception
    of [create_dummy_db] ended the script before. *)
Inductive script_result :=
| Extracted (r : result unit * world)
| Crashed (e : script_exception).

(** [if __name__ == "__main__":] of [extract_launcher_data.py]:
    [create_dummy_db(db_filename)], then
    [extract_package_info(db_filename)] on what it left. *)
Definition launcher_script (S : sqlite3) (E : env) (w : world)
  : list creation_message * script_result :=
  match create_dummy_db S (db E) with
  | (lines, Returns d) => (lines, Extracted (extract_package_info (with_db E d) w))
  | (lines, Escapes e) => (lines, Crashed e)
  end.

(** A library on which every call succeeds. *)
Definition healthy_sqlite3 : sqlite3 :=
  {| connect := None;
     execute_create := None;
     step_insert := fun _ _ => None;
     commit := None |}.

(** Not a line "package,name". *)
Definition no_package_line (e : event) : Prop :=
  match e with
  | Print (MsgPackageLine _ _) => False
  | _ => True
  end.

(** What a row contributes to the extraction: a record with its title
    and the package the pattern finds in its intent, if it finds one. *)
Definition record_of_row (r : row) : list app :=
  match snd r with
  | Some i =>
      match pattern_search i with
      | Some package_name => [mk_app (fst r) package_name None]
      | None => []
      end
  | None => []
  end.

(** The line [extract_package_info] prints for a record. *)
Definition package_line (a : app) : event :=
  Print (MsgPackageLine (package a) (name a)).


(** Neither a call of the classifier nor a write of the cache file. *)
Definition no_classify_no_write (e : event) : Prop :=
  match e with
  | GenerateContent _ _ => False
  | WriteCache _ => False
  | _ => True
  end.

(** How many times the classifier was called, and how many times the
    cache file was written. *)
Definition classifier_calls (tr : list event) : nat :=
  List.length (filter (fun e => match e with GenerateContent _ _ => true | _ => false end) tr).

Definition cache_writes (tr : list event) : nat :=
  List.length (filter (fun e => match e with WriteCache _ => true | _ => false end) tr).


(** The group of a cluster label: the outlier bucket for -1. *)
Definition group_of (cluster_id : Z) : group_name :=
  if Z.eqb cluster_id (-1) then Outliers else Group cluster_id.

(** The members of a group in a grouped result, none if it has no such
    group. *)
Definition members_of (g : grouped_result) (gn : group_name) : list str :=
  match dict_get group_name_eqb g gn with
  | Some l => l
  | None => []
  end.

(** The names of the applications whose label falls into a group, in
    the order of the applications. *)
Definition labelled (gn : group_name) (apps : list app) (clusters : list Z) : list str :=
  List.map (fun ac => name (fst ac))
    (filter (fun ac => group_name_eqb (group_of (snd ac)) gn) (combine apps clusters)).

Definition all_names (g : grouped_result) : list str := List.concat (List.map snd g).

(** The sample environment with a clustering library that raises. *)
Definition no_clustering_env : env :=
  {| api_key := Some [107];
     db := DbRows dummy_rows;
     generate_content := sample_llm;
     embed_content := fun _ _ => Embedding [1; 2];
     disk_write := fun _ => WriteOk;
     fit_predict := fun _ => FitRaises ValueError |}.



(* ================================================================== *)
(** * Properties *)

(** ** Text and dictionaries *)

Lemma str_eqb_eq (a b : str) : str_eqb a b = true <-> a = b.
Proof.
  revert b; induction a as [|x a IH]; intros [|y b]; simpl; split;
    try congruence; try reflexivity.
  - intros H. apply andb_true_iff in H as [Hx Hr].
    apply N.eqb_eq in Hx. apply IH in Hr. congruence.
  - intros H. injection H as -> ->. rewrite N.eqb_refl. simpl. now apply IH.
Qed.

Lemma str_eqb_refl (a : str) : str_eqb a a = true.
Proof. now apply str_eqb_eq. Qed.

Lemma str_eqb_neq (a b : str) : str_eqb a b = false <-> a <> b.
Proof.
  split.
  - intros H Heq. apply str_eqb_eq in Heq. congruence.
  - intros H. destruct (str_eqb a b) eqn:Hab; [|reflexivity].
    apply str_eqb_eq in Hab. contradiction.
Qed.

Lemma strip_prefix_app (p s : str) : strip_prefix p (p ++ s) = Some s.
Proof.
  induction p as [|x p IH]; simpl; [reflexivity|].
  now rewrite N.eqb_refl.
Qed.

Lemma startswith_app (p s : str) : startswith p (p ++ s) = true.
Proof. unfold startswith. now rewrite strip_prefix_app. Qed.

Lemma contains_startswith (sub s : str) :
  startswith sub s = true -> contains sub s = true.
Proof. intros H. destruct s; cbn [contains]; rewrite H; reflexivity. Qed.

Lemma contains_app (sub pre post : str) : contains sub (pre ++ sub ++ post) = true.
Proof.
  induction pre as [|c pre IH].
  - cbn [List.app]. apply contains_startswith, startswith_app.
  - cbn [List.app contains]. rewrite IH. apply orb_true_r.
Qed.

Lemma cache_get_set_same (d : tag_cache) (k v : str) :
  cache_get (cache_set d k v) k = Some v.
Proof.
  unfold cache_get, cache_set.
  induction d as [|[k' v'] d IH]; simpl.
  - now rewrite str_eqb_refl.
  - destruct (str_eqb k' k) eqn:Hk; simpl; rewrite Hk; [reflexivity | exact IH].
Qed.

Lemma cache_get_set_other (d : tag_cache) (k k' v : str) :
  k <> k' -> cache_get (cache_set d k v) k' = cache_get d k'.
Proof.
  intros Hne. unfold cache_get, cache_set.
  induction d as [|[k0 v0] d IH]; simpl.
  - apply str_eqb_neq in Hne. now rewrite Hne.
  - destruct (str_eqb k0 k) eqn:Hk; simpl.
    + apply str_eqb_eq in Hk. subst k0.
      apply str_eqb_neq in Hne. now rewrite Hne.
    + destruct (str_eqb k0 k'); [reflexivity | exact IH].
Qed.

(** A key that is present keeps its value when another key is set; a
    key is only ever added by [cache_set] when it was absent. *)
Lemma cache_set_keeps (d : tag_cache) (k v p t : str) :
  cache_get d k = None -> cache_get d p = Some t ->
  cache_get (cache_set d k v) p = Some t.
Proof.
  intros Hk Hp. rewrite cache_get_set_other; [exact Hp|].
  intros ->. congruence.
Qed.

Lemma cache_set_absent (d : tag_cache) (k v : str) :
  cache_get d k = None -> cache_set d k v = d ++ [(k, v)].
Proof.
  unfold cache_get, cache_set.
  induction d as [|[k' v'] d IH]; simpl; [reflexivity|].
  destruct (str_eqb k' k); [discriminate|].
  intros H. now rewrite IH.
Qed.

Lemma issubclass_Exception (e : pyclass) : issubclass e Exception = true.
Proof. destruct e; reflexivity. Qed.

Lemma caught_by_Exception (e : pyclass) : caught_by [Exception] e = true.
Proof. unfold caught_by. simpl. now rewrite issubclass_Exception. Qed.

(** ** The regular expression *)

Lemma not_slash_runs_head (X post : str) :
  ~ In SLASH X ->
  exists tl, not_slash_runs (X ++ SLASH :: post) = (X, SLASH :: post) :: tl.
Proof.
  induction X as [|c X IH]; intros Hno; simpl.
  - exists []. reflexivity.
  - destruct (c =? SLASH) eqn:Hc.
    + apply N.eqb_eq in Hc. exfalso. apply Hno. now left.
    + destruct IH as [tl Htl]; [intros H; apply Hno; now right|].
      rewrite Htl. simpl. eexists. reflexivity.
Qed.

Lemma pattern_match_here (X post : str) :
  X <> [] -> ~ In SLASH X ->
  pattern_match (MARKER ++ X ++ SLASH :: post) = Some X.
Proof.
  intros Hne Hno. unfold pattern_match. rewrite strip_prefix_app.
  destruct (not_slash_runs_head X post Hno) as [tl ->].
  destruct X; [contradiction|]. reflexivity.
Qed.

Lemma pattern_match_needs_marker (s : str) :
  startswith MARKER s = false -> pattern_match s = None.
Proof.
  unfold startswith, pattern_match.
  destruct (strip_prefix MARKER s); [discriminate | reflexivity].
Qed.

Lemma pattern_search_here (s g : str) :
  pattern_match s = Some g -> pattern_search s = Some g.
Proof. intros H. destruct s; cbn [pattern_search]; now rewrite H. Qed.

(** The search finds the pattern at the first place where the marker
    occurs, when a non-empty slash-free run and a slash follow it there. *)
Lemma pattern_search_first_marker (pre X post : str) :
  X <> [] -> ~ In SLASH X ->
  (forall i, (i < List.length pre)%nat ->
             startswith MARKER (skipn i (pre ++ MARKER ++ X ++ SLASH :: post)) = false) ->
  pattern_search (pre ++ MARKER ++ X ++ SLASH :: post) = Some X.
Proof.
  intros Hne Hno. induction pre as [|c pre IH]; intros Hfirst.
  - apply pattern_search_here. now apply pattern_match_here.
  - change ((c :: pre) ++ MARKER ++ X ++ SLASH :: post)
      with (c :: (pre ++ MARKER ++ X ++ SLASH :: post)).
    cbn [pattern_search].
    rewrite pattern_match_needs_marker.
    + apply IH. intros i Hi. apply (Hfirst (S i)). simpl. lia.
    + apply (Hfirst 0%nat). simpl. lia.
Qed.

Lemma pattern_match_marker (s g : str) :
  pattern_match s = Some g -> startswith MARKER s = true.
Proof.
  unfold pattern_match, startswith.
  destruct (strip_prefix MARKER s); [reflexivity | discriminate].
Qed.

Lemma pattern_search_contains (s g : str) :
  pattern_search s = Some g -> contains MARKER s = true.
Proof.
  induction s as [|c s IH]; cbn [pattern_search].
  - destruct (pattern_match []) eqn:Hm; [|discriminate].
    intros _. apply contains_startswith. exact (pattern_match_marker _ _ Hm).
  - destruct (pattern_match (c :: s)) eqn:Hm.
    + intros _. apply contains_startswith. exact (pattern_match_marker _ _ Hm).
    + intros H. cbn [contains]. rewrite (IH H). apply orb_true_r.
Qed.

(** ** The extractors *)

Lemma collect_apps_acc (rows : list row) (acc : list app) :
  collect_apps rows acc = acc ++ collect_apps rows [].
Proof.
  revert acc. induction rows as [|[n i] rows IH]; intros acc; cbn [collect_apps].
  - now rewrite app_nil_r.
  - destruct i as [[|c i]|]; try apply IH.
    destruct (negb (contains MARKER (c :: i))); [apply IH|].
    destruct (pattern_search (c :: i)); [|apply IH].
    rewrite IH, (IH ([] ++ _)). cbn [List.app]. now rewrite <- app_assoc.
Qed.

Lemma collect_apps_filter (rows : list row) (acc : list app) :
  collect_apps rows acc = collect_apps (filter row_kept rows) acc.
Proof.
  revert acc. induction rows as [|[n i] rows IH]; intros acc; [reflexivity|].
  cbn [filter]. unfold row_kept at 1. cbn [snd].
  destruct i as [[|c i]|]; cbn [collect_apps]; try apply IH.
  destruct (contains MARKER (c :: i)) eqn:Hc; cbn [negb collect_apps]; [|apply IH].
  rewrite Hc. cbn [negb]. destruct (pattern_search (c :: i)); apply IH.
Qed.

Lemma collect_apps_finds (rows : list row) (acc : list app) (n s X : str) :
  In (n, Some s) rows -> pattern_search s = Some X ->
  In (mk_app n X None) (collect_apps rows acc).
Proof.
  intros Hin Hs. rewrite collect_apps_acc. apply in_or_app. right.
  induction rows as [|[n' i'] rows IH]; [contradiction|].
  cbn [collect_apps]. destruct Hin as [Heq | Hin].
  - injection Heq as -> ->.
    pose proof (pattern_search_contains _ _ Hs) as Hc.
    destruct s as [|c s].
    + cbn in Hs. discriminate.
    + rewrite Hc, Hs. cbn [negb]. rewrite collect_apps_acc.
      apply in_or_app. left. now left.
  - destruct i' as [[|c i]|]; try now apply IH.
    destruct (negb (contains MARKER (c :: i))); [now apply IH|].
    destruct (pattern_search (c :: i)); [|now apply IH].
    rewrite collect_apps_acc. apply in_or_app. right. now apply IH.
Qed.

Lemma print_packages_filter (rows : list row) (w : world) :
  print_packages rows w = print_packages (filter row_kept rows) w.
Proof.
  revert w. induction rows as [|[n i] rows IH]; intros w; [reflexivity|].
  cbn [filter]. unfold row_kept at 1. cbn [snd].
  destruct i as [[|c i]|]; cbn [print_packages]; try apply IH.
  destruct (contains MARKER (c :: i)) eqn:Hc; cbn [print_packages].
  - destruct (pattern_search (c :: i)); [|apply IH].
    unfold bind. destruct (print _ w) as [[[]| |] w1]; try reflexivity. apply IH.
  - destruct (pattern_search (c :: i)) eqn:Hs; [|apply IH].
    apply pattern_search_contains in Hs. congruence.
Qed.

Lemma print_packages_keeps (rows : list row) (w : world) (e : event) :
  In e (trace w) -> In e (trace (snd (print_packages rows w))).
Proof.
  revert w. induction rows as [|[n i] rows IH]; intros w Hin; [exact Hin|].
  cbn [print_packages].
  destruct i as [[|c i]|]; try now apply IH.
  destruct (pattern_search (c :: i)); [|now apply IH].
  unfold bind, print, emit. apply IH. cbn. now right.
Qed.

Lemma print_packages_finds (rows : list row) (w : world) (n s X : str) :
  In (n, Some s) rows -> pattern_search s = Some X ->
  In (Print (MsgPackageLine X n)) (trace (snd (print_packages rows w))).
Proof.
  intros Hin Hs. revert w.
  induction rows as [|[n' i'] rows IH]; intros w; [contradiction|].
  cbn [print_packages]. destruct Hin as [Heq | Hin].
  - injection Heq as -> ->.
    destruct s as [|c s]; [cbn in Hs; discriminate|].
    rewrite Hs. unfold bind, print, emit.
    apply print_packages_keeps. cbn. now left.
  - destruct i' as [[|c i]|]; try now apply IH.
    destruct (pattern_search (c :: i)); [|now apply IH].
    unfold bind, print, emit. now apply IH.
Qed.

Lemma collect_apps_length (rows : list row) :
  (List.length (collect_apps rows []) <= List.length (filter row_kept rows))%nat.
Proof.
  induction rows as [|[n i] rows IH]; [cbn; lia|].
  cbn [filter collect_apps]. unfold row_kept at 1. cbn [snd].
  destruct i as [[|c i]|]; try exact IH.
  destruct (contains MARKER (c :: i)); cbn [negb]; [|exact IH].
  destruct (pattern_search (c :: i)).
  - rewrite collect_apps_acc. cbn [List.app List.length]. lia.
  - cbn [List.length]. lia.
Qed.

Lemma first_marker_check (pre s : str) :
  forallb (fun i => negb (startswith MARKER (skipn i s))) (seq 0 (List.length pre)) = true ->
  forall i, (i < List.length pre)%nat -> startswith MARKER (skipn i s) = false.
Proof.
  intros H i Hi. rewrite forallb_forall in H.
  specialize (H i). apply negb_true_iff. apply H. apply in_seq. lia.
Qed.

(** C6.  For a row whose intent descriptor holds [component=X/] at the
    first occurrence of the marker [component=], with X not empty and
    free of slashes, [extract_apps_from_db] returns a record with the
    title of the row and the package X, and [extract_package_info]
    prints the line for them.  Rows whose intent is NULL, empty or
    without the marker contribute nothing: the records returned are no
    more than the rows that remain without them, and on those rows
    alone both extractors do what they do on all the rows. *)
Theorem extractor_takes_first_component
    (E : env) (rows : list row) (w : world) (app_name pre X post : str) :
  db E = DbRows rows ->
  In (app_name, Some (pre ++ MARKER ++ X ++ SLASH :: post)) rows ->
  X <> [] -> ~ In SLASH X ->
  (forall i, (i < List.length pre)%nat ->
     startswith MARKER (skipn i (pre ++ MARKER ++ X ++ SLASH :: post)) = false) ->
  (exists apps w',
      extract_apps_from_db E w = (Ret apps, w') /\
      In (mk_app app_name X None) apps /\
      (List.length apps <= List.length (filter row_kept rows))%nat) /\
  In (Print (MsgPackageLine X app_name)) (trace (snd (extract_package_info E w))) /\
  (forall E', db E' = DbRows (filter row_kept rows) ->
     extract_apps_from_db E' w = extract_apps_from_db E w /\
     extract_package_info E' w = extract_package_info E w).
Proof.
  intros Hdb Hin Hne Hno Hfirst.
  pose proof (pattern_search_first_marker pre X post Hne Hno Hfirst) as Hs.
  split; [|split].
  - unfold extract_apps_from_db. rewrite Hdb.
    eexists. eexists. split; [reflexivity|]. split.
    + eapply collect_apps_finds; eassumption.
    + apply collect_apps_length.
  - unfold extract_package_info. rewrite Hdb.
    unfold bind, print, emit. eapply print_packages_finds; eassumption.
  - intros E' Hdb'. unfold extract_apps_from_db, extract_package_info.
    rewrite Hdb, Hdb'. rewrite <- (collect_apps_filter rows []). split; [reflexivity|].
    unfold bind. destruct (print MsgResults w) as [[[]| |] w1]; try reflexivity.
    symmetry. apply print_packages_filter.
Qed.

(** C6 at the shop row of the sample database. *)
Lemma extractor_takes_first_component_witness :
  exists apps w',
    extract_apps_from_db sample_env (start Absent) = (Ret apps, w') /\
    In (mk_app shop_title shop_package None) apps.
Proof.
  destruct (extractor_takes_first_component sample_env dummy_rows (start Absent)
              shop_title intent_head shop_package shop_activity)
    as [(apps & w' & Hrun & Hin & _) _].
  - reflexivity.
  - right. left. reflexivity.
  - discriminate.
  - cbv. intuition discriminate.
  - apply first_marker_check. vm_compute. reflexivity.
  - exists apps, w'. split; [exact Hrun | exact Hin].
Defined.

(** ** What a computation adds to the trace *)

Section Emits.
Variable P : event -> Prop.

Lemma emits_ret {A} (a : A) : emits P (ret a).
Proof. intros w. exists []. split; [reflexivity | constructor]. Qed.

Lemma emits_raise {A} (e : pyclass) : emits P (@raise A e).
Proof. intros w. exists []. split; [reflexivity | constructor]. Qed.

Lemma emits_unmodelled {A} : emits P (@unmodelled A).
Proof. intros w. exists []. split; [reflexivity | constructor]. Qed.

Lemma emits_emit (e : event) : P e -> emits P (emit e).
Proof. intros H w. exists [e]. split; [reflexivity | now constructor]. Qed.

Lemma emits_bind {A B} (m : M A) (k : A -> M B) :
  emits P m -> (forall a, emits P (k a)) -> emits P (bind m k).
Proof.
  intros Hm Hk w. unfold bind.
  destruct (Hm w) as [n1 [H1 F1]].
  destruct (m w) as [[a|e|] w1]; cbn [snd] in *.
  - destruct (Hk a w1) as [n2 [H2 F2]].
    exists (n2 ++ n1). split.
    + rewrite H2, H1. now rewrite app_assoc.
    + apply Forall_app. now split.
  - exists n1. now split.
  - exists n1. now split.
Qed.

(** The continuation matters only at the values [m] can return. *)
Lemma emits_bind_ret {A B} (m : M A) (k : A -> M B) :
  emits P m -> (forall w a, fst (m w) = Ret a -> emits P (k a)) ->
  emits P (bind m k).
Proof.
  intros Hm Hk w. unfold bind.
  destruct (Hm w) as [n1 [H1 F1]]. specialize (Hk w).
  destruct (m w) as [[a|e|] w1]; cbn [fst snd] in *.
  - destruct (Hk a eq_refl w1) as [n2 [H2 F2]].
    exists (n2 ++ n1). split.
    + rewrite H2, H1. now rewrite app_assoc.
    + apply Forall_app. now split.
  - exists n1. now split.
  - exists n1. now split.
Qed.

Lemma emits_try_except {A} (body : M A) (cs : list pyclass) (h : pyclass -> M A) :
  emits P body -> (forall e, emits P (h e)) -> emits P (try_except body cs h).
Proof.
  intros Hb Hh w. unfold try_except.
  destruct (Hb w) as [n1 [H1 F1]].
  destruct (body w) as [[a|e|] w1]; cbn [snd] in *.
  - exists n1. now split.
  - destruct (caught_by cs e).
    + destruct (Hh e w1) as [n2 [H2 F2]].
      exists (n2 ++ n1). split.
      * rewrite H2, H1. now rewrite app_assoc.
      * apply Forall_app. now split.
    + exists n1. now split.
  - exists n1. now split.
Qed.

Lemma emits_cache_file_exists : emits P cache_file_exists.
Proof. intros w. exists []. split; [reflexivity | constructor]. Qed.

Lemma emits_read_cache_file : emits P read_cache_file.
Proof.
  intros w. exists []. split; [|constructor]. unfold read_cache_file.
  destruct (cache_file w) as [|b|e]; try reflexivity.
  destruct (utf8_decode b); reflexivity.
Qed.

Lemma emits_write_cache_file (E : env) (chunks : list str) :
  P (WriteCache chunks) -> emits P (write_cache_file E chunks).
Proof.
  intros H w. exists [WriteCache chunks]. split; [|now constructor].
  unfold write_cache_file.
  destruct (disk_write E (trace w)); [|reflexivity].
  destruct (write_chunks chunks []) as [b [|]]; reflexivity.
Qed.

Lemma emits_call_generate_content (E : env) (n p : str) :
  P (GenerateContent n p) -> emits P (call_generate_content E n p).
Proof.
  intros H w. exists [GenerateContent n p]. split; [|now constructor].
  unfold call_generate_content.
  destruct (generate_content E (trace w) n p); reflexivity.
Qed.

Lemma emits_call_embed_content (E : env) (t : str) :
  P (EmbedContent t) -> emits P (call_embed_content E t).
Proof.
  intros H w. exists [EmbedContent t]. split; [|now constructor].
  unfold call_embed_content.
  destruct (embed_content E (trace w) t); reflexivity.
Qed.

Lemma emits_call_fit_predict (E : env) (m : list vector) :
  P (FitPredict m) -> emits P (call_fit_predict E m).
Proof.
  intros H w. exists [FitPredict m]. split; [|now constructor].
  unfold call_fit_predict.
  destruct (fit_predict E m); reflexivity.
Qed.

(** From here on [P] holds of every printed line, except possibly
    the final groups. *)
Hypothesis P_print : forall m, is_groups m = false -> P (Print m).

Lemma emits_print (m : message) : is_groups m = false -> emits P (print m).
Proof. intros H. now apply emits_emit, P_print. Qed.

Lemma emits_load_cache : emits P load_cache.
Proof.
  unfold load_cache. apply emits_bind; [apply emits_cache_file_exists|].
  intros present. destruct (negb present); [apply emits_ret|].
  apply emits_try_except.
  - apply emits_bind; [apply emits_read_cache_file|].
    intros [|c content]; [apply emits_ret|].
    destruct (json_loads (c :: content)); [apply emits_ret | apply emits_raise].
  - intros e. apply emits_bind; [now apply emits_print | intros; apply emits_ret].
Qed.

Lemma emits_save_cache (E : env) (c : tag_cache) :
  P (WriteCache (dump_chunks c)) -> emits P (save_cache E c).
Proof.
  intros H. unfold save_cache. apply emits_try_except.
  - apply emits_bind; [now apply emits_write_cache_file|].
    intros _. now apply emits_print.
  - intros e. now apply emits_print.
Qed.

Lemma emits_setup_gemini (E : env) : emits P (setup_gemini E).
Proof.
  unfold setup_gemini. destruct (api_key E) as [[|c k]|];
    try apply emits_raise. now apply emits_print.
Qed.

Lemma emits_extract_apps_from_db (E : env) : emits P (extract_apps_from_db E).
Proof.
  unfold extract_apps_from_db. destruct (db E) as [|e|rows].
  - apply emits_raise.
  - apply emits_try_except; [apply emits_raise | intros; apply emits_raise].
  - apply emits_bind; [now apply emits_print | intros; apply emits_ret].
Qed.

Lemma emits_get_app_description (E : env) (n p : str) :
  P (GenerateContent n p) -> emits P (get_app_description E n p).
Proof.
  intros H. unfold get_app_description.
  apply emits_bind; [now apply emits_print|]. intros _.
  apply emits_try_except.
  - apply emits_bind; [now apply emits_call_generate_content|].
    intros [t|]; [|apply emits_raise].
    destruct (strip t); apply emits_ret.
  - intros e. apply emits_bind; [now apply emits_print | intros; apply emits_ret].
Qed.

Lemma emits_get_embedding (E : env) (t : str) :
  P (EmbedContent t) -> emits P (get_embedding E t).
Proof.
  intros H. unfold get_embedding.
  apply emits_bind; [now apply emits_print|]. intros _.
  apply emits_try_except.
  - apply emits_bind; [now apply emits_call_embed_content|].
    intros v. apply emits_ret.
  - intros e. apply emits_bind; [now apply emits_print | intros; apply emits_ret].
Qed.

Lemma emits_group_apps (i : nat) (apps : list app) (clusters : list Z)
    (g : grouped_result) : emits P (group_apps i apps clusters g).
Proof.
  revert i g. induction apps as [|a apps IH]; intros i g; cbn [group_apps].
  - apply emits_ret.
  - destruct (nth_error clusters i); [apply IH | apply emits_raise].
Qed.
End Emits.

(** ** The loop of [main] *)

Lemma loop_body_unfold (E : env) (a : app) (v : loop_vars) :
  loop_body E a v =
  (print (MsgProcessing (name a) (package a)) ;;
   tc <- lookup_or_classify E a (app_tags_cache v) ;;
   after_tags E a v tc).
Proof. reflexivity. Qed.

Lemma bind_assoc {A B C} (m : M A) (f : A -> M B) (g : B -> M C) (w : world) :
  bind (bind m f) g w = bind m (fun x => bind (f x) g) w.
Proof. unfold bind. destruct (m w) as [[a|e|] w1]; reflexivity. Qed.

(** *** The classifier and the embedder always return *)

Lemma get_app_description_total (E : env) (n p : str) (w : world) :
  exists t l,
    get_app_description E n p w =
      (Ret t, {| trace := l ++ GenerateContent n p :: Print (MsgApiCall n) :: trace w;
                 cache_file := cache_file w |}) /\
    Forall is_print l.
Proof.
  unfold get_app_description, bind, try_except, print, emit,
    call_generate_content, ret, raise. cbn [trace cache_file].
  destruct (generate_content E _ n p) as [[t|]|e].
  - destruct (strip t) as [|c s]; eexists; exists []; (split; [reflexivity | constructor]).
  - cbn. eexists. exists [Print (MsgLlmError AttributeError)].
    split; [reflexivity | repeat constructor].
  - rewrite caught_by_Exception. cbn. eexists. exists [Print (MsgLlmError e)].
    split; [reflexivity | repeat constructor].
Qed.

Lemma get_embedding_total (E : env) (t : str) (w : world) :
  exists r l,
    get_embedding E t w =
      (Ret r, {| trace := l ++ EmbedContent t :: Print (MsgEmbedding (firstn 20 t)) :: trace w;
                 cache_file := cache_file w |}) /\
    Forall is_print l.
Proof.
  unfold get_embedding, bind, try_except, print, emit, call_embed_content, ret.
  cbn [trace cache_file].
  destruct (embed_content E _ t) as [v|e].
  - eexists. exists []. split; [reflexivity | constructor].
  - rewrite caught_by_Exception. cbn. eexists. exists [Print (MsgEmbedError e)].
    split; [reflexivity | repeat constructor].
Qed.

(** *** What a turn of the loop adds to the trace *)

Section LoopEmits.
Variable P : event -> Prop.
Hypothesis P_print : forall m, is_groups m = false -> P (Print m).

Lemma emits_after_tags (E : env) (a : app) (v : loop_vars) (tc : str * tag_cache) :
  (fst tc <> SENTINEL -> P (EmbedContent (fst tc))) ->
  emits P (after_tags E a v tc).
Proof.
  intros He. unfold after_tags.
  apply emits_bind; [now apply emits_print|]. intros _.
  destruct (str_eqb (fst tc) SENTINEL) eqn:Hs.
  - apply emits_bind; [now apply emits_print | intros; apply emits_ret].
  - apply str_eqb_neq in Hs.
    apply emits_bind; [apply emits_get_embedding; auto|].
    intros [[|x xs]|]; try apply emits_ret.
    apply emits_bind; [now apply emits_print | intros; apply emits_ret].
Qed.

(** A hit: prints, and at most an embedding of the cached tag. *)
Lemma emits_loop_body_hit (E : env) (a : app) (v : loop_vars) (t : str) :
  cache_get (app_tags_cache v) (package a) = Some t ->
  (t <> SENTINEL -> P (EmbedContent t)) ->
  emits P (loop_body E a v).
Proof.
  intros Hhit He. rewrite loop_body_unfold.
  apply emits_bind; [now apply emits_print|]. intros _.
  unfold lookup_or_classify. rewrite Hhit.
  apply emits_bind_ret.
  - apply emits_bind; [now apply emits_print | intros; apply emits_ret].
  - intros w tc Htc. cbn in Htc. injection Htc as <-.
    now apply emits_after_tags.
Qed.

(** Any turn: prints, at most one classifier call for this very
    application, at most one write, at most one embedding of a tag
    that is not the sentinel. *)
Lemma emits_loop_body (E : env) (a : app) (v : loop_vars) :
  P (GenerateContent (name a) (package a)) ->
  (forall c, P (WriteCache c)) ->
  (forall t, t <> SENTINEL -> P (EmbedContent t)) ->
  emits P (loop_body E a v).
Proof.
  intros Hg Hw He.
  destruct (cache_get (app_tags_cache v) (package a)) as [t|] eqn:Hc.
  - eapply emits_loop_body_hit; [exact Hc | apply He].
  - rewrite loop_body_unfold.
    apply emits_bind; [now apply emits_print|]. intros _.
    unfold lookup_or_classify. rewrite Hc.
    apply emits_bind.
    + apply emits_bind; [now apply emits_get_app_description|].
      intros t. apply emits_bind; [apply emits_save_cache; auto|].
      intros _. apply emits_ret.
    + intros tc. apply emits_after_tags; auto.
Qed.

Lemma emits_main_loop (E : env) (apps : list app) (v : loop_vars) :
  (forall a, In a apps -> P (GenerateContent (name a) (package a))) ->
  (forall c, P (WriteCache c)) ->
  (forall t, t <> SENTINEL -> P (EmbedContent t)) ->
  emits P (main_loop E apps v).
Proof.
  intros Hg Hw He. revert v.
  induction apps as [|a apps IH]; intros v; cbn [main_loop].
  - apply emits_ret.
  - apply emits_bind.
    + apply emits_loop_body; auto. apply Hg. now left.
    + intros v'. apply IH. intros a' Ha'. apply Hg. now right.
Qed.
End LoopEmits.

(** *** What a turn of the loop does to the variables *)

Lemma loop_body_vars (E : env) (a : app) (v v' : loop_vars) (w w' : world) :
  loop_body E a v w = (Ret v', w') ->
  exists t,
    cache_get (app_tags_cache v') (package a) = Some t /\
    (forall p t0, cache_get (app_tags_cache v) p = Some t0 ->
                  cache_get (app_tags_cache v') p = Some t0) /\
    ((processed_apps v' = processed_apps v /\ app_vectors v' = app_vectors v) \/
     (t <> SENTINEL /\
      processed_apps v' = processed_apps v ++ [mk_app (name a) (package a) (Some t)] /\
      exists vec, vec <> [] /\ app_vectors v' = app_vectors v ++ [vec])).
Proof.
  rewrite loop_body_unfold. unfold bind at 1. cbn [print emit].
  set (w0 := {| trace := _; cache_file := _ |}).
  unfold bind at 1.
  assert (Hlook : forall tc w1, lookup_or_classify E a (app_tags_cache v) w0 = (Ret tc, w1) ->
            cache_get (snd tc) (package a) = Some (fst tc) /\
            (forall p t0, cache_get (app_tags_cache v) p = Some t0 ->
                          cache_get (snd tc) p = Some t0)).
  { intros tc w1. unfold lookup_or_classify.
    destruct (cache_get (app_tags_cache v) (package a)) as [t|] eqn:Hc.
    - cbn. intros H. injection H as <- _. cbn. auto.
    - unfold bind at 1.
      destruct (get_app_description E (name a) (package a) w0) as [[t|e|] w2];
        try discriminate.
      unfold bind. destruct (save_cache E _ w2) as [[[]|e|] w3]; try discriminate.
      cbn. intros H. injection H as <- _. cbn. split.
      + apply cache_get_set_same.
      + intros p t0 Hp. now apply cache_set_keeps. }
  destruct (lookup_or_classify E a (app_tags_cache v) w0) as [[tc|e|] w1];
    try discriminate.
  destruct (Hlook tc w1 eq_refl) as [Hget Hkeep]. clear Hlook.
  unfold after_tags. unfold bind at 1. cbn [print emit].
  destruct (str_eqb (fst tc) SENTINEL) eqn:Hs.
  - cbn. intros H. injection H as <- _. cbn.
    exists (fst tc). auto.
  - apply str_eqb_neq in Hs. unfold bind at 1.
    destruct (get_embedding E (fst tc) _) as [[[[|x xs]|]|e|] w2]; try discriminate;
      cbn; intros H; injection H as <- _; cbn; exists (fst tc);
      repeat split; auto.
    right. repeat split; auto. exists (x :: xs). split; [discriminate | reflexivity].
Qed.

(** *** Classifier calls per package *)

Lemma classified_app (p : str) (l1 l2 : list event) :
  classified p (l1 ++ l2) = (classified p l1 + classified p l2)%nat.
Proof. unfold classified. now rewrite filter_app, length_app. Qed.

Lemma classified_none (p : str) (l : list event) :
  Forall (fun e => is_classify p e = false) l -> classified p l = 0%nat.
Proof.
  unfold classified. induction 1 as [|e l He _ IH]; [reflexivity|].
  cbn [filter]. now rewrite He.
Qed.

Lemma emits_classified (A : Type) (p : str) (m : M A) (w : world) :
  emits (fun e => is_classify p e = false) m ->
  classified p (trace (snd (m w))) = classified p (trace w).
Proof.
  intros H. destruct (H w) as [new [-> Hnew]].
  now rewrite classified_app, classified_none.
Qed.

Lemma is_print_not_classify (p : str) (l : list event) :
  Forall is_print l -> Forall (fun e => is_classify p e = false) l.
Proof.
  intros H. eapply Forall_impl; [|exact H].
  intros [m| | | |]; cbn; intros Hp; try contradiction; reflexivity.
Qed.

(** A hit adds no classifier call, for any package. *)
Lemma loop_body_hit_classified (E : env) (a : app) (v : loop_vars) (w : world)
    (t p : str) :
  cache_get (app_tags_cache v) (package a) = Some t ->
  classified p (trace (snd (loop_body E a v w))) = classified p (trace w).
Proof.
  intros Hhit. apply emits_classified.
  eapply emits_loop_body_hit; [reflexivity | exact Hhit | reflexivity].
Qed.

(** A turn for another package adds no classifier call for [p]. *)
Lemma loop_body_other_classified (E : env) (a : app) (v : loop_vars) (w : world)
    (p : str) :
  package a <> p ->
  classified p (trace (snd (loop_body E a v w))) = classified p (trace w).
Proof.
  intros Hne. apply emits_classified.
  apply emits_loop_body; try reflexivity.
  cbn. now apply str_eqb_neq.
Qed.

(** A miss adds exactly one classifier call, for the package at hand. *)
Lemma loop_body_miss_classified (E : env) (a : app) (v : loop_vars) (w : world) :
  cache_get (app_tags_cache v) (package a) = None ->
  classified (package a) (trace (snd (loop_body E a v w))) =
  S (classified (package a) (trace w)).
Proof.
  intros Hmiss. rewrite loop_body_unfold.
  unfold bind at 1. cbn [print emit].
  set (w0 := {| trace := _; cache_file := _ |}).
  unfold lookup_or_classify. rewrite Hmiss.
  rewrite bind_assoc. unfold bind at 1.
  destruct (get_app_description_total E (name a) (package a) w0) as [t [l [-> Hl]]].
  set (w1 := {| trace := _; cache_file := _ |}).
  match goal with
  | |- classified _ (trace (snd (?k w1))) = _ =>
      assert (Hk : emits (fun e => is_classify (package a) e = false) k)
  end.
  { apply emits_bind.
    - apply emits_bind; [apply emits_save_cache; reflexivity|].
      intros _. apply emits_ret.
    - intros tc. apply emits_after_tags; reflexivity. }
  rewrite (emits_classified _ _ _ w1 Hk).
  subst w1 w0. cbn [trace].
  rewrite classified_app, (classified_none _ l (is_print_not_classify _ l Hl)).
  unfold classified. cbn [filter is_classify]. rewrite str_eqb_refl. reflexivity.
Qed.

(** Over the whole loop: a package that is in the cache is never
    classified, and no package is classified twice. *)
Lemma main_loop_classified (E : env) (apps : list app) (v : loop_vars) (w : world)
    (p : str) :
  (cache_get (app_tags_cache v) p <> None ->
   classified p (trace (snd (main_loop E apps v w))) = classified p (trace w)) /\
  (classified p (trace (snd (main_loop E apps v w))) <= S (classified p (trace w)))%nat.
Proof.
  revert v w. induction apps as [|a apps IH]; intros v w; cbn [main_loop].
  - cbn. split; [reflexivity | lia].
  - unfold bind.
    destruct (loop_body E a v w) as [r w1] eqn:Hbody.
    assert (Hw1 : w1 = snd (loop_body E a v w)) by now rewrite Hbody.
    assert (Hstep :
      (cache_get (app_tags_cache v) p <> None ->
       classified p (trace w1) = classified p (trace w)) /\
      (classified p (trace w1) <= S (classified p (trace w)))%nat /\
      (classified p (trace w1) = S (classified p (trace w)) ->
       package a = p /\ cache_get (app_tags_cache v) p = None)).
    { destruct (cache_get (app_tags_cache v) (package a)) as [t|] eqn:Hc.
      - rewrite Hw1, (loop_body_hit_classified E a v w t p Hc).
        repeat split; try lia.
      - destruct (str_eqb (package a) p) eqn:Hp.
        + apply str_eqb_eq in Hp. subst p.
          rewrite Hw1, (loop_body_miss_classified E a v w Hc).
          repeat split; try lia; try assumption. intros H. contradiction.
        + apply str_eqb_neq in Hp.
          rewrite Hw1, (loop_body_other_classified E a v w p Hp).
          repeat split; try lia. }
    destruct Hstep as [Hin [Hle Hone]].
    destruct r as [v1|e|]; cbn [snd]; [|split; [exact Hin | exact Hle] ..].
    destruct (loop_body_vars E a v v1 w w1 Hbody) as [t [Hget [Hkeep _]]].
    destruct (IH v1 w1) as [IHin IHle].
    split.
    + intros Hp. rewrite IHin, Hin; auto.
      destruct (cache_get (app_tags_cache v) p) as [t0|] eqn:Hc0; [|contradiction].
      rewrite (Hkeep p t0 Hc0). discriminate.
    + destruct (Nat.eq_dec (classified p (trace w1)) (S (classified p (trace w)))) as [Heq|Hneq].
      * destruct (Hone Heq) as [<- _].
        rewrite IHin; [lia|]. rewrite Hget. discriminate.
      * lia.
Qed.

(** ** Skipped applications and the final groups *)

Lemma dict_get_in {K V : Type} (keq : K -> K -> bool) (d : list (K * V)) (k : K) (v : V) :
  dict_get keq d k = Some v -> exists k', In (k', v) d.
Proof.
  induction d as [|[k0 v0] d IH]; cbn [dict_get]; [discriminate|].
  destruct (keq k0 k).
  - intros H. injection H as ->. exists k0. now left.
  - intros H. destruct (IH H) as [k' Hk']. exists k'. now right.
Qed.

Lemma dict_set_in {K V : Type} (keq : K -> K -> bool) (d : list (K * V))
    (k k0 : K) (v v0 : V) :
  In (k, v) (dict_set keq d k0 v0) -> In (k, v) d \/ v = v0.
Proof.
  induction d as [|[k1 v1] d IH]; cbn [dict_set].
  - intros [H|[]]. injection H as _ <-. now right.
  - destruct (keq k1 k0).
    + intros [H|H]; [injection H as _ <-; now right | left; now right].
    + intros [H|H]; [left; now left|].
      destruct (IH H) as [H'|H']; [left; now right | now right].
Qed.

Lemma group_apps_names (i : nat) (apps : list app) (clusters : list Z)
    (g g' : grouped_result) (w w' : world) (n : str) :
  group_apps i apps clusters g w = (Ret g', w') ->
  grouped g' n ->
  grouped g n \/ exists q, In q apps /\ name q = n.
Proof.
  revert i g w. induction apps as [|a apps IH]; intros i g w; cbn [group_apps].
  - cbn. intros H. injection H as <- _. now left.
  - destruct (nth_error clusters i) as [cid|]; [|discriminate].
    intros Hrun Hg'.
    destruct (IH _ _ _ Hrun Hg') as [Hg | [q [Hq Hn]]].
    + destruct Hg as [gn [names [Hin Hn]]].
      apply dict_set_in in Hin. destruct Hin as [Hin | ->].
      * left. now exists gn, names.
      * apply in_app_or in Hn. destruct Hn as [Hn | [Hn|[]]].
        -- destruct (dict_get group_name_eqb g _) as [l|] eqn:Hget; [|contradiction].
           apply dict_get_in in Hget. destruct Hget as [k' Hk'].
           left. now exists k', l.
        -- right. exists a. split; [now left | exact Hn].
    + right. exists q. split; [now right | exact Hn].
Qed.

(** What the loop leaves in its variables when it runs to its end. *)
Lemma main_loop_vars (E : env) (apps : list app) (v v' : loop_vars) (w w' : world) :
  main_loop E apps v w = (Ret v', w') ->
  (forall p t0, cache_get (app_tags_cache v) p = Some t0 ->
                cache_get (app_tags_cache v') p = Some t0) /\
  (forall a, In a apps -> exists t, cache_get (app_tags_cache v') (package a) = Some t) /\
  exists ps vs,
    processed_apps v' = processed_apps v ++ ps /\
    app_vectors v' = app_vectors v ++ vs /\
    List.length ps = List.length vs /\
    Forall (fun vec => vec <> []) vs /\
    Forall (fun q => exists a t, In a apps /\ q = mk_app (name a) (package a) (Some t) /\
                                 t <> SENTINEL /\
                                 cache_get (app_tags_cache v') (package a) = Some t) ps.
Proof.
  revert v w. induction apps as [|a apps IH]; intros v w; cbn [main_loop].
  - cbn. intros H. injection H as <- _. repeat split; auto.
    + intros a [].
    + exists [], []. rewrite !app_nil_r. repeat split; constructor.
  - unfold bind. destruct (loop_body E a v w) as [[v1|e|] w1] eqn:Hbody; try discriminate.
    intros Hrest.
    destruct (loop_body_vars E a v v1 w w1 Hbody) as [t [Hget [Hkeep Hstep]]].
    destruct (IH v1 w1 Hrest) as [Hkeep' [Hall [ps [vs [Hps [Hvs [Hlen [Hne Hq]]]]]]]].
    split; [auto|]. split.
    + intros a' [<- | Ha']; [exists t; auto | auto].
    + assert (Hq' : Forall (fun q => exists a0 t0, In a0 (a :: apps) /\
                 q = mk_app (name a0) (package a0) (Some t0) /\ t0 <> SENTINEL /\
                 cache_get (app_tags_cache v') (package a0) = Some t0) ps).
      { eapply Forall_impl; [|exact Hq].
        intros q [a0 [t0 [H0 H1]]]. exists a0, t0. split; [now right | exact H1]. }
      destruct Hstep as [[Hp Hv] | [Hns [Hp [vec [Hvec Hv]]]]].
      * exists ps, vs. rewrite Hps, Hvs, Hp, Hv. repeat split; auto.
      * exists (mk_app (name a) (package a) (Some t) :: ps), (vec :: vs).
        rewrite Hps, Hvs, Hp, Hv, <- !app_assoc. cbn [List.app List.length].
        repeat split; auto.
        constructor; [|exact Hq'].
        exists a, t. repeat split; auto. now left.
Qed.

Lemma after_tags_sentinel (E : env) (a : app) (v : loop_vars) (c : tag_cache) (w : world) :
  after_tags E a v (SENTINEL, c) w =
  (Ret (mk_vars c (processed_apps v) (app_vectors v)),
   {| trace := Print MsgSkipped :: Print (MsgTags SENTINEL) :: trace w;
      cache_file := cache_file w |}).
Proof. reflexivity. Qed.

(** C2, amended.  An application whose tag is the sentinel is skipped:
    its turn of the loop ends after the skip line, with no embedder
    call, no vector and no processed application added.  When the loop
    has run to its end: no embedder call was made for the sentinel;
    every application has a tag in the cache; vectors and processed
    applications pair up and every processed application has a tag
    other than the sentinel; and every name listed in a final group is
    the name of an application whose tag is not the sentinel (so the
    name of a skipped application is listed only if another, embedded
    application bears the same name). *)
Theorem sentinel_apps_are_skipped
    (E : env) (apps : list app) (cache : tag_cache) (w w' : world) (v : loop_vars) :
  main_loop E apps (mk_vars cache [] []) w = (Ret v, w') ->
  (forall a v0 w0 c w1,
      lookup_or_classify E a (app_tags_cache v0)
        {| trace := Print (MsgProcessing (name a) (package a)) :: trace w0;
           cache_file := cache_file w0 |} = (Ret (SENTINEL, c), w1) ->
      loop_body E a v0 w0 =
        (Ret (mk_vars c (processed_apps v0) (app_vectors v0)),
         {| trace := Print MsgSkipped :: Print (MsgTags SENTINEL) :: trace w1;
            cache_file := cache_file w1 |})) /\
  (exists new, trace w' = new ++ trace w /\ ~ In (EmbedContent SENTINEL) new) /\
  (forall a, In a apps -> exists t, cache_get (app_tags_cache v) (package a) = Some t) /\
  List.length (app_vectors v) = List.length (processed_apps v) /\
  (forall q, In q (processed_apps v) ->
     exists a t, In a apps /\ q = mk_app (name a) (package a) (Some t) /\
                 t <> SENTINEL /\
                 cache_get (app_tags_cache v) (package a) = Some t) /\
  (forall clusters w1 g w2 n,
     group_apps 0 (processed_apps v) clusters [] w1 = (Ret g, w2) ->
     grouped g n ->
     exists a t, In a apps /\ name a = n /\
                 cache_get (app_tags_cache v) (package a) = Some t /\ t <> SENTINEL).
Proof.
  intros Hrun.
  destruct (main_loop_vars E apps _ v w w' Hrun)
    as [_ [Hall [ps [vs [Hps [Hvs [Hlen [_ Hq]]]]]]]].
  cbn [processed_apps app_vectors List.app] in Hps, Hvs.
  assert (Hproc : forall q, In q (processed_apps v) ->
     exists a t, In a apps /\ q = mk_app (name a) (package a) (Some t) /\
                 t <> SENTINEL /\
                 cache_get (app_tags_cache v) (package a) = Some t).
  { rewrite Hps. intros q Hin. rewrite Forall_forall in Hq. now apply Hq. }
  split; [|split; [|split; [|split; [|split]]]].
  - intros a v0 w0 c w1 Hlook. rewrite loop_body_unfold.
    unfold bind at 1. cbn [print emit]. unfold bind at 1. rewrite Hlook.
    apply after_tags_sentinel.
  - assert (Hem : emits (fun e => e <> EmbedContent SENTINEL)
                    (main_loop E apps (mk_vars cache [] []))).
    { apply emits_main_loop; try discriminate.
      intros t Ht Heq. injection Heq as ->. now apply Ht. }
    destruct (Hem w) as [new [Hnew Hall']]. rewrite Hrun in Hnew. cbn [snd] in Hnew.
    exists new. split; [exact Hnew|].
    intros Hin. rewrite Forall_forall in Hall'. now apply (Hall' _ Hin).
  - exact Hall.
  - now rewrite Hps, Hvs.
  - exact Hproc.
  - intros clusters w1 g w2 n Hg Hn.
    destruct (group_apps_names _ _ _ _ _ _ _ n Hg Hn) as [[gn [names [[] _]]] | [q [Hq' Hname]]].
    destruct (Hproc q Hq') as [a [t [Ha [-> [Ht Hc]]]]].
    exists a, t. repeat split; auto.
Qed.

(** C2 on the sample run: the shop is embedded, the video player is skipped. *)
Lemma sentinel_apps_are_skipped_witness :
  main_loop sample_env [shop_app; video_app] (mk_vars [] [] []) (ready Absent 2)
    = (Ret sample_vars, sample_world) /\
  List.length (app_vectors sample_vars) = List.length (processed_apps sample_vars).
Proof.
  assert (H : main_loop sample_env [shop_app; video_app] (mk_vars [] [] []) (ready Absent 2)
              = (Ret sample_vars, sample_world)) by (vm_compute; reflexivity).
  split; [exact H|].
  exact (proj1 (proj2 (proj2 (proj2
           (sentinel_apps_are_skipped sample_env [shop_app; video_app] []
              (ready Absent 2) sample_world sample_vars H))))).
Defined.

(** C2 as stated fails when another application has the same title. *)
Lemma sentinel_name_in_group_counterexample :
  exists v w g,
    main_loop twin_env [mk_app twin_title twin_a None; mk_app twin_title twin_b None]
      (mk_vars [] [] []) (ready Absent 2) = (Ret v, w) /\
    cache_get (app_tags_cache v) twin_a = Some SENTINEL /\
    ~ In (EmbedContent SENTINEL) (trace w) /\
    hd_error (trace (snd (main twin_env (start Absent)))) = Some (Print (MsgGroups g)) /\
    grouped g twin_title.
Proof.
  eexists. eexists. eexists.
  split; [vm_compute; reflexivity|].
  split; [reflexivity|].
  split; [cbv; intuition discriminate|].
  split; [vm_compute; reflexivity|].
  exists Outliers, [twin_title]. split; left; reflexivity.
Qed.

(** ** The classifier *)

Lemma loop_body_miss (E : env) (a : app) (v : loop_vars) (w w1 : world) (t : str) :
  cache_get (app_tags_cache v) (package a) = None ->
  get_app_description E (name a) (package a)
    (printing (MsgProcessing (name a) (package a)) w) = (Ret t, w1) ->
  loop_body E a v w =
    (save_cache E (cache_set (app_tags_cache v) (package a) t) ;;
     after_tags E a v (t, cache_set (app_tags_cache v) (package a) t)) w1.
Proof.
  intros Hmiss Hdesc. rewrite loop_body_unfold.
  unfold bind at 1. cbn [print emit]. fold (printing (MsgProcessing (name a) (package a)) w).
  unfold lookup_or_classify. rewrite Hmiss.
  rewrite bind_assoc. unfold bind at 1. rewrite Hdesc.
  rewrite bind_assoc. unfold bind at 1 3.
  destruct (save_cache E _ w1) as [[[]|e|] w2]; reflexivity.
Qed.





(** *** Writing the cache file *)

Lemma utf8_encode_app (s1 s2 : str) :
  utf8_encode (s1 ++ s2) =
  match utf8_encode s1, utf8_encode s2 with
  | Some a, Some b => Some (a ++ b)
  | _, _ => None
  end.
Proof.
  induction s1 as [|c s1 IH]; cbn [List.app utf8_encode].
  - destruct (utf8_encode s2); reflexivity.
  - rewrite IH. destruct (utf8_encode_char c) as [bc|]; [|reflexivity].
    destruct (utf8_encode s1) as [a|]; [|reflexivity].
    destruct (utf8_encode s2) as [b|]; [|reflexivity].
    now rewrite app_assoc.
Qed.


Lemma write_chunks_complete (chunks : list str) (acc b : bytes) :
  write_chunks chunks acc = (b, true) ->
  exists enc, utf8_encode (List.concat chunks) = Some enc /\ b = acc ++ enc.
Proof.
  revert acc b. induction chunks as [|c chunks IH]; intros acc b; cbn [List.concat write_chunks].
  - intros H. injection H as <-. exists []. now rewrite app_nil_r.
  - rewrite utf8_encode_app.
    destruct (utf8_encode c) as [bc|]; [|discriminate].
    intros H. destruct (IH _ _ H) as [enc [-> ->]].
    exists (bc ++ enc). now rewrite app_assoc.
Qed.



Lemma save_cache_trace (E : env) (c : tag_cache) (w : world) :
  exists l, trace (snd (save_cache E c w)) = l ++ WriteCache (dump_chunks c) :: trace w /\
            Forall is_print l.
Proof.
  unfold save_cache, try_except, bind, write_cache_file.
  destruct (disk_write E (trace w)) as [|e f].
  - destruct (write_chunks (dump_chunks c) []) as [b [|]]; cbn.
    + exists [Print MsgCacheSaved]. split; [reflexivity | repeat constructor].
    + exists []. split; [reflexivity | constructor].
  - destruct (caught_by [OSError] e); cbn.
    + exists [Print (MsgCacheWriteFailed e)]. split; [reflexivity | repeat constructor].
    + exists []. split; [reflexivity | constructor].
Qed.





(** ** The ways [main] ends *)

Lemma main_to_loop (E : env) (f : file_state) (c0 : char) (k : str)
    (rows : list row) (a : app) (rest : list app) :
  api_key E = Some (c0 :: k) -> db E = DbRows rows ->
  collect_apps rows [] = a :: rest ->
  main E (start f) =
    (loaded <- load_cache ;;
     match as_tag_cache loaded with
     | None => unmodelled
     | Some cache =>
         v <- main_loop E (a :: rest) (mk_vars cache [] []) ;;
         cluster_stage E v
     end) (ready f (List.length (a :: rest))).
Proof.
  intros Hkey Hdb Hrows.
  unfold main, try_except, bind, setup_gemini, extract_apps_from_db.
  rewrite Hkey, Hdb. cbn [print emit ret negb start trace cache_file].
  rewrite Hrows. reflexivity.
Qed.

Lemma quiet_trace (A : Type) (m : M A) (w : world) :
  emits quiet m -> Forall quiet (trace w) -> Forall quiet (trace (snd (m w))).
Proof.
  intros H Hw. destruct (H w) as [new [-> Hnew]]. apply Forall_app. now split.
Qed.

Lemma quiet_print (m : message) : is_groups m = false -> quiet (Print m).
Proof. destruct m; cbn; intros H; try exact I. discriminate. Qed.

(** Shared by C5 and the last case of C9. *)
Lemma main_no_vectors (E : env) (f : file_state) (c0 : char) (k : str)
    (rows : list row) (a : app) (rest : list app) (loaded : json)
    (cache : tag_cache) (v : loop_vars) (w1 w2 : world) :
  api_key E = Some (c0 :: k) -> db E = DbRows rows ->
  collect_apps rows [] = a :: rest ->
  load_cache (ready f (List.length (a :: rest))) = (Ret loaded, w1) ->
  as_tag_cache loaded = Some cache ->
  main_loop E (a :: rest) (mk_vars cache [] []) w1 = (Ret v, w2) ->
  app_vectors v = [] ->
  main E (start f) = (Ret tt, printing MsgNoVectors w2) /\
  Forall quiet (trace (printing MsgNoVectors w2)).
Proof.
  intros Hkey Hdb Hrows Hload Hcache Hloop Hvec. split.
  - rewrite (main_to_loop E f c0 k rows a rest Hkey Hdb Hrows).
    unfold bind at 1. rewrite Hload, Hcache.
    unfold bind at 1. rewrite Hloop.
    unfold cluster_stage. rewrite Hvec. reflexivity.
  - cbn [printing trace]. constructor; [exact I|].
    assert (H1 : Forall quiet (trace w1)).
    { replace w1 with (snd (load_cache (ready f (List.length (a :: rest)))))
        by now rewrite Hload.
      apply quiet_trace; [apply emits_load_cache, quiet_print|].
      repeat constructor. }
    replace w2 with (snd (main_loop E (a :: rest) (mk_vars cache [] []) w1))
      by now rewrite Hloop.
    apply quiet_trace; [|exact H1].
    apply emits_main_loop; try (intros; exact I). apply quiet_print.
Qed.

(** C5.  If the loop over the extracted applications ends with no
    vector, [main] prints the nothing-to-cluster line and returns; the
    trace of the whole run holds no clustering call and no final
    groups. *)
Theorem nothing_to_cluster (E : env) (f : file_state) (c0 : char) (k : str)
    (rows : list row) (a : app) (rest : list app) (loaded : json)
    (cache : tag_cache) (v : loop_vars) (w1 w2 : world) :
  api_key E = Some (c0 :: k) -> db E = DbRows rows ->
  collect_apps rows [] = a :: rest ->
  load_cache (ready f (List.length (a :: rest))) = (Ret loaded, w1) ->
  as_tag_cache loaded = Some cache ->
  main_loop E (a :: rest) (mk_vars cache [] []) w1 = (Ret v, w2) ->
  app_vectors v = [] ->
  main E (start f) =
    (Ret tt, {| trace := Print MsgNoVectors :: trace w2; cache_file := cache_file w2 |}) /\
  (forall matrix, ~ In (FitPredict matrix) (trace (snd (main E (start f))))) /\
  (forall groups, ~ In (Print (MsgGroups groups)) (trace (snd (main E (start f))))).
Proof.
  intros Hkey Hdb Hrows Hload Hcache Hloop Hvec.
  destruct (main_no_vectors E f c0 k rows a rest loaded cache v w1 w2
              Hkey Hdb Hrows Hload Hcache Hloop Hvec) as [Hmain Hq].
  rewrite Hmain. cbn [snd]. split; [reflexivity|].
  rewrite Forall_forall in Hq.
  split; intros x Hin; exact (Hq _ Hin).
Qed.

(** C5 on the run where every classification fails. *)
Lemma nothing_to_cluster_witness :
  main silent_env (start Absent) =
    (Ret tt, {| trace := Print MsgNoVectors :: trace silent_world;
                cache_file := cache_file silent_world |}).
Proof.
  refine (proj1 (nothing_to_cluster silent_env Absent 107 [] dummy_rows shop_app
                   [video_app] (JObj []) [] silent_vars (ready Absent 2) silent_world
                   _ _ _ _ _ _ _));
    vm_compute; reflexivity.
Defined.

(** Whatever the run, the clustering library is never handed an empty
    matrix. *)
Lemma fit_predict_never_empty (E : env) (f : file_state) (matrix : list vector) :
  In (FitPredict matrix) (trace (snd (main E (start f)))) -> matrix <> [].
Proof.
  set (P := fun e => forall m, e = FitPredict m -> m <> []).
  assert (Pp : forall m, is_groups m = false -> P (Print m)) by (intros m _ x Hx; discriminate).
  assert (Hem : emits P (main E)).
  { unfold main.
    apply emits_bind.
    { apply emits_try_except.
      - apply emits_bind; [now apply emits_setup_gemini | intros; apply emits_ret].
      - intros e. apply emits_bind; [now apply emits_print | intros; apply emits_ret]. }
    intros configured. destruct (negb configured); [apply emits_ret|].
    apply emits_bind.
    { apply emits_try_except.
      - apply emits_bind; [now apply emits_extract_apps_from_db | intros; apply emits_ret].
      - intros e. apply emits_bind; [now apply emits_print | intros; apply emits_ret]. }
    intros [[|a rest]|]; [now apply emits_print | | apply emits_ret].
    apply emits_bind; [now apply emits_print|]. intros _.
    apply emits_bind; [now apply emits_load_cache|]. intros loaded.
    destruct (as_tag_cache loaded) as [cache|]; [|apply emits_unmodelled].
    apply emits_bind.
    { apply emits_main_loop; auto; intros; intros x Hx; discriminate. }
    intros v. unfold cluster_stage.
    destruct (app_vectors v) as [|x xs] eqn:Hv; [now apply emits_print|].
    apply emits_bind; [now apply emits_print|]. intros _.
    apply emits_bind; [now apply emits_print|]. intros _.
    apply emits_bind.
    { apply emits_call_fit_predict. intros m Hm. injection Hm as <-. discriminate. }
    intros clusters.
    apply emits_bind; [now apply emits_print|]. intros _.
    apply emits_bind; [apply emits_group_apps|].
    intros g. apply emits_emit. intros m Hm. discriminate. }
  destruct (Hem (start f)) as [new [Hnew Hall]].
  rewrite Hnew. cbn [start trace]. rewrite app_nil_r.
  intros Hin. rewrite Forall_forall in Hall. exact (Hall _ Hin matrix eq_refl).
Qed.

(** The sample run hands the clustering library the vector of the shop. *)
Lemma fit_predict_never_empty_witness :
  In (FitPredict [[1; 2]]) (trace (snd (main sample_env (start Absent)))) /\
  [[1; 2]] <> ([] : list vector).
Proof.
  assert (H : In (FitPredict [[1; 2]]) (trace (snd (main sample_env (start Absent))))).
  { vm_compute. tauto. }
  split; [exact H | exact (fit_predict_never_empty sample_env Absent _ H)].
Defined.

(** C9, amended.  In each fatal condition (no credential; no database
    file; a failing connection or query; no application extracted; no
    vector at the end of the loop) [main] prints the line of the
    condition last, makes no clustering call and builds no groups, and
    returns normally: the exit status of the process is 0. *)
Theorem fatal_errors_stop_with_status_zero
    (E : env) (f : file_state) (m : message) :
  fatal_condition E f m ->
  exists w',
    main E (start f) = (Ret tt, w') /\
    hd_error (trace w') = Some (Print m) /\
    exit_status E f = Some 0%Z /\
    Forall quiet (trace w').
Proof.
  intros Hfatal. unfold exit_status.
  destruct Hfatal as [Hkey | c0 k Hkey Hdb | c0 k e Hkey Hdb He | c0 k rows Hkey Hdb Hrows
                     | c0 k rows a rest loaded cache v w1 w2 Hkey Hdb Hrows Hload Hcache Hloop Hvec].
  - eexists. unfold main, try_except, bind, setup_gemini.
    destruct Hkey as [-> | ->]; cbn; repeat split; repeat constructor.
  - eexists. unfold main, try_except, bind, setup_gemini, extract_apps_from_db.
    rewrite Hkey, Hdb. cbn. repeat split; repeat constructor.
  - eexists. unfold main, setup_gemini, extract_apps_from_db.
    rewrite Hkey, Hdb. unfold try_except, bind, caught_by. cbn [print emit ret raise negb start trace cache_file existsb].
    rewrite He. cbn. repeat split; repeat constructor.
  - eexists. unfold main, try_except, bind, setup_gemini, extract_apps_from_db.
    rewrite Hkey, Hdb. cbn [print emit ret negb start trace cache_file].
    rewrite Hrows. cbn. repeat split; repeat constructor.
  - destruct (main_no_vectors E f c0 k rows a rest loaded cache v w1 w2
                Hkey Hdb Hrows Hload Hcache Hloop Hvec) as [Hmain Hq].
    exists (printing MsgNoVectors w2). rewrite Hmain. repeat split; auto.
Qed.

(** C9 without a credential. *)
Lemma fatal_errors_stop_with_status_zero_witness :
  exit_status no_key_env Absent = Some 0%Z.
Proof.
  destruct (fatal_errors_stop_with_status_zero no_key_env Absent (MsgError ValueError)
              (missing_credential no_key_env Absent (or_introl eq_refl)))
    as (w' & _ & _ & H & _).
  exact H.
Defined.

(** C9 as stated fails: the status is zero. *)
Lemma fatal_exit_status_counterexample :
  fatal_condition no_key_env Absent (MsgError ValueError) /\
  printed (snd (main no_key_env (start Absent))) = [MsgError ValueError] /\
  ~ (exists s, exit_status no_key_env Absent = Some s /\ s <> 0%Z).
Proof.
  split; [apply missing_credential; now left|].
  split; [reflexivity|].
  intros (s & Hs & Hne). vm_compute in Hs. injection Hs as <-. now apply Hne.
Qed.

(** ** The cache file *)

(** *** UTF-8: decoding what was encoded *)

Ltac Zify.zify_post_hook ::= Z.to_euclidean_division_equations.

(** Settle the comparisons of the goal that arithmetic decides. *)
Ltac decide_cmp :=
  repeat match goal with
  | |- context [N.ltb ?a ?b] =>
      first [ replace (N.ltb a b) with true by (symmetry; apply N.ltb_lt; lia)
            | replace (N.ltb a b) with false by (symmetry; apply N.ltb_ge; lia) ]
  | |- context [N.leb ?a ?b] =>
      first [ replace (N.leb a b) with true by (symmetry; apply N.leb_le; lia)
            | replace (N.leb a b) with false by (symmetry; apply N.leb_gt; lia) ]
  | |- context [N.eqb ?a ?b] =>
      first [ replace (N.eqb a b) with true by (symmetry; apply N.eqb_eq; lia)
            | replace (N.eqb a b) with false by (symmetry; apply N.eqb_neq; lia) ]
  end.

Lemma utf8_decode_cons (b0 : N) (r0 : bytes) :
  utf8_decode (b0 :: r0) =
  if b0 <? 128 then option_map (cons b0) (utf8_decode r0)
  else if (194 <=? b0) && (b0 <=? 223) then
    match r0 with
    | b1 :: r1 =>
        if is_cont b1
        then option_map (cons ((b0 - 192) * 64 + (b1 - 128))) (utf8_decode r1)
        else None
    | _ => None
    end
  else if (224 <=? b0) && (b0 <=? 239) then
    match r0 with
    | b1 :: b2 :: r2 =>
        let c := (b0 - 224) * 4096 + (b1 - 128) * 64 + (b2 - 128) in
        if is_cont b1 && is_cont b2 && (2048 <=? c) && negb (is_surrogate c)
        then option_map (cons c) (utf8_decode r2)
        else None
    | _ => None
    end
  else if (240 <=? b0) && (b0 <=? 244) then
    match r0 with
    | b1 :: b2 :: b3 :: r3 =>
        let c := (b0 - 240) * 262144 + (b1 - 128) * 4096
                 + (b2 - 128) * 64 + (b3 - 128) in
        if is_cont b1 && is_cont b2 && is_cont b3
           && (65536 <=? c) && (c <? 1114112)
        then option_map (cons c) (utf8_decode r3)
        else None
    | _ => None
    end
  else None.
Proof. reflexivity. Qed.

Lemma Some_eq {A : Type} (x y : A) : Some x = Some y -> y = x.
Proof. congruence. Qed.

Lemma utf8_decode_encode_char (c : char) (bs rest : bytes) :
  utf8_encode_char c = Some bs ->
  utf8_decode (bs ++ rest) = option_map (cons c) (utf8_decode rest).
Proof.
  unfold utf8_encode_char, is_surrogate.
  destruct (N.ltb_spec c 128) as [H1|H1].
  { intros H. apply Some_eq in H. subst bs. cbn [List.app]. rewrite utf8_decode_cons.
    decide_cmp. reflexivity. }
  destruct (N.ltb_spec c 2048) as [H2|H2].
  { intros H. apply Some_eq in H. subst bs. cbn [List.app]. rewrite utf8_decode_cons.
    unfold is_cont. decide_cmp. cbn [andb].
    replace ((192 + c / 64 - 192) * 64 + (128 + c mod 64 - 128)) with c by lia.
    reflexivity. }
  destruct ((55296 <=? c) && (c <=? 57343)) eqn:Hs; [discriminate|].
  destruct (N.ltb_spec c 65536) as [H3|H3].
  { intros H. apply Some_eq in H. subst bs. cbn [List.app]. rewrite utf8_decode_cons.
    cbv zeta. unfold is_cont, is_surrogate.
    replace ((224 + c / 4096 - 224) * 4096 + (128 + (c / 64) mod 64 - 128) * 64
             + (128 + c mod 64 - 128)) with c by lia.
    rewrite Hs. decide_cmp. reflexivity. }
  destruct (N.ltb_spec c 1114112) as [H4|H4]; [|discriminate].
  intros H. apply Some_eq in H. subst bs. cbn [List.app]. rewrite utf8_decode_cons.
  cbv zeta. unfold is_cont.
  replace ((240 + c / 262144 - 240) * 262144 + (128 + (c / 4096) mod 64 - 128) * 4096
           + (128 + (c / 64) mod 64 - 128) * 64 + (128 + c mod 64 - 128)) with c by lia.
  decide_cmp. reflexivity.
Qed.

Lemma utf8_decode_encode (s : str) (b : bytes) :
  utf8_encode s = Some b -> utf8_decode b = Some s.
Proof.
  revert b. induction s as [|c s IH]; intros b; cbn [utf8_encode].
  - intros H. now injection H as <-.
  - destruct (utf8_encode_char c) as [bc|] eqn:Hc; [|discriminate].
    destruct (utf8_encode s) as [bs|]; [|discriminate].
    intros H. injection H as <-.
    rewrite (utf8_decode_encode_char c bc bs Hc), (IH bs eq_refl). reflexivity.
Qed.

(** *** JSON: reading what was written *)

Lemma hexval_hexdigit (n : N) : n < 16 -> hexval (hexdigit n) = Some n.
Proof.
  intros Hn. unfold hexdigit, hexval.
  destruct (N.ltb_spec n 10) as [H|H]; decide_cmp; cbn [andb]; f_equal; lia.
Qed.

Lemma hex4_control (c : char) :
  c < 32 -> hex4 48 48 (hexdigit (c / 16)) (hexdigit (c mod 16)) = Some c.
Proof.
  intros Hc. unfold hex4.
  rewrite (hexval_hexdigit (c / 16)) by lia.
  rewrite (hexval_hexdigit (c mod 16)) by lia.
  change (hexval 48) with (Some 0). cbv iota beta. f_equal. lia.
Qed.

Lemma scanstring_cons (c : char) (r : str) :
  scanstring (c :: r) =
  if c =? 34 then Some ([], r)
  else if c =? 92 then
    match r with
    | [] => None
    | e :: r1 =>
        if e =? 117 then
          match r1 with
          | h1 :: h2 :: h3 :: h4 :: r2 =>
              match hex4 h1 h2 h3 h4 with
              | None => None
              | Some u =>
                  match r2 with
                  | b :: u' :: k1 :: k2 :: k3 :: k4 :: r3 =>
                      match (if is_high u then low_escape r2 else None) with
                      | Some (v, _) =>
                          cons_fst (65536 + ((u - 55296) * 1024 + (v - 56320)))
                                   (scanstring r3)
                      | None => cons_fst u (scanstring r2)
                      end
                  | _ => cons_fst u (scanstring r2)
                  end
              end
          | _ => None
          end
        else
          match unescape e with
          | Some ch => cons_fst ch (scanstring r1)
          | None => None
          end
    end
  else if c <? 32 then None
  else cons_fst c (scanstring r).
Proof. reflexivity. Qed.

Lemma scanstring_escape_char (c : char) (r : str) :
  scanstring (escape_char c ++ r) = cons_fst c (scanstring r).
Proof.
  unfold escape_char.
  destruct (N.eqb_spec c 34) as [->|H34]; [reflexivity|].
  destruct (N.eqb_spec c 92) as [->|H92]; [reflexivity|].
  destruct (N.eqb_spec c 10) as [->|H10]; [reflexivity|].
  destruct (N.eqb_spec c 13) as [->|H13]; [reflexivity|].
  destruct (N.eqb_spec c 9) as [->|H9]; [reflexivity|].
  destruct (N.eqb_spec c 8) as [->|H8]; [reflexivity|].
  destruct (N.eqb_spec c 12) as [->|H12]; [reflexivity|].
  destruct (N.ltb_spec c 32) as [Hlt|Hge].
  - cbn [List.app]. rewrite scanstring_cons.
    change (92 =? 34) with false. change (92 =? 92) with true.
    change (117 =? 117) with true. cbv iota.
    rewrite (hex4_control c Hlt).
    assert (Hh : is_high c = false).
    { unfold is_high. decide_cmp. reflexivity. }
    rewrite Hh.
    destruct r as [|a1 [|a2 [|a3 [|a4 [|a5 [|a6 r']]]]]]; reflexivity.
  - cbn [List.app]. rewrite scanstring_cons.
    decide_cmp. reflexivity.
Qed.

Lemma scanstring_escaped (s rest : str) :
  scanstring (flat_map escape_char s ++ 34 :: rest) = Some (s, rest).
Proof.
  induction s as [|c s IH]; cbn [flat_map List.app].
  - reflexivity.
  - rewrite <- app_assoc, scanstring_escape_char, IH. reflexivity.
Qed.

Lemma scan_once_S (f : nat) (s : str) :
  scan_once (S f) s =
  match s with
  | [] => None
  | c :: r =>
      if c =? 34 then
        match scanstring r with
        | Some (v, r') => Some (JStr v, r')
        | None => None
        end
      else if c =? 123 then
        match skip_ws r with
        | c1 :: r1 =>
            if c1 =? 125 then Some (JObj [], r1)
            else if c1 =? 34 then JSONObject f r1 []
            else None
        | [] => None
        end
      else if c =? 91 then
        match skip_ws r with
        | c1 :: r1 =>
            if c1 =? 93 then Some (JArr [], r1)
            else JSONArray f (c1 :: r1) []
        | [] => None
        end
      else scan_atom s
  end.
Proof. reflexivity. Qed.

Lemma JSONObject_S (f : nat) (s : str) (pairs : list (str * json)) :
  JSONObject (S f) s pairs =
  match scanstring s with
  | None => None
  | Some (key, s1) =>
      match skip_ws s1 with
      | c :: s2 =>
          if c =? 58 then
            match scan_once f (skip_ws s2) with
            | None => None
            | Some (value, s3) =>
                let pairs' := dict_set str_eqb pairs key value in
                match skip_ws s3 with
                | c' :: s4 =>
                    if c' =? 125 then Some (JObj pairs', s4)
                    else if c' =? 44 then
                      match skip_ws s4 with
                      | q :: s5 =>
                          if q =? 34 then JSONObject f s5 pairs' else None
                      | [] => None
                      end
                    else None
                | [] => None
                end
            end
          else None
      | [] => None
      end
  end.
Proof. reflexivity. Qed.

Lemma items_text_next (k v : str) (items : tag_cache) (tail : str) :
  List.concat (item_chunks false ((k, v) :: items)) ++ 10 :: 125 :: tail =
  44 :: 10 :: 32 :: 32 :: 32 :: 32 :: 34 :: items_text k v items tail.
Proof.
  unfold items_text. cbn [item_chunks List.concat List.app item_separator
    newline_indent encode_basestring key_separator].
  unfold item_separator, newline_indent, encode_basestring, key_separator.
  cbn [List.app]. f_equal. f_equal. f_equal. f_equal. f_equal. f_equal. f_equal.
  rewrite <- !app_assoc. f_equal. cbn [List.app]. f_equal. f_equal. f_equal. f_equal.
  rewrite <- !app_assoc. f_equal.
Qed.

Lemma JSONObject_items (items : tag_cache) (k v : str) (pairs : list (str * json))
    (fuel : nat) (tail : str) :
  (List.length items + 1 < fuel)%nat ->
  JSONObject fuel (items_text k v items tail) pairs =
  Some (JObj (fold_left add_pair ((k, v) :: items) pairs), tail).
Proof.
  revert k v pairs fuel. induction items as [|[k2 v2] items IH]; intros k v pairs fuel Hf.
  - destruct fuel as [|[|f]]; cbn [List.length] in Hf; try lia.
    rewrite JSONObject_S. unfold items_text.
    rewrite scanstring_escaped.
    change (skip_ws (58 :: 32 :: 34 :: ?r)) with (58 :: 32 :: 34 :: r).
    cbv iota beta. change (58 =? 58) with true. cbv iota.
    change (skip_ws (32 :: 34 :: ?r)) with (34 :: r).
    rewrite scan_once_S. change (34 =? 34) with true. cbv iota.
    rewrite scanstring_escaped. reflexivity.
  - destruct fuel as [|[|f]]; cbn [List.length] in Hf; try lia.
    rewrite JSONObject_S. unfold items_text at 1.
    rewrite scanstring_escaped.
    change (skip_ws (58 :: 32 :: 34 :: ?r)) with (58 :: 32 :: 34 :: r).
    cbv iota beta. change (58 =? 58) with true. cbv iota.
    change (skip_ws (32 :: 34 :: ?r)) with (34 :: r).
    rewrite scan_once_S. change (34 =? 34) with true. cbv iota.
    rewrite scanstring_escaped. cbv iota beta zeta.
    rewrite items_text_next.
    change (skip_ws (44 :: ?r)) with (44 :: r). cbv iota.
    change (44 =? 125) with false. change (44 =? 44) with true. cbv iota.
    change (skip_ws (10 :: 32 :: 32 :: 32 :: 32 :: 34 :: ?r)) with (34 :: r).
    cbv iota. change (34 =? 34) with true. cbv iota.
    rewrite IH by lia. reflexivity.
Qed.

Lemma add_pair_absent (d : list (str * json)) (k v : str) :
  ~ In k (dict_keys d) -> add_pair d (k, v) = d ++ [(k, JStr v)].
Proof.
  unfold add_pair. cbn [fst snd].
  induction d as [|[k' v'] d IH]; cbn [dict_set dict_keys List.map List.app fst]; intros Hno.
  - reflexivity.
  - destruct (str_eqb k' k) eqn:Hk.
    + apply str_eqb_eq in Hk. exfalso. apply Hno. now left.
    + rewrite IH; [reflexivity|]. intros H. apply Hno. now right.
Qed.

Lemma fold_add_pair (d : tag_cache) (acc : list (str * json)) :
  NoDup (dict_keys acc ++ dict_keys d) ->
  fold_left add_pair d acc = acc ++ List.map (fun kv => (fst kv, JStr (snd kv))) d.
Proof.
  revert acc. induction d as [|[k v] d IH]; intros acc Hnd; cbn [fold_left List.map].
  - now rewrite app_nil_r.
  - cbn [dict_keys List.map fst] in Hnd.
    rewrite add_pair_absent.
    + rewrite IH.
      * rewrite <- app_assoc. reflexivity.
      * unfold dict_keys in *. rewrite map_app. cbn [List.map fst].
        rewrite <- app_assoc. exact Hnd.
    + apply NoDup_remove_2 in Hnd. intros H. apply Hnd. apply in_or_app. now left.
Qed.

Lemma item_chunks_length (b : bool) (items : tag_cache) :
  (List.length items <= List.length (List.concat (item_chunks b items)))%nat.
Proof.
  revert b. induction items as [|[k v] items IH]; intros b; cbn [item_chunks List.length].
  - lia.
  - rewrite !concat_app, !length_app. specialize (IH false).
    cbn [List.concat List.length List.app encode_basestring key_separator].
    rewrite !length_app. cbn [List.length]. lia.
Qed.

Lemma json_dumps_cons (k v : str) (items : tag_cache) :
  json_dumps ((k, v) :: items) =
  123 :: 10 :: 32 :: 32 :: 32 :: 32 :: 34 :: items_text k v items [].
Proof.
  unfold json_dumps, dump_chunks, items_text.
  rewrite !concat_app. cbn [item_chunks List.app].
  cbn [List.concat]. unfold newline_indent, encode_basestring, key_separator.
  cbn [List.app]. do 7 f_equal.
  rewrite <- !app_assoc. f_equal. cbn [List.app]. do 4 f_equal.
  rewrite <- !app_assoc. f_equal.
Qed.

(** [json.loads] gives back the dictionary [json.dump] wrote. *)
Lemma json_loads_dumps (d : tag_cache) :
  well_formed d -> json_loads (json_dumps d) = Some (json_of_cache d).
Proof.
  intros Hwf. destruct d as [|[k v] items]; [reflexivity|].
  rewrite json_dumps_cons. unfold json_loads.
  change (skip_ws (123 :: ?r)) with (123 :: r).
  rewrite (Nat.add_succ_r (2 * _) 1).
  rewrite scan_once_S. cbv iota. change (123 =? 34) with false.
  change (123 =? 123) with true. cbv iota.
  change (skip_ws (10 :: 32 :: 32 :: 32 :: 32 :: 34 :: ?r)) with (34 :: r).
  cbv iota. change (34 =? 125) with false. change (34 =? 34) with true. cbv iota.
  rewrite JSONObject_items.
  - cbn [skip_ws]. unfold json_of_cache. f_equal. f_equal.
    rewrite (fold_add_pair ((k, v) :: items) []); [reflexivity|exact Hwf].
  - unfold items_text. repeat first [rewrite length_app | progress cbn [List.length]].
    pose proof (item_chunks_length false items). lia.
Qed.

Lemma json_dumps_not_empty (d : tag_cache) : json_dumps d <> [].
Proof.
  destruct d as [|[k v] items]; [discriminate|].
  rewrite json_dumps_cons. discriminate.
Qed.

Lemma as_tag_cache_json_of_cache (d : tag_cache) :
  as_tag_cache (json_of_cache d) = Some d.
Proof.
  unfold json_of_cache, as_tag_cache.
  induction d as [|[k v] d IH]; cbn [List.map as_tag_cache_members fst snd].
  - reflexivity.
  - now rewrite IH.
Qed.

(** Loading a file that holds the encoded dump of [d]. *)
Lemma load_cache_of_dump (d : tag_cache) (b : bytes) (w : world) :
  well_formed d ->
  utf8_encode (json_dumps d) = Some b ->
  cache_file w = Holds b ->
  load_cache w = (Ret (json_of_cache d), w).
Proof.
  intros Hwf Hb Hf.
  unfold load_cache, bind, cache_file_exists, try_except, read_cache_file.
  rewrite Hf. cbv beta iota. cbn [negb]. cbv beta iota. rewrite Hf.
  rewrite (utf8_decode_encode _ _ Hb).
  destruct (json_dumps d) as [|c content] eqn:Hd.
  - now apply json_dumps_not_empty in Hd.
  - rewrite <- Hd, (json_loads_dumps d Hwf). reflexivity.
Qed.

(** A save that reports success left the encoded dump in the file. *)
Lemma save_cache_success (E : env) (d : tag_cache) (w w' : world) :
  save_cache E d w = (Ret tt, w') ->
  hd_error (trace w') = Some (Print MsgCacheSaved) ->
  exists b, utf8_encode (json_dumps d) = Some b /\ cache_file w' = Holds b.
Proof.
  unfold save_cache, try_except, bind, write_cache_file.
  destruct (disk_write E (trace w)) as [|e f].
  - destruct (write_chunks (dump_chunks d) []) as [b [|]] eqn:Hw.
    + cbn. intros H _. injection H as <-.
      apply write_chunks_complete in Hw. destruct Hw as [enc [Henc ->]].
      exists enc. now split.
    + destruct (caught_by [OSError] UnicodeEncodeError) eqn:Hc; [discriminate Hc|].
      discriminate.
  - destruct (caught_by [OSError] e); [|discriminate].
    cbn. intros H Hhd. injection H as <-. cbn in Hhd. discriminate.
Qed.

Lemma cache_set_keys (d : tag_cache) (k v : str) :
  dict_keys (cache_set d k v) =
  match cache_get d k with
  | Some _ => dict_keys d
  | None => dict_keys d ++ [k]
  end.
Proof.
  unfold cache_set, cache_get, dict_keys.
  induction d as [|[k' v'] d IH]; cbn [dict_set dict_get List.map fst List.app].
  - reflexivity.
  - destruct (str_eqb k' k); cbn [List.map fst]; [reflexivity|].
    rewrite IH. destruct (dict_get str_eqb d k); reflexivity.
Qed.

Lemma cache_get_none_notin (d : tag_cache) (k : str) :
  cache_get d k = None -> ~ In k (dict_keys d).
Proof.
  unfold cache_get, dict_keys.
  induction d as [|[k' v'] d IH]; cbn [dict_get List.map fst]; [intros _ []|].
  destruct (str_eqb k' k) eqn:Hk; [discriminate|].
  intros H [Heq|Hin]; [|now apply IH].
  apply str_eqb_neq in Hk. contradiction.
Qed.

Lemma cache_set_well_formed (d : tag_cache) (k v : str) :
  well_formed d -> well_formed (cache_set d k v).
Proof.
  unfold well_formed. intros Hwf. rewrite cache_set_keys.
  destruct (cache_get d k) eqn:Hk; [exact Hwf|].
  apply NoDup_app; [exact Hwf | repeat constructor; intros [] | ].
  intros x Hx [Heq|[]]. subst x. now apply (cache_get_none_notin d k Hk).
Qed.

(** C7, amended.  Round trip: for a dictionary of strings that
    [save_cache] writes successfully (it reports success, which takes a
    disk that accepts the write and keys and tags that can be encoded
    as UTF-8), [load_cache] on the file it left returns that
    dictionary; a lookup after an insert returns the inserted tag, in
    memory and again after saving and loading the dictionary. *)
Theorem cache_round_trip (E : env) (d : tag_cache) (w w' : world) :
  well_formed d ->
  save_cache E d w = (Ret tt, w') ->
  hd_error (trace w') = Some (Print MsgCacheSaved) ->
  load_cache w' = (Ret (json_of_cache d), w') /\
  as_tag_cache (json_of_cache d) = Some d /\
  (forall p t, cache_get (cache_set d p t) p = Some t) /\
  (forall p t w1 w1',
      save_cache E (cache_set d p t) w1 = (Ret tt, w1') ->
      hd_error (trace w1') = Some (Print MsgCacheSaved) ->
      exists c, load_cache w1' = (Ret (json_of_cache c), w1') /\
                as_tag_cache (json_of_cache c) = Some c /\
                cache_get c p = Some t).
Proof.
  intros Hwf Hsave Hok.
  destruct (save_cache_success E d w w' Hsave Hok) as [b [Hb Hf]].
  split; [exact (load_cache_of_dump d b w' Hwf Hb Hf)|].
  split; [apply as_tag_cache_json_of_cache|].
  split; [intros p t; apply cache_get_set_same|].
  intros p t w1 w1' Hsave1 Hok1.
  destruct (save_cache_success E _ w1 w1' Hsave1 Hok1) as [b1 [Hb1 Hf1]].
  exists (cache_set d p t). split.
  - apply (load_cache_of_dump _ b1 w1'); auto. now apply cache_set_well_formed.
  - split; [apply as_tag_cache_json_of_cache | apply cache_get_set_same].
Qed.

(** C7, amended, at a dictionary with the two sample packages. *)
Lemma cache_round_trip_witness :
  load_cache saved_world =
    (Ret (json_of_cache [(shop_package, shop_tags); (video_package, SENTINEL)]),
     saved_world).
Proof.
  refine (proj1 (cache_round_trip sample_env
                   [(shop_package, shop_tags); (video_package, SENTINEL)]
                   (start Absent) saved_world _ _ _)).
  - unfold well_formed. cbn. repeat constructor; cbn; intuition discriminate.
  - vm_compute. reflexivity.
  - reflexivity.
Defined.

(** C7 as stated fails for a dictionary with a tag that holds a lone
    surrogate (the save raises and leaves a text that is no dictionary)
    and on a disk that refuses the write (the save logs the error and
    nothing is stored): what is read back is the empty dictionary. *)
Lemma cache_round_trip_counterexample :
  (save_cache sample_env [([97], [97; 55296])] (start Absent) =
     (Raise UnicodeEncodeError,
      snd (save_cache sample_env [([97], [97; 55296])] (start Absent))) /\
   fst (load_cache (snd (save_cache sample_env [([97], [97; 55296])] (start Absent))))
     = Ret (JObj []) /\
   json_of_cache [([97], [97; 55296])] <> JObj []) /\
  (save_cache full_disk_env [(shop_package, shop_tags)] (start Absent) =
     (Ret tt, snd (save_cache full_disk_env [(shop_package, shop_tags)] (start Absent))) /\
   fst (load_cache (snd (save_cache full_disk_env [(shop_package, shop_tags)]
                           (start Absent))))
     = Ret (JObj []) /\
   json_of_cache [(shop_package, shop_tags)] <> JObj []).
Proof.
  split; (split; [vm_compute; reflexivity|]); (split; [vm_compute; reflexivity | discriminate]).
Qed.

(** ** The fuel of the JSON decoder *)

Lemma skip_ws_length (s : str) : (List.length (skip_ws s) <= List.length s)%nat.
Proof.
  induction s as [|c s IH]; cbn [skip_ws List.length]; [lia|].
  destruct (is_ws c); cbn [List.length]; lia.
Qed.

Lemma strip_prefix_length (p s r : str) :
  strip_prefix p s = Some r -> (List.length r <= List.length s)%nat.
Proof.
  revert s. induction p as [|x p IH]; intros s H; cbn [strip_prefix] in H.
  - apply Some_eq in H. subst r. lia.
  - destruct s as [|y s]; [discriminate|].
    destruct (x =? y); [|discriminate].
    apply IH in H. cbn [List.length]. lia.
Qed.

Lemma digits_length (s : str) :
  (List.length (snd (digits s)) <= List.length s)%nat.
Proof.
  induction s as [|c s IH]; cbn [digits snd List.length]; [lia|].
  destruct (is_digit c); [|cbn [snd List.length]; lia].
  destruct (digits s) as [ds r]. cbn [snd] in *. lia.
Qed.

Lemma match_int_length (s i r : str) :
  match_int s = Some (i, r) -> (List.length r < List.length s)%nat.
Proof.
  unfold match_int.
  assert (Hgen : forall (sign s1 : str),
    (List.length s1 <= List.length s)%nat ->
    match s1 with
    | c :: r0 =>
        if c =? 48 then Some (sign ++ [48], r0)
        else if is_digit c then let (ds, r') := digits r0 in Some (sign ++ c :: ds, r')
        else None
    | [] => None
    end = Some (i, r) -> (List.length r < List.length s)%nat).
  { intros sign s1 Hle H. destruct s1 as [|c r0]; [discriminate|].
    cbn [List.length] in Hle.
    destruct (c =? 48).
    - inversion H; subst. lia.
    - destruct (is_digit c); [|discriminate].
      pose proof (digits_length r0) as Hd.
      destruct (digits r0) as [ds r']. cbn [snd] in Hd.
      inversion H; subst. lia. }
  destruct s as [|c r0].
  - intros H. discriminate.
  - destruct (c =? 45).
    + apply (Hgen [45] r0). cbn [List.length]. lia.
    + apply (Hgen [] (c :: r0)). lia.
Qed.

Lemma match_frac_length (s : str) :
  (List.length (snd (match_frac s)) <= List.length s)%nat.
Proof.
  unfold match_frac. destruct s as [|c r]; [cbn; lia|].
  destruct (c =? 46); [|cbn [snd]; lia].
  pose proof (digits_length r) as Hd.
  destruct (digits r) as [[|d ds] r']; cbn [snd] in *; cbn [List.length]; lia.
Qed.

Lemma match_exp_length (s : str) :
  (List.length (snd (match_exp s)) <= List.length s)%nat.
Proof.
  unfold match_exp. destruct s as [|e r]; [cbn; lia|].
  destruct ((e =? 101) || (e =? 69)); [|cbn [snd]; lia].
  assert (Hgen : forall (sign r1 : str), (List.length r1 <= List.length r)%nat ->
    (List.length (snd (match digits r1 with
                       | ([], _) => ([], e :: r)
                       | (ds, r') => (e :: sign ++ ds, r')
                       end)) <= List.length (e :: r))%nat).
  { intros sign r1 Hle. pose proof (digits_length r1) as Hd.
    destruct (digits r1) as [[|d ds] r']; cbn [snd] in *; cbn [List.length]; lia. }
  destruct r as [|c r'].
  - apply (Hgen [] []). lia.
  - destruct ((c =? 45) || (c =? 43)).
    + apply (Hgen [c] r'). cbn [List.length]. lia.
    + apply (Hgen [] (c :: r')). lia.
Qed.

Lemma match_number_length (s n r : str) :
  match_number s = Some (n, r) -> (List.length r < List.length s)%nat.
Proof.
  unfold match_number. destruct (match_int s) as [[i r0]|] eqn:Hi; [|discriminate].
  apply match_int_length in Hi.
  pose proof (match_frac_length r0) as Hf.
  destruct (match_frac r0) as [f r1]. cbn [snd] in Hf.
  pose proof (match_exp_length r1) as He.
  destruct (match_exp r1) as [e r2]. cbn [snd] in He.
  intros H. inversion H; subst. lia.
Qed.

Lemma scan_atom_length (s : str) (v : json) (r : str) :
  scan_atom s = Some (v, r) -> (List.length r <= List.length s)%nat.
Proof.
  unfold scan_atom.
  destruct (strip_prefix lit_null s) eqn:H1.
  { intros H. inversion H; subst. eapply strip_prefix_length; eassumption. }
  destruct (strip_prefix lit_true s) eqn:H2.
  { intros H. inversion H; subst. eapply strip_prefix_length; eassumption. }
  destruct (strip_prefix lit_false s) eqn:H3.
  { intros H. inversion H; subst. eapply strip_prefix_length; eassumption. }
  destruct (match_number s) as [[n r0]|] eqn:H4.
  { intros H. inversion H; subst. apply match_number_length in H4. lia. }
  destruct (strip_prefix lit_NaN s) eqn:H5.
  { intros H. inversion H; subst. eapply strip_prefix_length; eassumption. }
  destruct (strip_prefix lit_Infinity s) eqn:H6.
  { intros H. inversion H; subst. eapply strip_prefix_length; eassumption. }
  destruct (strip_prefix lit_minus_Infinity s) eqn:H7.
  { intros H. inversion H; subst. eapply strip_prefix_length; eassumption. }
  discriminate.
Qed.

Lemma cons_fst_Some {A B : Type} (a : A) (x : option (list A * B)) (l : list A) (b : B) :
  cons_fst a x = Some (l, b) -> exists l', x = Some (l', b).
Proof.
  destruct x as [[l' b']|]; cbn [cons_fst]; intros H; [|discriminate].
  inversion H; subst. now exists l'.
Qed.

Lemma scanstring_length_bound (n : nat) (s v r : str) :
  (List.length s <= n)%nat ->
  scanstring s = Some (v, r) -> (List.length r < List.length s)%nat.
Proof.
  revert s v r. induction n as [|n IH]; intros s v r Hn H.
  - destruct s; [discriminate|cbn [List.length] in Hn; lia].
  - destruct s as [|c s]; [discriminate|].
    rewrite scanstring_cons in H. cbn [List.length] in Hn |- *.
    destruct (c =? 34).
    { inversion H; subst. lia. }
    destruct (c =? 92).
    { destruct s as [|e r1]; [discriminate|].
      destruct (e =? 117).
      - destruct r1 as [|h1 [|h2 [|h3 [|h4 r2]]]]; try discriminate.
        destruct (hex4 h1 h2 h3 h4) as [u|]; [|discriminate].
        cbn [List.length] in Hn |- *.
        assert (Hplain : forall x, cons_fst x (scanstring r2) = Some (v, r) ->
                  (List.length r < S (S (S (S (S (S (List.length r2)))))))%nat).
        { intros x Hx. apply cons_fst_Some in Hx. destruct Hx as [l' Hx].
          apply IH in Hx; lia. }
        destruct r2 as [|b [|u' [|k1 [|k2 [|k3 [|k4 r3]]]]]];
          try (apply Hplain in H; exact H).
        destruct (if is_high u then low_escape (b :: u' :: k1 :: k2 :: k3 :: k4 :: r3) else None)
          as [[v0 r0]|].
        + apply cons_fst_Some in H. destruct H as [l' H].
          apply IH in H; cbn [List.length] in *; lia.
        + apply Hplain in H. exact H.
      - destruct (unescape e); [|discriminate].
        apply cons_fst_Some in H. destruct H as [l' H].
        cbn [List.length] in Hn |- *. apply IH in H; lia. }
    destruct (c <? 32); [discriminate|].
    apply cons_fst_Some in H. destruct H as [l' H].
    apply IH in H; lia.
Qed.

Lemma scanstring_length (s v r : str) :
  scanstring s = Some (v, r) -> (List.length r < List.length s)%nat.
Proof. apply (scanstring_length_bound (List.length s)). lia. Qed.

Lemma JSONArray_S (f : nat) (s : str) (values : list json) :
  JSONArray (S f) s values =
  match scan_once f s with
  | None => None
  | Some (value, s1) =>
      let values' := values ++ [value] in
      match skip_ws s1 with
      | c :: s2 =>
          if c =? 93 then Some (JArr values', s2)
          else if c =? 44 then JSONArray f (skip_ws s2) values'
          else None
      | [] => None
      end
  end.
Proof. reflexivity. Qed.

(** What the decoder leaves is never longer than what it was given. *)
Lemma scan_length (n : nat) :
  (forall (s : str) v (r : str),
     scan_once n s = Some (v, r) -> (List.length r <= List.length s)%nat) /\
  (forall (s : str) p v (r : str),
     JSONObject n s p = Some (v, r) -> (List.length r <= List.length s)%nat) /\
  (forall (s : str) vs v (r : str),
     JSONArray n s vs = Some (v, r) -> (List.length r <= List.length s)%nat).
Proof.
  induction n as [|n [IHs [IHo IHa]]].
  - repeat split; intros; discriminate.
  - repeat split.
    + intros s v r H. rewrite scan_once_S in H.
      destruct s as [|c s0]; [discriminate|]. cbn [List.length].
      destruct (c =? 34).
      { destruct (scanstring s0) as [[v0 r0]|] eqn:Hs; [|discriminate].
        inversion H; subst. apply scanstring_length in Hs. lia. }
      destruct (c =? 123).
      { pose proof (skip_ws_length s0) as Hw.
        destruct (skip_ws s0) as [|c1 r1]; [discriminate|]. cbn [List.length] in Hw.
        destruct (c1 =? 125); [inversion H; subst; lia|].
        destruct (c1 =? 34); [|discriminate]. apply IHo in H. lia. }
      destruct (c =? 91).
      { pose proof (skip_ws_length s0) as Hw.
        destruct (skip_ws s0) as [|c1 r1]; [discriminate|]. cbn [List.length] in Hw.
        destruct (c1 =? 93); [inversion H; subst; lia|].
        apply IHa in H. cbn [List.length] in H. lia. }
      apply scan_atom_length in H. exact H.
    + intros s p v r H. rewrite JSONObject_S in H.
      destruct (scanstring s) as [[key s1]|] eqn:Hs; [|discriminate].
      apply scanstring_length in Hs.
      pose proof (skip_ws_length s1) as Hw1.
      destruct (skip_ws s1) as [|c s2]; [discriminate|]. cbn [List.length] in Hw1.
      destruct (c =? 58); [|discriminate].
      pose proof (skip_ws_length s2) as Hw2.
      destruct (scan_once n (skip_ws s2)) as [[value s3]|] eqn:Hv; [|discriminate].
      apply IHs in Hv. cbv zeta in H.
      pose proof (skip_ws_length s3) as Hw3.
      destruct (skip_ws s3) as [|c' s4]; [discriminate|]. cbn [List.length] in Hw3.
      destruct (c' =? 125); [inversion H; subst; lia|].
      destruct (c' =? 44); [|discriminate].
      pose proof (skip_ws_length s4) as Hw4.
      destruct (skip_ws s4) as [|q s5]; [discriminate|]. cbn [List.length] in Hw4.
      destruct (q =? 34); [|discriminate].
      apply IHo in H. lia.
    + intros s vs v r H. rewrite JSONArray_S in H.
      destruct (scan_once n s) as [[value s1]|] eqn:Hv; [|discriminate].
      apply IHs in Hv. cbv zeta in H.
      pose proof (skip_ws_length s1) as Hw1.
      destruct (skip_ws s1) as [|c s2]; [discriminate|]. cbn [List.length] in Hw1.
      destruct (c =? 93); [inversion H; subst; lia|].
      destruct (c =? 44); [|discriminate].
      pose proof (skip_ws_length s2) as Hw2.
      apply IHa in H. lia.
Qed.

(** Two calls of the decoder at most follow each other without a
    character being consumed, so past twice the length of the text the
    fuel no longer matters. *)
Lemma scan_fuel (n : nat) :
  forall m, (n <= m)%nat ->
  (forall s : str, (2 * List.length s + 1 < n)%nat -> scan_once m s = scan_once n s) /\
  (forall (s : str) p, (2 * List.length s + 2 < n)%nat -> JSONObject m s p = JSONObject n s p) /\
  (forall (s : str) vs, (2 * List.length s + 2 < n)%nat -> JSONArray m s vs = JSONArray n s vs).
Proof.
  induction n as [|n IH]; intros m Hm.
  - repeat split; intros; lia.
  - destruct m as [|m]; [lia|].
    destruct (IH m ltac:(lia)) as [IHs [IHo IHa]].
    destruct (scan_length n) as [Ls [Lo La]].
    repeat split.
    + intros s Hn. rewrite !scan_once_S.
      destruct s as [|c s0]; [reflexivity|]. cbn [List.length] in Hn.
      destruct (c =? 34); [reflexivity|].
      destruct (c =? 123).
      { pose proof (skip_ws_length s0) as Hw.
        destruct (skip_ws s0) as [|c1 r1]; [reflexivity|]. cbn [List.length] in Hw.
        destruct (c1 =? 125); [reflexivity|].
        destruct (c1 =? 34); [|reflexivity]. apply IHo. lia. }
      destruct (c =? 91); [|reflexivity].
      pose proof (skip_ws_length s0) as Hw.
      destruct (skip_ws s0) as [|c1 r1]; [reflexivity|]. cbn [List.length] in Hw.
      destruct (c1 =? 93); [reflexivity|].
      apply IHa. cbn [List.length]. lia.
    + intros s p Hn. rewrite !JSONObject_S.
      destruct (scanstring s) as [[key s1]|] eqn:Hs; [|reflexivity].
      apply scanstring_length in Hs.
      pose proof (skip_ws_length s1) as Hw1.
      destruct (skip_ws s1) as [|c s2]; [reflexivity|]. cbn [List.length] in Hw1.
      destruct (c =? 58); [|reflexivity].
      pose proof (skip_ws_length s2) as Hw2.
      rewrite (IHs (skip_ws s2)) by lia.
      destruct (scan_once n (skip_ws s2)) as [[value s3]|] eqn:Hv; [|reflexivity].
      apply Ls in Hv. cbv zeta.
      pose proof (skip_ws_length s3) as Hw3.
      destruct (skip_ws s3) as [|c' s4]; [reflexivity|]. cbn [List.length] in Hw3.
      destruct (c' =? 125); [reflexivity|].
      destruct (c' =? 44); [|reflexivity].
      pose proof (skip_ws_length s4) as Hw4.
      destruct (skip_ws s4) as [|q s5]; [reflexivity|]. cbn [List.length] in Hw4.
      destruct (q =? 34); [|reflexivity].
      apply IHo. lia.
    + intros s vs Hn. rewrite !JSONArray_S.
      rewrite (IHs s) by lia.
      destruct (scan_once n s) as [[value s1]|] eqn:Hv; [|reflexivity].
      apply Ls in Hv. cbv zeta.
      pose proof (skip_ws_length s1) as Hw1.
      destruct (skip_ws s1) as [|c s2]; [reflexivity|]. cbn [List.length] in Hw1.
      destruct (c =? 93); [reflexivity|].
      destruct (c =? 44); [|reflexivity].
      pose proof (skip_ws_length s2) as Hw2.
      apply IHa. lia.
Qed.

(** The fuel [json_loads] gives the decoder is enough: with any amount
    more, the decoder returns the same value or fails alike, on every
    text. *)
Theorem json_loads_fuel_is_enough (content : str) (more : nat) :
  scan_once (2 * List.length content + 2 + more) (skip_ws content) =
  scan_once (2 * List.length content + 2) (skip_ws content).
Proof.
  pose proof (skip_ws_length content) as Hw.
  apply (scan_fuel (2 * List.length content + 2)); lia.
Qed.

(** ** Cache hits, and the cache file that cannot be read *)

Lemma cache_get_in_keys (d : tag_cache) (p : str) :
  In p (dict_keys d) -> cache_get d p <> None.
Proof.
  intros Hin Hnone. exact (cache_get_none_notin d p Hnone Hin).
Qed.

(** C1.  When the package of the application at hand is already a key
    of the tag cache, the turn of the loop goes on with the cached tag
    and calls the classifier neither for it nor for anything else,
    also when the cached tag is the sentinel (the application is then
    skipped and the variables are left as they were).  Over any run of
    the loop from that cache, a package that is a key of the cache is
    never classified, and no package is classified more than once. *)
Theorem cache_hit_is_authoritative
    (E : env) (a : app) (v : loop_vars) (w : world) (t : str) :
  cache_get (app_tags_cache v) (package a) = Some t ->
  loop_body E a v w =
    after_tags E a v (t, app_tags_cache v)
      (printing MsgCacheHit (printing (MsgProcessing (name a) (package a)) w)) /\
  (exists new, trace (snd (loop_body E a v w)) = new ++ trace w /\
               Forall (fun e => ~ is_generate e) new) /\
  (t = SENTINEL ->
   loop_body E a v w =
     (Ret (mk_vars (app_tags_cache v) (processed_apps v) (app_vectors v)),
      printing MsgSkipped (printing (MsgTags SENTINEL)
        (printing MsgCacheHit (printing (MsgProcessing (name a) (package a)) w))))) /\
  (forall apps w0 p,
      (In p (dict_keys (app_tags_cache v)) ->
       classified p (trace (snd (main_loop E apps v w0))) = classified p (trace w0)) /\
      (classified p (trace (snd (main_loop E apps v w0)))
       <= S (classified p (trace w0)))%nat).
Proof.
  intros Hhit.
  assert (Hbody : loop_body E a v w =
    after_tags E a v (t, app_tags_cache v)
      (printing MsgCacheHit (printing (MsgProcessing (name a) (package a)) w))).
  { rewrite loop_body_unfold. unfold bind at 1. cbn [print emit].
    unfold lookup_or_classify. rewrite Hhit. reflexivity. }
  split; [exact Hbody|]. split; [|split].
  - apply (emits_loop_body_hit (fun e => ~ is_generate e)) with (t := t); auto.
  - intros ->. rewrite Hbody. apply after_tags_sentinel.
  - intros apps w0 p. destruct (main_loop_classified E apps v w0 p) as [Hin Hle].
    split; [|exact Hle]. intros Hp. apply Hin. now apply cache_get_in_keys.
Qed.

(** C1 at the shop, cached with the sentinel. *)
Lemma cache_hit_is_authoritative_witness :
  cache_get [(shop_package, SENTINEL)] (package shop_app) = Some SENTINEL /\
  loop_body sample_env shop_app (mk_vars [(shop_package, SENTINEL)] [] []) (start Absent) =
    (Ret (mk_vars [(shop_package, SENTINEL)] [] []),
     printing MsgSkipped (printing (MsgTags SENTINEL)
       (printing MsgCacheHit
          (printing (MsgProcessing shop_title shop_package) (start Absent))))).
Proof.
  split; [reflexivity|].
  exact (proj1 (proj2 (proj2
           (cache_hit_is_authoritative sample_env shop_app
              (mk_vars [(shop_package, SENTINEL)] [] []) (start Absent) SENTINEL eq_refl)))
           eq_refl).
Defined.

(** *** [load_cache] on the states of the file *)


(** An empty cache file: the empty dictionary, and nothing printed. *)
Lemma load_cache_empty (w : world) :
  cache_file w = Holds [] -> load_cache w = (Ret (JObj []), w).
Proof.
  intros Hf. unfold load_cache, bind, cache_file_exists, try_except, read_cache_file.
  rewrite Hf. cbv beta iota. cbn [negb]. cbv beta iota. rewrite Hf. reflexivity.
Qed.

(** A cache file that holds text, but not a JSON document, within the
    limits of the decoder (no nesting that could exhaust the recursion
    limit, no integer too long to convert): [json.loads] raises
    [JSONDecodeError], which [load_cache] catches; it prints the warning
    and returns the empty dictionary. *)
Lemma load_cache_unparsable (w : world) (b : bytes) (content : str) :
  cache_file w = Holds b -> utf8_decode b = Some content ->
  content <> [] -> json_loads content = None ->
  (openers content <= MAX_NESTING)%nat ->
  (longest_digit_run content <= INT_MAX_STR_DIGITS)%nat ->
  load_cache w = (Ret (JObj []), printing (MsgCacheReadFailed JSONDecodeError) w).
Proof.
  intros Hf Hd Hne Hj _ _.
  unfold load_cache, bind, cache_file_exists, try_except, read_cache_file.
  rewrite Hf. cbv beta iota. cbn [negb]. cbv beta iota. rewrite Hf, Hd.
  destruct content as [|c content]; [contradiction|].
  rewrite Hj. reflexivity.
Qed.

(** A cache file that holds an opening brace and nothing else. *)
Lemma load_cache_unparsable_witness :
  load_cache (start (Holds [123])) =
    (Ret (JObj []), printing (MsgCacheReadFailed JSONDecodeError) (start (Holds [123]))).
Proof.
  apply (load_cache_unparsable (start (Holds [123])) [123] [123]).
  - reflexivity.
  - reflexivity.
  - discriminate.
  - reflexivity.
  - unfold openers, MAX_NESTING. cbn. lia.
  - unfold longest_digit_run, INT_MAX_STR_DIGITS. cbn. lia.
Defined.

(** A cache file that cannot be opened or read: the same, for [OSError]. *)
Lemma load_cache_io_error (w : world) (e : pyclass) :
  cache_file w = Unreadable e -> issubclass e OSError = true ->
  load_cache w = (Ret (JObj []), printing (MsgCacheReadFailed e) w).
Proof.
  intros Hf He.
  unfold load_cache, bind, cache_file_exists, try_except, read_cache_file, caught_by.
  rewrite Hf. cbv beta iota. cbn [negb existsb]. cbv beta iota. rewrite Hf, He.
  reflexivity.
Qed.

(** A cache file whose bytes are not UTF-8: [f.read()] raises
    [UnicodeDecodeError], which no clause of [load_cache] catches. *)
Lemma load_cache_undecodable (w : world) (b : bytes) :
  cache_file w = Holds b -> utf8_decode b = None ->
  load_cache w = (Raise UnicodeDecodeError, w).
Proof.
  intros Hf Hd.
  unfold load_cache, bind, cache_file_exists, try_except, read_cache_file.
  rewrite Hf. cbv beta iota. cbn [negb]. cbv beta iota. rewrite Hf, Hd.
  reflexivity.
Qed.

(** C4, the code at the failing input.  On a cache file whose bytes
    are not valid UTF-8 (a file cut inside a multi-byte character),
    reading raises [UnicodeDecodeError]; the clause
    [except (IOError, json.JSONDecodeError)] does not catch it, so
    [load_cache] raises to its caller, and [main] ends with the
    exception and exit status 1. *)
Theorem load_cache_raises_on_truncated_utf8 :
  load_cache (start (Holds truncated_cache)) =
    (Raise UnicodeDecodeError, start (Holds truncated_cache)) /\
  caught_by [OSError; JSONDecodeError] UnicodeDecodeError = false /\
  fst (main sample_env (start (Holds truncated_cache))) = Raise UnicodeDecodeError /\
  exit_status sample_env (Holds truncated_cache) = Some 1%Z.
Proof. repeat split; vm_compute; reflexivity. Qed.



(** ** Further properties *)


(** ** The demonstration database *)

(** Each tuple of [data] has 25 values and the statement 26
    placeholders: the first tuple already fails to bind. *)
Lemma executemany_data (S : sqlite3) (pending : favorites_table) :
  executemany S INSERT_SQL data pending = inl ProgrammingError.
Proof. reflexivity. Qed.

Lemma fill_dummy_db_fails (S : sqlite3) :
  fill_dummy_db S =
    match execute_create S with
    | Some e => inl (Raised e, DbFails Sqlite3OperationalError)
    | None => inl (ProgrammingError, DbRows [])
    end.
Proof.
  unfold fill_dummy_db. destruct (execute_create S); [reflexivity|].
  now rewrite executemany_data.
Qed.

(** [create_dummy_db] never stores a row.  When the file exists it is
    left as it is.  When it does not and the call returns, the file
    holds the table without any row, the three tuples having been
    refused with [ProgrammingError] (25 values each for 26
    placeholders), or no table at all if creating it failed. *)
Theorem create_dummy_db_stores_no_row
    (S : sqlite3) (d d' : database) (lines : list creation_message) :
  create_dummy_db S d = (lines, Returns d') ->
  (d <> DbAbsent -> d' = d /\ lines = [MsgDbExists]) /\
  (d = DbAbsent ->
     connect S = None /\
     ((execute_create S = None /\ d' = DbRows [] /\
       lines = [MsgCreatingDb; MsgCreateFailed ProgrammingError]) \/
      (exists e, execute_create S = Some e /\ issubclass e Sqlite3Error = true /\
                 d' = DbFails Sqlite3OperationalError /\
                 lines = [MsgCreatingDb; MsgCreateFailed (Raised e)]))).
Proof.
  unfold create_dummy_db. rewrite fill_dummy_db_fails.
  destruct d as [|e0|rows].
  - destruct (connect S) as [e|]; [discriminate|].
    destruct (execute_create S) as [e|] eqn:Hc.
    + cbn [is_sqlite3_error].
      destruct (issubclass e Sqlite3Error) eqn:Hsub; [|discriminate].
      intros H. injection H as <- <-.
      split; [intros Hd; now elim Hd|]. intros _. split; [reflexivity|].
      right. exists e. auto.
    + cbn [is_sqlite3_error]. intros H. injection H as <- <-.
      split; [intros Hd; now elim Hd|]. intros _. split; [reflexivity|].
      left. auto.
  - intros H. injection H as <- <-. split; [auto | discriminate].
  - intros H. injection H as <- <-. split; [auto | discriminate].
Qed.

(** On a new file and a library in working order. *)
Lemma create_dummy_db_stores_no_row_witness :
  create_dummy_db healthy_sqlite3 DbAbsent =
    ([MsgCreatingDb; MsgCreateFailed ProgrammingError], Returns (DbRows [])) /\
  connect healthy_sqlite3 = None.
Proof.
  split; [reflexivity|].
  exact (proj1 (proj2 (create_dummy_db_stores_no_row healthy_sqlite3 DbAbsent (DbRows [])
                  [MsgCreatingDb; MsgCreateFailed ProgrammingError] eq_refl) eq_refl)).
Defined.

(** [create_dummy_db] ends with [UnboundLocalError] exactly when the
    file is new and [sqlite3.connect] raises, whatever it raises: the
    [finally] clause tests [conn], which was never bound.  No other
    exception leaves it unless the library raises one that is not an
    [sqlite3.Error]. *)
Theorem create_dummy_db_unbound_conn (S : sqlite3) (d : database) :
  (snd (create_dummy_db S d) = Escapes UnboundLocalError <->
   d = DbAbsent /\ connect S <> None) /\
  (forall e, snd (create_dummy_db S d) = Escapes e ->
     e = UnboundLocalError \/
     exists c, e = Raised c /\ issubclass c Sqlite3Error = false).
Proof.
  unfold create_dummy_db. rewrite fill_dummy_db_fails.
  destruct d as [|e0|rows]; cbn [snd].
  - destruct (connect S) as [c|] eqn:Hconn; cbn [snd].
    + split.
      * split; [intros _; split; [reflexivity | discriminate] | reflexivity].
      * intros e H. injection H as <-. now left.
    + destruct (execute_create S) as [c|].
      * cbn [is_sqlite3_error]. destruct (issubclass c Sqlite3Error) eqn:Hsub; cbn [snd].
        -- split; [split; [discriminate | intros [_ H]; now elim H] | discriminate].
        -- split; [split; [discriminate | intros [_ H]; now elim H]|].
           intros e H. injection H as <-. right. now exists c.
      * cbn [is_sqlite3_error snd].
        split; [split; [discriminate | intros [_ H]; now elim H] | discriminate].
  - split; [split; [discriminate | intros [H _]; discriminate] | discriminate].
  - split; [split; [discriminate | intros [H _]; discriminate] | discriminate].
Qed.

(** Started without a database file, the script never prints a package:
    whatever the sqlite3 library does, it either ends with the
    exception of [create_dummy_db], or [extract_package_info] runs on a
    file without rows and prints no line "package,name".  With the
    library in working order it prints the two lines of
    [create_dummy_db] and the heading of the results, and returns. *)
Theorem launcher_script_prints_no_package (S : sqlite3) (E : env) (w : world) :
  db E = DbAbsent ->
  (forall lines r w',
     launcher_script S E w = (lines, Extracted (r, w')) ->
     exists new, trace w' = new ++ trace w /\ Forall no_package_line new) /\
  (connect S = None -> execute_create S = None ->
     launcher_script S E w =
       ([MsgCreatingDb; MsgCreateFailed ProgrammingError],
        Extracted (Ret tt, printing MsgResults w))).
Proof.
  intros Hdb. unfold launcher_script. rewrite Hdb. split.
  - intros lines r w'.
    destruct (create_dummy_db S DbAbsent) as [ls [d'|e]] eqn:Hc; [|discriminate].
    destruct (proj2 (create_dummy_db_stores_no_row S DbAbsent d' ls Hc) eq_refl)
      as [_ [[_ [-> _]] | [e [_ [_ [-> _]]]]]].
    + intros H. injection H as _ _ <-.
      exists [Print MsgResults]. split; [reflexivity | repeat constructor].
    + unfold extract_package_info, with_db, try_except, raise. cbn [db].
      destruct (caught_by [Sqlite3Error] Sqlite3OperationalError) eqn:Hcb.
      * intros H. injection H as _ _ <-.
        exists [Print (MsgDbFailed Sqlite3OperationalError)].
        split; [reflexivity | repeat constructor].
      * intros H. injection H as _ _ <-. exists []. split; [reflexivity | constructor].
  - intros Hconn Hcreate. unfold create_dummy_db. rewrite Hconn, fill_dummy_db_fails, Hcreate.
    reflexivity.
Qed.

(** The script on a machine without the file, the library in working order. *)
Lemma launcher_script_prints_no_package_witness :
  launcher_script healthy_sqlite3 (with_db sample_env DbAbsent) (start Absent) =
    ([MsgCreatingDb; MsgCreateFailed ProgrammingError],
     Extracted (Ret tt, printing MsgResults (start Absent))).
Proof.
  exact (proj2 (launcher_script_prints_no_package healthy_sqlite3
                  (with_db sample_env DbAbsent) (start Absent) eq_refl) eq_refl eq_refl).
Defined.

(** [main.py] reads the same file.  On what [create_dummy_db] leaves of
    a new file, with a credential, [main] stops before any remote call:
    it prints that no application was found, or the error of the query,
    and returns. *)
Theorem main_stops_on_dummy_db
    (S : sqlite3) (E : env) (f : file_state) (lines : list creation_message)
    (d' : database) (c0 : char) (k : str) :
  create_dummy_db S DbAbsent = (lines, Returns d') ->
  api_key E = Some (c0 :: k) ->
  main (with_db E d') (start f) =
    (Ret tt, {| trace := [Print MsgNoApps; Print (MsgExtracted 0); Print MsgGeminiConfigured];
                cache_file := f |}) \/
  main (with_db E d') (start f) =
    (Ret tt, {| trace := [Print (MsgError Sqlite3Error); Print MsgGeminiConfigured];
                cache_file := f |}).
Proof.
  intros Hc Hkey.
  destruct (proj2 (create_dummy_db_stores_no_row S DbAbsent d' lines Hc) eq_refl)
    as [_ [[_ [-> _]] | [e [_ [_ [-> _]]]]]].
  - left. unfold main, try_except, bind, setup_gemini, extract_apps_from_db, with_db.
    cbn [api_key db]. rewrite Hkey. reflexivity.
  - right. unfold main, try_except, bind, setup_gemini, extract_apps_from_db, with_db.
    cbn [api_key db]. rewrite Hkey. reflexivity.
Qed.

(** [main] on the file the script leaves on a machine in working order. *)
Lemma main_stops_on_dummy_db_witness :
  main (with_db sample_env (DbRows [])) (start Absent) =
    (Ret tt, {| trace := [Print MsgNoApps; Print (MsgExtracted 0); Print MsgGeminiConfigured];
                cache_file := Absent |}) \/
  main (with_db sample_env (DbRows [])) (start Absent) =
    (Ret tt, {| trace := [Print (MsgError Sqlite3Error); Print MsgGeminiConfigured];
                cache_file := Absent |}).
Proof.
  exact (main_stops_on_dummy_db healthy_sqlite3 sample_env Absent
           [MsgCreatingDb; MsgCreateFailed ProgrammingError] (DbRows []) 107 []
           eq_refl eq_refl).
Defined.

(** ** What the pattern matches *)

Lemma strip_prefix_sound (p s r : str) :
  strip_prefix p s = Some r -> s = p ++ r.
Proof.
  revert s. induction p as [|x p IH]; intros s H; cbn [strip_prefix] in H.
  - injection H as ->. reflexivity.
  - destruct s as [|y s]; [discriminate|].
    destruct (N.eqb_spec x y) as [->|]; [|discriminate].
    cbn [List.app]. f_equal. now apply IH.
Qed.

Lemma not_slash_runs_in (s m rest : str) :
  In (m, rest) (not_slash_runs s) -> s = m ++ rest /\ ~ In SLASH m.
Proof.
  revert m rest. induction s as [|c s IH]; intros m rest; cbn [not_slash_runs].
  - intros [H|[]]. injection H as <- <-. split; [reflexivity | intros []].
  - destruct (N.eqb_spec c SLASH) as [Hc|Hc].
    + intros [H|[]]. injection H as <- <-. split; [reflexivity | intros []].
    + intros H. apply in_app_or in H. destruct H as [H|[H|[]]].
      * apply in_map_iff in H. destruct H as [[m0 r0] [Heq Hin]].
        cbn [fst snd] in Heq. injection Heq as <- <-.
        destruct (IH _ _ Hin) as [-> Hno]. split; [reflexivity|].
        intros [H|H]; [now apply Hc | now apply Hno].
      * injection H as <- <-. split; [reflexivity | intros []].
Qed.

Lemma first_before_slash_in (alts : list (str * str)) (m : str) :
  first_before_slash alts = Some m ->
  m <> [] /\ exists post, In (m, SLASH :: post) alts.
Proof.
  induction alts as [|[m0 rest] alts IH]; cbn [first_before_slash]; [discriminate|].
  intros H.
  assert (Hrec : first_before_slash alts = Some m ->
                 m <> [] /\ exists post, In (m, SLASH :: post) ((m0, rest) :: alts)).
  { intros H'. destruct (IH H') as [Hne [post Hin]]. split; [exact Hne|].
    exists post. now right. }
  destruct m0 as [|x m0]; [now apply Hrec|].
  destruct rest as [|c rest]; [now apply Hrec|].
  destruct (N.eqb_spec c SLASH) as [->|]; [|now apply Hrec].
  injection H as <-. split; [discriminate|]. exists rest. now left.
Qed.

Lemma pattern_match_sound (s g : str) :
  pattern_match s = Some g ->
  g <> [] /\ ~ In SLASH g /\ exists post, s = MARKER ++ g ++ SLASH :: post.
Proof.
  unfold pattern_match. destruct (strip_prefix MARKER s) as [r|] eqn:Hp; [|discriminate].
  intros H. apply strip_prefix_sound in Hp.
  destruct (first_before_slash_in _ _ H) as [Hne [post Hin]].
  destruct (not_slash_runs_in _ _ _ Hin) as [-> Hno].
  split; [exact Hne|]. split; [exact Hno|]. now exists post.
Qed.

Lemma pattern_search_sound (s g : str) :
  pattern_search s = Some g ->
  g <> [] /\ ~ In SLASH g /\ exists pre post, s = pre ++ MARKER ++ g ++ SLASH :: post.
Proof.
  induction s as [|c s IH]; cbn [pattern_search].
  - destruct (pattern_match []) as [g0|] eqn:Hm; [|discriminate].
    intros H. injection H as ->.
    destruct (pattern_match_sound _ _ Hm) as [Hne [Hno [post Hs]]].
    split; [exact Hne|]. split; [exact Hno|]. now exists [], post.
  - destruct (pattern_match (c :: s)) as [g0|] eqn:Hm.
    + intros H. injection H as ->.
      destruct (pattern_match_sound _ _ Hm) as [Hne [Hno [post Hs]]].
      split; [exact Hne|]. split; [exact Hno|]. now exists [], post.
    + intros H. destruct (IH H) as [Hne [Hno [pre [post ->]]]].
      split; [exact Hne|]. split; [exact Hno|]. now exists (c :: pre), post.
Qed.

Lemma pattern_search_complete (pre g post : str) :
  g <> [] -> ~ In SLASH g ->
  pattern_search (pre ++ MARKER ++ g ++ SLASH :: post) <> None.
Proof.
  intros Hne Hno. induction pre as [|c pre IH].
  - cbn [List.app]. rewrite (pattern_search_here _ g); [discriminate|].
    now apply pattern_match_here.
  - change ((c :: pre) ++ MARKER ++ g ++ SLASH :: post)
      with (c :: (pre ++ MARKER ++ g ++ SLASH :: post)).
    cbn [pattern_search].
    destruct (pattern_match (c :: pre ++ MARKER ++ g ++ SLASH :: post));
      [discriminate | exact IH].
Qed.

(** ** The two extractors, row by row *)

(** The two tests of [extract_apps_from_db] before the search (the
    intent is not empty, the marker occurs in it) change nothing: the
    search fails on the rows they turn away. *)
Lemma collect_apps_rows (rows : list row) (acc : list app) :
  collect_apps rows acc = acc ++ flat_map record_of_row rows.
Proof.
  revert acc. induction rows as [|[n i] rows IH]; intros acc;
    cbn [collect_apps flat_map].
  - now rewrite app_nil_r.
  - unfold record_of_row at 1. cbn [fst snd].
    destruct i as [[|c i]|]; [apply IH | | apply IH].
    destruct (pattern_search (c :: i)) as [p|] eqn:Hs.
    + rewrite (pattern_search_contains _ _ Hs). cbn [negb].
      rewrite IH. now rewrite <- app_assoc.
    + destruct (negb (contains MARKER (c :: i))); apply IH.
Qed.

Lemma print_packages_rows (rows : list row) (w : world) :
  print_packages rows w =
    (Ret tt, {| trace := rev (List.map package_line (flat_map record_of_row rows)) ++ trace w;
                cache_file := cache_file w |}).
Proof.
  revert w. induction rows as [|[n i] rows IH]; intros w; cbn [print_packages flat_map].
  - destruct w; reflexivity.
  - unfold record_of_row at 1. cbn [fst snd].
    destruct i as [[|c i]|]; [apply IH | | apply IH].
    destruct (pattern_search (c :: i)) as [p|]; [|apply IH].
    unfold bind, print, emit. rewrite IH. cbn [trace cache_file List.app List.map rev].
    unfold package_line at 2. cbn [package name].
    now rewrite <- app_assoc.
Qed.

Lemma in_record_of_row (r : row) (a : app) :
  In a (record_of_row r) ->
  name a = fst r /\ tags a = None /\
  exists i, snd r = Some i /\ pattern_search i = Some (package a).
Proof.
  unfold record_of_row. destruct (snd r) as [i|]; [|intros []].
  destruct (pattern_search i) as [p|] eqn:Hs; [|intros []].
  intros [<-|[]]. cbn. repeat split. now exists i.
Qed.

(** Every record [extract_apps_from_db] returns has a package that is
    not empty and holds no slash, and no tags yet; it comes from a row
    with its name as title whose intent holds the marker, the package
    and a slash in a row. *)
Theorem extracted_packages_are_well_formed
    (E : env) (w w' : world) (apps : list app) (a : app) :
  extract_apps_from_db E w = (Ret apps, w') ->
  In a apps ->
  package a <> [] /\ ~ In SLASH (package a) /\ tags a = None /\
  exists rows pre post,
    db E = DbRows rows /\
    In (name a, Some (pre ++ MARKER ++ package a ++ SLASH :: post)) rows.
Proof.
  unfold extract_apps_from_db. destruct (db E) as [|e|rows] eqn:Hdb.
  - discriminate.
  - unfold try_except, raise. destruct (caught_by [Sqlite3Error] e); discriminate.
  - unfold bind, print, emit, ret. intros H. injection H as <- _.
    rewrite collect_apps_rows. cbn [List.app]. intros Hin.
    apply in_flat_map in Hin. destruct Hin as [[n i] [Hrow Ha]].
    destruct (in_record_of_row _ _ Ha) as [Hn [Ht [i0 [Hi Hs]]]].
    cbn [fst snd] in Hn, Hi. subst i.
    destruct (pattern_search_sound _ _ Hs) as [Hne [Hno [pre [post ->]]]].
    repeat split; try assumption.
    exists rows, pre, post. split; [reflexivity|]. now rewrite Hn.
Qed.

(** The shop of the sample rows. *)
Lemma extracted_packages_are_well_formed_witness :
  package shop_app <> [] /\ ~ In SLASH (package shop_app).
Proof.
  destruct (extracted_packages_are_well_formed sample_env (start Absent)
              (printing (MsgExtracted 2) (start Absent)) [shop_app; video_app] shop_app
              eq_refl (or_introl eq_refl)) as [H1 [H2 _]].
  split; assumption.
Defined.

(** A row yields a record exactly when its intent holds the marker, one
    character or more other than a slash, and a slash, in a row;
    nothing else (a NULL or empty intent, a marker without a slash
    after it, a marker with the slash right behind it) is extracted,
    and no such row is lost. *)
Theorem row_is_extracted_iff (E : env) (rows : list row) (w : world) (n : str) :
  db E = DbRows rows ->
  exists apps,
    extract_apps_from_db E w = (Ret apps, printing (MsgExtracted (List.length apps)) w) /\
    ((exists p, In (mk_app n p None) apps) <->
     (exists pre g post,
        In (n, Some (pre ++ MARKER ++ g ++ SLASH :: post)) rows /\
        g <> [] /\ ~ In SLASH g)).
Proof.
  intros Hdb. exists (collect_apps rows []). split.
  - unfold extract_apps_from_db. rewrite Hdb. reflexivity.
  - rewrite collect_apps_rows. cbn [List.app]. split.
    + intros [p Hin]. apply in_flat_map in Hin. destruct Hin as [[n0 i] [Hrow Ha]].
      destruct (in_record_of_row _ _ Ha) as [Hn [_ [i0 [Hi Hs]]]].
      cbn [fst snd name package] in Hn, Hi, Hs. subst n0 i.
      destruct (pattern_search_sound _ _ Hs) as [Hne [Hno [pre [post ->]]]].
      now exists pre, p, post.
    + intros [pre [g [post [Hrow [Hne Hno]]]]].
      destruct (pattern_search (pre ++ MARKER ++ g ++ SLASH :: post)) as [p|] eqn:Hs.
      * exists p. apply in_flat_map. eexists. split; [exact Hrow|].
        unfold record_of_row. cbn [fst snd]. rewrite Hs. now left.
      * exfalso. exact (pattern_search_complete pre g post Hne Hno Hs).
Qed.

(** On the sample rows: the shop is extracted. *)
Lemma row_is_extracted_iff_witness :
  exists apps,
    extract_apps_from_db sample_env (start Absent) =
      (Ret apps, printing (MsgExtracted (List.length apps)) (start Absent)) /\
    ((exists p, In (mk_app shop_title p None) apps) <->
     (exists pre g post,
        In (shop_title, Some (pre ++ MARKER ++ g ++ SLASH :: post)) dummy_rows /\
        g <> [] /\ ~ In SLASH g)).
Proof.
  exact (row_is_extracted_iff sample_env dummy_rows (start Absent) shop_title eq_refl).
Defined.

(** The two programs extract the same: on the same rows,
    [extract_package_info] prints, after its heading, one line
    "package,name" for each record [extract_apps_from_db] returns, in
    the same order, and nothing else. *)
Theorem extractors_agree (E : env) (rows : list row) (w : world) :
  db E = DbRows rows ->
  exists apps,
    extract_apps_from_db E w = (Ret apps, printing (MsgExtracted (List.length apps)) w) /\
    extract_package_info E w =
      (Ret tt, {| trace := rev (List.map package_line apps) ++ Print MsgResults :: trace w;
                  cache_file := cache_file w |}).
Proof.
  intros Hdb. exists (collect_apps rows []). split.
  - unfold extract_apps_from_db. rewrite Hdb. reflexivity.
  - unfold extract_package_info. rewrite Hdb. unfold bind, print, emit.
    rewrite print_packages_rows, collect_apps_rows. reflexivity.
Qed.

(** The two extractors on the sample rows. *)
Lemma extractors_agree_witness :
  exists apps,
    extract_apps_from_db sample_env (start Absent) =
      (Ret apps, printing (MsgExtracted (List.length apps)) (start Absent)) /\
    extract_package_info sample_env (start Absent) =
      (Ret tt, {| trace := rev (List.map package_line apps) ++ [Print MsgResults];
                  cache_file := Absent |}).
Proof.
  exact (extractors_agree sample_env dummy_rows (start Absent) eq_refl).
Defined.

(** ** Text that cannot be written *)














(** ** The loop, the cache and the disk *)

Lemma classifier_calls_app (l tr : list event) :
  classifier_calls (l ++ tr) = (classifier_calls l + classifier_calls tr)%nat.
Proof. unfold classifier_calls. now rewrite filter_app, length_app. Qed.

Lemma cache_writes_app (l tr : list event) :
  cache_writes (l ++ tr) = (cache_writes l + cache_writes tr)%nat.
Proof. unfold cache_writes. now rewrite filter_app, length_app. Qed.

Lemma no_classify_no_write_count (l : list event) :
  Forall no_classify_no_write l -> classifier_calls l = 0%nat /\ cache_writes l = 0%nat.
Proof.
  induction 1 as [|e l He _ [IH1 IH2]]; [split; reflexivity|].
  unfold classifier_calls, cache_writes in *. cbn [filter].
  destruct e; cbn in He; try contradiction; cbn [List.length]; auto.
Qed.

Lemma is_print_count (l : list event) :
  Forall is_print l -> classifier_calls l = 0%nat /\ cache_writes l = 0%nat.
Proof.
  intros H. apply no_classify_no_write_count.
  apply Forall_impl with (2 := H). intros [m| | | |]; cbn; auto.
Qed.

(** What the turn does once the tag is known: it always returns, with
    the dictionary it was given, and calls neither the classifier nor
    the disk. *)
Lemma after_tags_world (E : env) (a : app) (v : loop_vars) (tc : str * tag_cache)
    (w : world) :
  exists v' new,
    after_tags E a v tc w =
      (Ret v', {| trace := new ++ trace w; cache_file := cache_file w |}) /\
    app_tags_cache v' = snd tc /\
    Forall no_classify_no_write new.
Proof.
  unfold after_tags. unfold bind at 1. cbn [print emit].
  destruct (str_eqb (fst tc) SENTINEL).
  - exists (mk_vars (snd tc) (processed_apps v) (app_vectors v)),
           [Print MsgSkipped; Print (MsgTags (fst tc))].
    split; [reflexivity|]. split; [reflexivity | repeat constructor].
  - unfold bind at 1.
    match goal with |- context [get_embedding E ?t ?w0] =>
      destruct (get_embedding_total E t w0) as [r [l [-> Hl]]] end.
    cbn [trace cache_file].
    assert (Hl' : Forall no_classify_no_write l).
    { apply Forall_impl with (2 := Hl). intros [m| | | |]; cbn; auto. }
    destruct r as [[|x xs]|].
    + eexists. exists (l ++ [EmbedContent (fst tc); Print (MsgEmbedding (firstn 20 (fst tc)));
                             Print (MsgTags (fst tc))]).
      split; [cbn; now rewrite <- app_assoc|]. split; [reflexivity|].
      apply Forall_app. split; [exact Hl' | repeat constructor].
    + eexists. exists (Print MsgVectorOk :: l ++
                         [EmbedContent (fst tc); Print (MsgEmbedding (firstn 20 (fst tc)));
                          Print (MsgTags (fst tc))]).
      split; [cbn; now rewrite <- app_assoc|]. split; [reflexivity|].
      constructor; [exact I|]. apply Forall_app. split; [exact Hl' | repeat constructor].
    + eexists. exists (l ++ [EmbedContent (fst tc); Print (MsgEmbedding (firstn 20 (fst tc)));
                             Print (MsgTags (fst tc))]).
      split; [cbn; now rewrite <- app_assoc|]. split; [reflexivity|].
      apply Forall_app. split; [exact Hl' | repeat constructor].
Qed.

Lemma loop_body_hit (E : env) (a : app) (v : loop_vars) (w : world) (t : str) :
  cache_get (app_tags_cache v) (package a) = Some t ->
  loop_body E a v w =
    after_tags E a v (t, app_tags_cache v)
      (printing MsgCacheHit (printing (MsgProcessing (name a) (package a)) w)).
Proof.
  intros Hhit. rewrite loop_body_unfold.
  unfold bind at 1. cbn [print emit].
  unfold bind at 1. unfold lookup_or_classify. rewrite Hhit.
  reflexivity.
Qed.

(** A turn on a cached package. *)
Lemma loop_body_hit_world (E : env) (a : app) (v : loop_vars) (w : world) (t : str) :
  cache_get (app_tags_cache v) (package a) = Some t ->
  exists v' new,
    loop_body E a v w =
      (Ret v', {| trace := new ++ trace w; cache_file := cache_file w |}) /\
    app_tags_cache v' = app_tags_cache v /\
    Forall no_classify_no_write new.
Proof.
  intros Hhit. rewrite (loop_body_hit E a v w t Hhit).
  destruct (after_tags_world E a v (t, app_tags_cache v)
              (printing MsgCacheHit (printing (MsgProcessing (name a) (package a)) w)))
    as [v' [new [-> [Hc Hnew]]]].
  exists v', (new ++ [Print MsgCacheHit; Print (MsgProcessing (name a) (package a))]).
  split; [cbn; now rewrite <- app_assoc|]. split; [exact Hc|].
  apply Forall_app. split; [exact Hnew | repeat constructor].
Qed.





(** [save_cache] returns, or raises an exception that is not an
    [OSError]. *)
Lemma save_cache_outcome (E : env) (c : tag_cache) (w : world) :
  (exists w', save_cache E c w = (Ret tt, w')) \/
  (exists w', save_cache E c w = (Raise UnicodeEncodeError, w') /\
              disk_write E (trace w) = WriteOk) \/
  (exists e f w', save_cache E c w = (Raise e, w') /\
                  disk_write E (trace w) = WriteFails e f /\
                  issubclass e OSError = false).
Proof.
  unfold save_cache, try_except, bind, write_cache_file.
  destruct (disk_write E (trace w)) as [|e f] eqn:Hd.
  - destruct (write_chunks (dump_chunks c) []) as [b [|]].
    + left. eexists. reflexivity.
    + right. left. eexists. split; reflexivity.
  - unfold caught_by. cbn [existsb]. rewrite orb_false_r.
    destruct (issubclass e OSError) eqn:He.
    + left. eexists. reflexivity.
    + right. right. exists e, f. eexists. repeat split. exact He.
Qed.

(** One turn of the loop, counted: a hit leaves the dictionary, the
    number of classifier calls and the number of writes as they were;
    a miss that returns adds one entry at the end, one call and one
    write. *)
Lemma loop_body_step (E : env) (a : app) (v v1 : loop_vars) (w w1 : world) :
  loop_body E a v w = (Ret v1, w1) ->
  (cache_get (app_tags_cache v) (package a) <> None /\
   app_tags_cache v1 = app_tags_cache v /\
   classifier_calls (trace w1) = classifier_calls (trace w) /\
   cache_writes (trace w1) = cache_writes (trace w)) \/
  (cache_get (app_tags_cache v) (package a) = None /\
   (exists t, app_tags_cache v1 = app_tags_cache v ++ [(package a, t)]) /\
   classifier_calls (trace w1) = S (classifier_calls (trace w)) /\
   cache_writes (trace w1) = S (cache_writes (trace w))).
Proof.
  destruct (cache_get (app_tags_cache v) (package a)) as [t|] eqn:Hc.
  - destruct (loop_body_hit_world E a v w t Hc) as [v' [new [-> [Hc' Hnew]]]].
    intros H. injection H as <- <-. left. cbn [trace].
    destruct (no_classify_no_write_count new Hnew) as [H1 H2].
    rewrite classifier_calls_app, cache_writes_app, H1, H2.
    repeat split; [discriminate | exact Hc'].
  - destruct (get_app_description_total E (name a) (package a)
                (printing (MsgProcessing (name a) (package a)) w)) as [t [l [Hdesc Hl]]].
    rewrite (loop_body_miss E a v w _ t Hc Hdesc).
    set (w0 := {| trace := _; cache_file := _ |}) in *.
    unfold bind at 1.
    destruct (save_cache_trace E (cache_set (app_tags_cache v) (package a) t) w0)
      as [ls [Hs Hls]].
    destruct (save_cache E (cache_set (app_tags_cache v) (package a) t) w0)
      as [[[]|e|] ws] eqn:Hsave; try discriminate.
    cbn [snd] in Hs.
    destruct (after_tags_world E a v (t, cache_set (app_tags_cache v) (package a) t) ws)
      as [v' [new [-> [Hc' Hnew]]]].
    intros H. injection H as <- <-. right. cbn [trace].
    split; [reflexivity|]. split.
    + exists t. rewrite Hc'. cbn [snd]. now apply cache_set_absent.
    + destruct (no_classify_no_write_count new Hnew) as [H1 H2].
      destruct (is_print_count ls Hls) as [H3 H4].
      destruct (is_print_count l Hl) as [H5 H6].
      rewrite classifier_calls_app, cache_writes_app, H1, H2, Hs.
      rewrite classifier_calls_app, cache_writes_app, H3, H4.
      subst w0. cbn [trace printing].
      change (l ++ GenerateContent (name a) (package a) :: Print (MsgApiCall (name a))
                :: Print (MsgProcessing (name a) (package a)) :: trace w)
        with (l ++ [GenerateContent (name a) (package a); Print (MsgApiCall (name a));
                    Print (MsgProcessing (name a) (package a))] ++ trace w).
      unfold classifier_calls at 1, cache_writes at 1. cbn [filter List.length].
      fold (classifier_calls (l ++ [GenerateContent (name a) (package a);
              Print (MsgApiCall (name a));
              Print (MsgProcessing (name a) (package a))] ++ trace w)).
      fold (cache_writes (l ++ [GenerateContent (name a) (package a);
              Print (MsgApiCall (name a));
              Print (MsgProcessing (name a) (package a))] ++ trace w)).
      rewrite !classifier_calls_app, !cache_writes_app, H5, H6.
      unfold classifier_calls at 1, cache_writes at 1. cbn [filter List.length].
      split; reflexivity.
Qed.

(** The loop only ever adds to the dictionary, at its end: when it has
    run, the dictionary is the one it started from followed by the new
    entries, each for a package of the list that was not a key before;
    and the classifier was called, and the cache file written, once for
    each new entry and never otherwise. *)
Theorem cache_grows_by_appending
    (E : env) (apps : list app) (v v' : loop_vars) (w w' : world) :
  main_loop E apps v w = (Ret v', w') ->
  exists new,
    app_tags_cache v' = app_tags_cache v ++ new /\
    (forall k t, In (k, t) new ->
       cache_get (app_tags_cache v) k = None /\ exists a, In a apps /\ package a = k) /\
    classifier_calls (trace w') = (classifier_calls (trace w) + List.length new)%nat /\
    cache_writes (trace w') = (cache_writes (trace w) + List.length new)%nat.
Proof.
  revert v w. induction apps as [|a apps IH]; intros v w; cbn [main_loop].
  - intros H. injection H as <- <-. exists []. rewrite app_nil_r.
    split; [reflexivity|]. split; [intros k t []|]. cbn [List.length]. lia.
  - unfold bind. destruct (loop_body E a v w) as [[v1|e|] w1] eqn:Hbody; try discriminate.
    intros Hrest. destruct (IH v1 w1 Hrest) as [new [Hc [Hnew [Hcalls Hwrites]]]].
    destruct (loop_body_step E a v v1 w w1 Hbody)
      as [[Hhit [Hc1 [Hk1 Hw1]]] | [Hmiss [[t Hc1] [Hk1 Hw1]]]].
    + exists new. rewrite Hc, Hc1. split; [reflexivity|]. split.
      * intros k t Hin. destruct (Hnew k t Hin) as [Hnone [a0 [Ha0 Hp]]].
        rewrite Hc1 in Hnone. split; [exact Hnone|]. exists a0. split; [now right | exact Hp].
      * rewrite Hcalls, Hwrites, Hk1, Hw1. split; reflexivity.
    + exists ((package a, t) :: new). rewrite Hc, Hc1, <- app_assoc.
      split; [reflexivity|]. split.
      * intros k t0 [Heq|Hin].
        -- injection Heq as <- <-. split; [exact Hmiss|]. exists a. split; [now left | reflexivity].
        -- destruct (Hnew k t0 Hin) as [Hnone [a0 [Ha0 Hp]]].
           split; [|exists a0; split; [now right | exact Hp]].
           rewrite Hc1 in Hnone. unfold cache_get in *.
           clear - Hnone.
           induction (app_tags_cache v) as [|[k' v'] d IHd]; [reflexivity|].
           cbn [List.app dict_get] in *.
           destruct (str_eqb k' k); [discriminate | now apply IHd].
      * rewrite Hcalls, Hwrites, Hk1, Hw1. cbn [List.length]. split; lia.
Qed.

(** The sample run: two entries added to an empty dictionary. *)
Lemma cache_grows_by_appending_witness :
  exists new,
    app_tags_cache sample_vars = [] ++ new /\
    (forall k t, In (k, t) new ->
       cache_get [] k = None /\ exists a, In a [shop_app; video_app] /\ package a = k) /\
    classifier_calls (trace sample_world) =
      (classifier_calls (trace (ready Absent 2)) + List.length new)%nat /\
    cache_writes (trace sample_world) =
      (cache_writes (trace (ready Absent 2)) + List.length new)%nat.
Proof.
  destruct (cache_grows_by_appending sample_env [shop_app; video_app] (mk_vars [] [] [])
              sample_vars (ready Absent 2) sample_world eq_refl)
    as [new [H1 [H2 [H3 H4]]]].
  exists new. split; [exact H1|]. split; [exact H2|]. split; [exact H3 | exact H4].
Defined.

(** The loop survives every failure of the remote services and of the
    disk: when the disk fails only with [OSError]s, the loop runs to
    its end, unless a text cannot be encoded for the cache file (the
    one exception that leaves it is [UnicodeEncodeError]). *)
Theorem loop_survives_service_failures
    (E : env) (apps : list app) (v : loop_vars) (w : world) :
  (forall tr e f, disk_write E tr = WriteFails e f -> issubclass e OSError = true) ->
  (exists v' w', main_loop E apps v w = (Ret v', w')) \/
  (exists w', main_loop E apps v w = (Raise UnicodeEncodeError, w')).
Proof.
  intros Hdisk. revert v w. induction apps as [|a apps IH]; intros v w; cbn [main_loop].
  - left. now exists v, w.
  - unfold bind.
    assert (Hbody : (exists v1 w1, loop_body E a v w = (Ret v1, w1)) \/
                    (exists w1, loop_body E a v w = (Raise UnicodeEncodeError, w1))).
    { destruct (cache_get (app_tags_cache v) (package a)) as [t|] eqn:Hc.
      - left. destruct (loop_body_hit_world E a v w t Hc) as [v1 [new [H _]]].
        eexists. eexists. exact H.
      - destruct (get_app_description_total E (name a) (package a)
                    (printing (MsgProcessing (name a) (package a)) w)) as [t [l [Hdesc _]]].
        rewrite (loop_body_miss E a v w _ t Hc Hdesc).
        set (w0 := {| trace := _; cache_file := _ |}).
        unfold bind.
        destruct (save_cache_outcome E (cache_set (app_tags_cache v) (package a) t) w0)
          as [[ws Hs] | [[ws [Hs _]] | [e [f [ws [_ [Hw He]]]]]]].
        + rewrite Hs. left.
          destruct (after_tags_world E a v (t, cache_set (app_tags_cache v) (package a) t) ws)
            as [v1 [new [H _]]].
          eexists. eexists. exact H.
        + rewrite Hs. right. now exists ws.
        + rewrite (Hdisk _ _ _ Hw) in He. discriminate. }
    destruct Hbody as [[v1 [w1 ->]] | [w1 ->]].
    + apply IH.
    + right. now exists w1.
Qed.

(** The sample applications on the disk that refuses every write. *)
Lemma loop_survives_service_failures_witness :
  (exists v' w',
     main_loop full_disk_env [shop_app; video_app] (mk_vars [] [] []) (start Absent)
       = (Ret v', w')) \/
  (exists w',
     main_loop full_disk_env [shop_app; video_app] (mk_vars [] [] []) (start Absent)
       = (Raise UnicodeEncodeError, w')).
Proof.
  apply (loop_survives_service_failures full_disk_env [shop_app; video_app]
           (mk_vars [] [] []) (start Absent)).
  intros tr e f H. injection H as <- _. reflexivity.
Defined.



(** ** The final groups *)

Lemma group_name_eqb_eq (a b : group_name) : group_name_eqb a b = true <-> a = b.
Proof.
  destruct a as [|x], b as [|y]; cbn; split; try congruence; try reflexivity.
  - intros H. apply Z.eqb_eq in H. now subst.
  - intros H. injection H as ->. apply Z.eqb_refl.
Qed.

Section DictFacts.
Variables (K V : Type) (keq : K -> K -> bool).
Hypothesis keq_eq : forall a b, keq a b = true <-> a = b.

Lemma dict_get_set (d : list (K * V)) (k k' : K) (v : V) :
dict_get keq (dict_set keq d k v) k' =
if keq k k' then Some v else dict_get keq d k'.
Proof.
induction d as [|[k0 v0] d IH]; cbn [dict_set dict_get].
- reflexivity.
- destruct (keq k0 k) eqn:H0.
  + apply keq_eq in H0. subst k0. cbn [dict_get].
    destruct (keq k k'); reflexivity.
  + cbn [dict_get]. destruct (keq k0 k') eqn:H1; [|exact IH].
    apply keq_eq in H1. subst k0.
    destruct (keq k k') eqn:H2; [|reflexivity].
    apply keq_eq in H2. subst k'.
    assert (keq k k = true) by now apply keq_eq. congruence.
Qed.

Lemma dict_set_keys (d : list (K * V)) (k : K) (v : V) :
dict_keys (dict_set keq d k v) =
match dict_get keq d k with
| Some _ => dict_keys d
| None => dict_keys d ++ [k]
end.
Proof.
unfold dict_keys. induction d as [|[k0 v0] d IH]; cbn [dict_set dict_get List.map fst].
- reflexivity.
- destruct (keq k0 k); cbn [List.map fst]; [reflexivity|].
  rewrite IH. destruct (dict_get keq d k); reflexivity.
Qed.

Lemma dict_get_none_notin (d : list (K * V)) (k : K) :
dict_get keq d k = None -> ~ In k (dict_keys d).
Proof.
unfold dict_keys. induction d as [|[k0 v0] d IH]; cbn [dict_get List.map fst]; [intros _ []|].
destruct (keq k0 k) eqn:H0; [discriminate|].
intros H [Heq|Hin]; [|exact (IH H Hin)].
apply keq_eq in Heq. congruence.
Qed.

Lemma dict_set_nodup (d : list (K * V)) (k : K) (v : V) :
NoDup (dict_keys d) -> NoDup (dict_keys (dict_set keq d k v)).
Proof.
intros Hnd. rewrite dict_set_keys.
destruct (dict_get keq d k) eqn:Hk; [exact Hnd|].
apply NoDup_app; [exact Hnd | repeat constructor; intros [] |].
intros x Hx [<-|[]]. exact (dict_get_none_notin _ _ Hk Hx).
Qed.
End DictFacts.

(** Adding a name to its group adds it to the names listed, and
    nothing else. *)
Lemma all_names_set (g : grouped_result) (gn : group_name) (n : str) :
  Permutation (all_names (dict_set group_name_eqb g gn (members_of g gn ++ [n])))
              (n :: all_names g).
Proof.
  unfold all_names, members_of.
  induction g as [|[k l] g IH]; cbn [dict_set dict_get List.map snd List.concat].
  - cbn. reflexivity.
  - destruct (group_name_eqb k gn) eqn:Hk; cbn [List.map snd List.concat].
    + rewrite <- app_assoc. cbn [List.app].
      symmetry. apply Permutation_middle.
    + rewrite IH. symmetry. apply Permutation_middle.
Qed.

Lemma members_of_set (g : grouped_result) (gn gn' : group_name) (l : list str) :
  members_of (dict_set group_name_eqb g gn l) gn' =
  if group_name_eqb gn gn' then l else members_of g gn'.
Proof.
  unfold members_of. rewrite (@dict_get_set _ _ _ group_name_eqb_eq).
  destruct (group_name_eqb gn gn'); reflexivity.
Qed.

(** The grouping loop, with its counter and the groups built so far. *)
Lemma group_apps_run (apps : list app) (clusters : list Z) :
  forall (i : nat) (g : grouped_result) (w : world),
  (i + List.length apps <= List.length clusters)%nat ->
  exists g',
    group_apps i apps clusters g w = (Ret g', w) /\
    Permutation (all_names g') (all_names g ++ List.map name apps) /\
    (NoDup (dict_keys g) -> NoDup (dict_keys g')) /\
    (Forall (fun kv => snd kv <> []) g -> Forall (fun kv => snd kv <> []) g') /\
    (forall gn, members_of g' gn = members_of g gn ++ labelled gn apps (skipn i clusters)).
Proof.
  induction apps as [|a apps IH]; intros i g w Hlen; cbn [group_apps].
  - exists g. split; [reflexivity|]. split; [cbn; now rewrite app_nil_r|].
    split; [auto|]. split; [auto|]. intros gn. unfold labelled. cbn. now rewrite app_nil_r.
  - cbn [List.length] in Hlen.
    destruct (nth_error clusters i) as [cid|] eqn:Hnth;
      [|apply nth_error_None in Hnth; lia].
    fold (group_of cid). fold (members_of g (group_of cid)).
    set (g1 := dict_set group_name_eqb g (group_of cid) (members_of g (group_of cid) ++ [name a])).
    destruct (IH (S i) g1 w ltac:(lia)) as [g' [Hrun [Hperm [Hnd [Hne Hmem]]]]].
    exists g'. split; [exact Hrun|]. split; [|split; [|split]].
    + rewrite Hperm. unfold g1. rewrite all_names_set. cbn [List.map].
      apply Permutation_middle.
    + intros H. apply Hnd. unfold g1. now apply (@dict_set_nodup _ _ _ group_name_eqb_eq).
    + intros H. apply Hne. unfold g1.
      clear - H. induction g as [|[k l] g IHg]; cbn [dict_set].
      * constructor; [|constructor]. cbn. now destruct (members_of [] (group_of cid)).
      * inversion H as [|? ? Hk Hg]; subst.
        destruct (group_name_eqb k (group_of cid)) eqn:Hk'.
        -- constructor; [|exact Hg]. cbn. unfold members_of. cbn [dict_get]. rewrite Hk'.
           now destruct l.
        -- constructor; [exact Hk|].
           unfold members_of in *. cbn [dict_get]. rewrite Hk'. now apply IHg.
    + intros gn. rewrite Hmem. unfold g1. rewrite members_of_set.
      assert (Hskip : skipn i clusters = cid :: skipn (S i) clusters).
      { clear - Hnth. revert clusters Hnth. induction i as [|i IHi]; intros [|c cs] H;
          try discriminate.
        - cbn in H. injection H as ->. reflexivity.
        - cbn [nth_error] in H. cbn [skipn]. rewrite (IHi cs H). reflexivity. }
      rewrite Hskip. unfold labelled. cbn [combine filter fst snd].
      destruct (group_name_eqb (group_of cid) gn) eqn:Hg.
      * apply group_name_eqb_eq in Hg. subst gn. cbn [List.map fst].
        now rewrite <- app_assoc.
      * reflexivity.
Qed.

Lemma group_apps_short (apps : list app) (clusters : list Z) :
  forall (i : nat) (g : grouped_result) (w : world),
  (i <= List.length clusters)%nat ->
  (List.length clusters < i + List.length apps)%nat ->
  group_apps i apps clusters g w = (Raise IndexError, w).
Proof.
  induction apps as [|a apps IH]; intros i g w Hi Hlen; cbn [group_apps].
  - cbn [List.length] in Hlen. lia.
  - cbn [List.length] in Hlen.
    destruct (nth_error clusters i) as [cid|] eqn:Hnth; [|reflexivity].
    assert (i < List.length clusters)%nat by (apply nth_error_Some; congruence).
    apply IH; lia.
Qed.

(** The grouping loop needs a label for each application: with as many
    labels as applications or more it returns, and lists every
    application exactly once (the names in the groups are the names of
    the applications, as often as they occur), under keys that are all
    different and with no group empty; with fewer labels it raises
    [IndexError].  It prints nothing. *)
Theorem groups_partition_the_apps (apps : list app) (clusters : list Z) (w : world) :
  ((List.length apps <= List.length clusters)%nat ->
   exists g,
     group_apps 0 apps clusters [] w = (Ret g, w) /\
     Permutation (all_names g) (List.map name apps) /\
     NoDup (dict_keys g) /\
     Forall (fun kv => snd kv <> []) g) /\
  ((List.length clusters < List.length apps)%nat ->
   group_apps 0 apps clusters [] w = (Raise IndexError, w)).
Proof.
  split.
  - intros Hlen.
    destruct (group_apps_run apps clusters 0 [] w Hlen) as [g [Hrun [Hperm [Hnd [Hne _]]]]].
    exists g. split; [exact Hrun|]. split; [exact Hperm|].
    split; [apply Hnd; constructor | apply Hne; constructor].
  - intros Hlen. apply group_apps_short; [lia | exact Hlen].
Qed.

(** Each application is listed under the group of its label — the
    outlier bucket for -1, the group of the label otherwise — and the
    members of a group are the applications with its label, in the
    order in which they were processed. *)
Theorem groups_follow_labels
    (apps : list app) (clusters : list Z) (w w' : world) (g : grouped_result) :
  group_apps 0 apps clusters [] w = (Ret g, w') ->
  (forall gn, members_of g gn = labelled gn apps clusters) /\
  (forall gn, dict_get group_name_eqb g gn = None <-> labelled gn apps clusters = []) /\
  (forall i a c, nth_error apps i = Some a -> nth_error clusters i = Some c ->
     In (name a) (members_of g (group_of c))).
Proof.
  intros Hrun.
  assert (Hlen : (List.length apps <= List.length clusters)%nat).
  { destruct (Nat.le_gt_cases (List.length apps) (List.length clusters)) as [H|H]; [exact H|].
    rewrite (group_apps_short apps clusters 0 [] w) in Hrun; [discriminate | lia | exact H]. }
  destruct (group_apps_run apps clusters 0 [] w Hlen) as [g0 [Hrun0 [_ [_ [Hne Hmem]]]]].
  rewrite Hrun0 in Hrun. injection Hrun as -> _.
  assert (Hm : forall gn, members_of g gn = labelled gn apps clusters).
  { intros gn. rewrite Hmem. reflexivity. }
  split; [exact Hm|]. split.
  - intros gn. rewrite <- Hm. unfold members_of.
    destruct (dict_get group_name_eqb g gn) as [l|] eqn:Hget; [|tauto].
    split; [discriminate|]. intros ->.
    destruct (dict_get_in _ _ _ _ Hget) as [k Hk].
    specialize (Hne (Forall_nil _)). rewrite Forall_forall in Hne.
    now elim (Hne _ Hk).
  - intros i a c Ha Hc. rewrite Hm. unfold labelled.
    apply in_map_iff. exists (a, c). split; [reflexivity|].
    apply filter_In. split.
    + clear - Ha Hc. revert apps clusters Ha Hc.
      induction i as [|i IH]; intros [|a0 apps] [|c0 clusters] Ha Hc; try discriminate.
      * cbn in Ha, Hc. injection Ha as ->. injection Hc as ->. now left.
      * right. now apply IH.
    + cbn [snd]. now apply group_name_eqb_eq.
Qed.

(** The shop with label -1 and the video player with label 0. *)
Lemma groups_follow_labels_witness :
  In (name shop_app)
     (members_of [(Outliers, [shop_title]); (Group 0, [video_title])] (group_of (-1))).
Proof.
  exact (proj2 (proj2 (groups_follow_labels [shop_app; video_app] [(-1)%Z; 0%Z]
                         (start Absent) (start Absent)
                         [(Outliers, [shop_title]); (Group 0, [video_title])] eq_refl))
           0%nat shop_app (-1)%Z eq_refl eq_refl).
Defined.

(** ** The clustering stage of [main] *)

Lemma main_to_cluster_stage (E : env) (f : file_state) (c0 : char) (k : str)
    (rows : list row) (a : app) (rest : list app) (loaded : json)
    (cache : tag_cache) (v : loop_vars) (w1 w2 : world) :
  api_key E = Some (c0 :: k) -> db E = DbRows rows ->
  collect_apps rows [] = a :: rest ->
  load_cache (ready f (List.length (a :: rest))) = (Ret loaded, w1) ->
  as_tag_cache loaded = Some cache ->
  main_loop E (a :: rest) (mk_vars cache [] []) w1 = (Ret v, w2) ->
  main E (start f) = cluster_stage E v w2 /\
  List.length (processed_apps v) = List.length (app_vectors v).
Proof.
  intros Hkey Hdb Hrows Hload Hcache Hloop. split.
  - rewrite (main_to_loop E f c0 k rows a rest Hkey Hdb Hrows).
    unfold bind at 1. rewrite Hload, Hcache.
    unfold bind at 1. rewrite Hloop. reflexivity.
  - destruct (main_loop_vars E _ _ _ _ _ Hloop) as [_ [_ [ps [vs [Hps [Hvs [Hlen _]]]]]]].
    cbn [processed_apps app_vectors List.app] in Hps, Hvs. now rewrite Hps, Hvs.
Qed.

(** A run that reaches the clustering with a vector or more, when the
    library returns a label for each vector: [main] prints the groups
    last and returns; every embedded application is listed in them
    exactly once, under the group of its label, and no application
    that was skipped is. *)
Theorem main_lists_every_embedded_app
    (E : env) (f : file_state) (c0 : char) (k : str)
    (rows : list row) (a : app) (rest : list app) (loaded : json)
    (cache : tag_cache) (v : loop_vars) (w1 w2 : world) (labels : list Z) :
  api_key E = Some (c0 :: k) -> db E = DbRows rows ->
  collect_apps rows [] = a :: rest ->
  load_cache (ready f (List.length (a :: rest))) = (Ret loaded, w1) ->
  as_tag_cache loaded = Some cache ->
  main_loop E (a :: rest) (mk_vars cache [] []) w1 = (Ret v, w2) ->
  app_vectors v <> [] ->
  fit_predict E (app_vectors v) = Labels labels ->
  List.length labels = List.length (app_vectors v) ->
  exists g,
    main E (start f) =
      (Ret tt,
       {| trace := Print (MsgGroups g) :: Print MsgClustered :: FitPredict (app_vectors v)
                     :: Print MsgUsingDbscan :: Print MsgAllProcessed :: trace w2;
          cache_file := cache_file w2 |}) /\
    Permutation (all_names g) (List.map name (processed_apps v)) /\
    (forall gn, members_of g gn = labelled gn (processed_apps v) labels).
Proof.
  intros Hkey Hdb Hrows Hload Hcache Hloop Hvec Hfit Hlabels.
  destruct (main_to_cluster_stage E f c0 k rows a rest loaded cache v w1 w2
              Hkey Hdb Hrows Hload Hcache Hloop) as [-> Hlen].
  unfold cluster_stage. destruct (app_vectors v) as [|x xs] eqn:Hv; [now elim Hvec|].
  unfold bind at 1. cbn [print emit].
  unfold bind at 1. cbn [print emit trace cache_file].
  unfold bind at 1. unfold call_fit_predict. rewrite Hfit. cbn [trace cache_file].
  unfold bind at 1. cbn [print emit trace cache_file].
  set (w3 := {| trace := _; cache_file := _ |}).
  destruct (group_apps_run (processed_apps v) labels 0 [] w3 ltac:(lia))
    as [g [Hrun [Hperm [_ [_ Hmem]]]]].
  unfold bind. rewrite Hrun. exists g. split; [reflexivity|]. split; [exact Hperm|].
  intros gn. rewrite Hmem. reflexivity.
Qed.

(** The sample run: the shop is the one application embedded. *)
Lemma main_lists_every_embedded_app_witness :
  exists g,
    main sample_env (start Absent) =
      (Ret tt,
       {| trace := Print (MsgGroups g) :: Print MsgClustered
                     :: FitPredict (app_vectors sample_vars)
                     :: Print MsgUsingDbscan :: Print MsgAllProcessed :: trace sample_world;
          cache_file := cache_file sample_world |}) /\
    Permutation (all_names g) (List.map name (processed_apps sample_vars)) /\
    (forall gn, members_of g gn = labelled gn (processed_apps sample_vars) [(-1)%Z]).
Proof.
  apply (main_lists_every_embedded_app sample_env Absent 107 [] dummy_rows
           shop_app [video_app] (JObj []) [] sample_vars (ready Absent 2) sample_world
           [(-1)%Z]).
  - reflexivity.
  - reflexivity.
  - reflexivity.
  - reflexivity.
  - reflexivity.
  - vm_compute. reflexivity.
  - discriminate.
  - reflexivity.
  - reflexivity.
Defined.

(** Nothing catches an exception raised while the vectors are made
    into a matrix and clustered: [main] ends with that exception after
    the line that opens the clustering stage, without the line that
    closes it and without any group printed, and the process ends with
    status 1. *)
Theorem clustering_failure_ends_main
    (E : env) (f : file_state) (c0 : char) (k : str)
    (rows : list row) (a : app) (rest : list app) (loaded : json)
    (cache : tag_cache) (v : loop_vars) (w1 w2 : world) (e : pyclass) :
  api_key E = Some (c0 :: k) -> db E = DbRows rows ->
  collect_apps rows [] = a :: rest ->
  load_cache (ready f (List.length (a :: rest))) = (Ret loaded, w1) ->
  as_tag_cache loaded = Some cache ->
  main_loop E (a :: rest) (mk_vars cache [] []) w1 = (Ret v, w2) ->
  app_vectors v <> [] ->
  fit_predict E (app_vectors v) = FitRaises e ->
  fst (main E (start f)) = Raise e /\
  exit_status E f = Some 1%Z /\
  exists l,
    trace (snd (main E (start f))) = l ++ Print MsgAllProcessed :: trace w2 /\
    Forall (fun ev => ev <> Print MsgClustered /\ forall g, ev <> Print (MsgGroups g)) l.
Proof.
  intros Hkey Hdb Hrows Hload Hcache Hloop Hvec Hfit.
  assert (Hmain : main E (start f) =
    (Raise e,
     {| trace := FitPredict (app_vectors v) :: Print MsgUsingDbscan
                   :: Print MsgAllProcessed :: trace w2;
        cache_file := cache_file w2 |})).
  { destruct (main_to_cluster_stage E f c0 k rows a rest loaded cache v w1 w2
                Hkey Hdb Hrows Hload Hcache Hloop) as [-> _].
    unfold cluster_stage. destruct (app_vectors v) as [|x xs] eqn:Hv; [now elim Hvec|].
    unfold bind at 1. cbn [print emit].
    unfold bind at 1. cbn [print emit trace cache_file].
    unfold bind at 1. unfold call_fit_predict. rewrite Hfit. reflexivity. }
  split; [now rewrite Hmain|]. split; [unfold exit_status; now rewrite Hmain|].
  rewrite Hmain. cbn [snd trace].
  exists [FitPredict (app_vectors v); Print MsgUsingDbscan]. split; [reflexivity|].
  repeat constructor; try discriminate; intros g; discriminate.
Qed.

(** The sample run with a clustering library that raises [ValueError]. *)
Lemma clustering_failure_ends_main_witness :
  fst (main no_clustering_env (start Absent)) = Raise ValueError /\
  exit_status no_clustering_env Absent = Some 1%Z.
Proof.
  destruct (clustering_failure_ends_main no_clustering_env Absent 107 [] dummy_rows
              shop_app [video_app] (JObj []) [] sample_vars (ready Absent 2) sample_world
              ValueError) as [H1 [H2 _]].
  - reflexivity.
  - reflexivity.
  - reflexivity.
  - reflexivity.
  - reflexivity.
  - vm_compute. reflexivity.
  - discriminate.
  - reflexivity.
  - split; [exact H1 | exact H2].
Defined.

(** ** From one run to the next *)







(** ** Tags have no blank space around them *)







